(** * Spider: the rules engine of [logic.js] and the inventory check of
    [validation.js], embedded in Rocq.

    Cards are JavaScript objects [{id, suit, rank, faceUp}].  The fields
    [id], [suit] and [rank] never change after [createDeck]; [faceUp] is
    mutated in place, and the same object can be referenced from a tableau
    column, from the stock, from the foundations list and from history
    entries at once.  The embedding therefore splits an object in two: the
    immutable part is a [Card] record carrying the address [oid] of the
    object, and the mutable [faceUp] field lives in a store [faces] indexed
    by that address.  [structuredClone] allocates fresh addresses.

    The UI hooks ([hooks.updateUI], [hooks.draw], [hooks.flashMsg],
    [hooks.audio.*]) are the no-ops that [logic.js] installs by default, the
    external [window.GameHistory] recorder is absent, and the timer fields
    ([startTime], [elapsedMs], [running]) and the textual verification notes
    are left out. A JavaScript [TypeError] is the result [None]. *)

From Stdlib Require Import ZArith String Ascii Lia.
From stdpp Require Import base tactics option list.

Local Open Scope Z_scope.

(** ** 32-bit arithmetic of the PRNG *)

Module Prng.

(** An int32/uint32 value is kept as its residue in [0, 2^32). *)
Definition u32 (x : Z) : Z := x mod 4294967296.

(** [Math.imul] *)
Definition imul (x y : Z) : Z := u32 (x * y).

(** One call of the closure returned by [mulberry32(a)]: the new value of
    the captured [a], and the numerator [n] of the returned float
    [n / 4294967296]. *)
Definition mulberry32 (a : Z) : Z * Z :=
  let a := a + 1831565813 (* 0x6D2B79F5 *) in
  let t := u32 a in
  let t := imul (Z.lxor t (Z.shiftr t 15)) (Z.lor t 1) in
  let t := Z.lxor t (u32 (t + imul (Z.lxor t (Z.shiftr t 7)) (Z.lor t 61))) in
  (a, Z.lxor t (Z.shiftr t 14)).

(** [hashSeed(str)], on the UTF-16 code units of [str]. *)
Definition hashSeed (str : list Z) : Z :=
  u32 (foldl (fun h c => imul (Z.lxor h c) 16777619) 2166136261 str).

(** [[arr[i],arr[j]]=[arr[j],arr[i]]] *)
Definition swap {A} (arr : list A) (i j : nat) : list A :=
  match arr !! i, arr !! j with
  | Some x, Some y => <[j := x]> (<[i := y]> arr)
  | _, _ => arr
  end.

(** The body of [shuffle] for the indices [i, i-1, ..., 1].  The index
    [(rnd()*(i+1))|0] is the integer part of [n*(i+1)/2^32], which the
    double product represents exactly for decks of this size. *)
Fixpoint shuffle_loop {A} (i : nat) (arr : list A) (a : Z) : list A * Z :=
  match i with
  | O => (arr, a)
  | S i' =>
      let '(a', n) := mulberry32 a in
      let j := Z.to_nat (n * Z.of_nat (i + 1) / 4294967296) in
      shuffle_loop i' (swap arr i j) a'
  end.

Definition shuffle {A} (arr : list A) (a : Z) : list A * Z :=
  shuffle_loop (length arr - 1)%nat arr a.

End Prng.

(** ** Cards and the game state *)

Inductive Suit := Spade | Diamond | Heart | Club.

#[global] Instance Suit_eq_dec : EqDecision Suit.
Proof. solve_decision. Defined.

Record Card := mkCard { oid : nat; id : nat; suit : Suit; rank : Z }.

#[global] Instance Card_eq_dec : EqDecision Card.
Proof. solve_decision. Defined.

(** The three kinds of history entry.  [moved] holds the clones made by
    [structuredClone]; [dealt], [cards] and [turned] hold the live objects. *)
Inductive Entry :=
| EMove (from to : nat) (moved : list Card) (turned : option Card)
| EDeal (dealt : list Card)
| EComplete (col : nat) (cards : list Card) (turned : option Card).

#[global] Instance Entry_eq_dec : EqDecision Entry.
Proof. solve_decision. Defined.

Record State := mkState {
  difficulty : string;
  seed : list Z;
  rng : option Z;
  includeAces : bool;
  tableau : list (list Card);
  stock : list Card;
  dealsRemaining : Z;
  foundations : Z;
  moves : Z;
  score : Z;
  history : list Entry;
  redoStack : list Entry;
  message : string;
  won : bool;
  foundationsCards : list Card;
  faces : list bool
}.

(** The [state] literal of [logic.js]. *)
Definition state0 : State :=
  {| difficulty := "1-suit"; seed := []; rng := None; includeAces := false;
     tableau := replicate 10 []; stock := []; dealsRemaining := 5;
     foundations := 0; moves := 0; score := 500; history := [];
     redoStack := []; message := ""; won := false; foundationsCards := [];
     faces := [] |}.

(** [card.faceUp] and [card.faceUp = b] *)
Definition faceUp (f : list bool) (c : Card) : bool := default false (f !! oid c).
Definition setFaceUp (c : Card) (b : bool) (f : list bool) : list bool :=
  <[oid c := b]> f.

(** What [{...c}] copies out of a card: the value of the object. *)
Definition cardView (f : list bool) (c : Card) : nat * Suit * Z * bool :=
  (id c, suit c, rank c, faceUp f c).

(** UTF-16 code units of an ASCII literal. *)
Definition codes (s : string) : list Z :=
  fmap (fun c => Z.of_nat (nat_of_ascii c)) (list_ascii_of_string s).

(** ** Deck and dealing *)

Definition suitsOf (difficulty : string) : list Suit :=
  if String.eqb difficulty "1-suit" then replicate 8 Spade
  else if String.eqb difficulty "2-suit" then replicate 4 Spade ++ replicate 4 Diamond
  else [Spade; Diamond; Heart; Club; Spade; Diamond; Heart; Club].

(** The 104 objects pushed by the nested loops of [createDeck]; the object
    with id [i] is allocated at address [base + i]. *)
Fixpoint fullDeck (base i : nat) (suits : list Suit) : list Card :=
  match suits with
  | [] => []
  | s :: rest =>
      fmap (fun r => mkCard (base + i + r) (i + r) s (Z.of_nat r + 1)) (seq 0 13)
        ++ fullDeck base (i + 13) rest
  end.

Definition createDeck (base : nat) (difficulty : string) (aces : bool) : list Card :=
  let deck := fullDeck base 0 (suitsOf difficulty) in
  if aces then deck else filter (fun c => rank c <> 1) deck.

(** [cols[c].push(card)] *)
Definition pushCol {A} (cols : list (list A)) (c : nat) (cards : list A)
  : list (list A) :=
  match cols !! c with
  | Some col => <[c := col ++ cards]> cols
  | None => cols
  end.

(** One iteration of the inner dealing loop of [initialDeal]; once
    [idx] reaches [remaining.length] both loop guards fail and nothing
    more is dealt. *)
Definition dealSlot {A} (remaining : list A) (pass c : nat)
    (st : nat * list (list A)) : nat * list (list A) :=
  let '(idx, cols) := st in
  match remaining !! idx with
  | None => st
  | Some card =>
      if (pass =? 5)%nat && (4 <=? c)%nat then st
      else (S idx, pushCol cols c [card])
  end.

(** The two dealing loops of [initialDeal]: passes 0 to 5 over columns 0
    to 9. *)
Definition dealCols {A} (remaining : list A) : list (list A) :=
  (foldl (fun st pass => foldl (fun st c => dealSlot remaining pass c st) st (seq 0 10))
         (O, replicate 10 []) (seq 0 6)).2.

Definition top (col : list Card) : option Card := last col.

(** [if (cols[c].length) cols[c][cols[c].length - 1].faceUp = true] *)
Definition flipTop (col : list Card) (f : list bool) : list bool :=
  match top col with
  | Some c => setFaceUp c true f
  | None => f
  end.

Definition initialDeal (deck : list Card) (a : Z) (f : list bool)
  : list (list Card) * list Card * Z * list bool :=
  let '(deck, a) := Prng.shuffle deck a in
  let stock := take 50 deck in
  let remaining := drop 50 deck in
  let cols := dealCols remaining in
  (cols, stock, a, foldl (fun f col => flipTop col f) f cols).

(** [newGame({difficulty, seed, includeAces})]; an omitted [difficulty] or
    [includeAces] defaults to the current setting. *)
Definition canonDiff (d : string) : string :=
  if String.eqb d "1" || String.eqb d "1-suit" then "1-suit"
  else if String.eqb d "2" || String.eqb d "2-suit" then "2-suit"
  else "4-suit".

Definition newGame (d : option string) (sd : list Z) (aces : option bool)
    (s : State) : State :=
  let diff := canonDiff (default (difficulty s) d) in
  let ia := default (includeAces s) aces in
  let a := Prng.hashSeed (codes diff ++ [58] ++ sd) in
  let base := length (faces s) in
  let deck := createDeck base diff ia in
  let f := faces s ++ replicate 104 false in
  let '(deck, a) := Prng.shuffle deck a in
  let '(cols, stk, a, f) := initialDeal deck a f in
  {| difficulty := diff; seed := sd; rng := Some a; includeAces := ia;
     tableau := cols; stock := stk; dealsRemaining := 5; foundations := 0;
     moves := 0; score := 500; history := []; redoStack := [];
     message := ""; won := false; foundationsCards := foundationsCards s;
     faces := f |}.

(** ** Array helpers *)

(** [arr.pop()] and [arr.shift()]; [None] is [undefined]. *)
Definition pop {A} (l : list A) : option (A * list A) :=
  match last l with
  | Some x => Some (x, take (length l - 1) l)
  | None => None
  end.

Definition shift {A} (l : list A) : option (A * list A) :=
  match l with
  | x :: l' => Some (x, l')
  | [] => None
  end.

(** [arr.splice(start, count)]: the removed elements and what is left. *)
Definition splice {A} (l : list A) (start count : Z) : list A * list A :=
  let len := Z.of_nat (length l) in
  let actualStart := if start <? 0 then Z.max (len + start) 0 else Z.min start len in
  let deleteCount := Z.min (Z.max count 0) (len - actualStart) in
  (take (Z.to_nat deleteCount) (drop (Z.to_nat actualStart) l),
   take (Z.to_nat actualStart) l ++ drop (Z.to_nat (actualStart + deleteCount)) l).

(** [arr.sort(cmp)] for a comparator given as a boolean order. *)
Fixpoint insertSorted {A} (leb : A -> A -> bool) (x : A) (l : list A) : list A :=
  match l with
  | [] => [x]
  | y :: l' => if leb x y then x :: y :: l' else y :: insertSorted leb x l'
  end.

Definition sortBy {A} (leb : A -> A -> bool) (l : list A) : list A :=
  foldr (insertSorted leb) [] l.

(** [col.findIndex(c => c.id === t.id)] *)
Fixpoint findIndex (i : nat) (col : list Card) : option nat :=
  match col with
  | [] => None
  | c :: col' => if (id c =? i)%nat then Some O else S <$> findIndex i col'
  end.

(** [if (h.turned) { idx = col.findIndex(...); if (idx>=0) col[idx].faceUp = b }] *)
Definition setTurned (turned : option Card) (col : list Card) (b : bool)
    (f : list bool) : list bool :=
  match turned with
  | None => f
  | Some t =>
      match findIndex (id t) col with
      | Some idx =>
          match col !! idx with
          | Some c => setFaceUp c b f
          | None => f
          end
      | None => f
      end
  end.

(** ** Rules *)

(** [canDrop(tailHead, destTop)] *)
Definition canDrop (tailHead : Card) (destTop : option Card) : bool :=
  match destTop with
  | None => true
  | Some d => rank tailHead + 1 =? rank d
  end.

Definition isK2 (sequence : list Card) : bool :=
  let ranks := sortBy Z.leb (fmap rank sequence) in
  match ranks !! 0%nat, ranks !! 11%nat with
  | Some lo, Some hi => (lo =? 2) && (hi =? 13)
  | _, _ => false
  end.

(** The inner loop of [tryComplete], for [j] running down over the cards
    [below] the start card (nearest first). [Some] is the index list at the
    point of success, [None] is a [break] or the end of the loop. *)
Fixpoint scanRun (aces : bool) (f : list bool) (st : Suit) (below : list Card)
    (j : nat) (sequence : list Card) (sequenceIndices : list nat)
  : option (list nat) :=
  match below with
  | [] => None
  | currentCard :: below' =>
      if negb (faceUp f currentCard)
      then scanRun aces f st below' (j - 1)%nat sequence (sequenceIndices ++ [j])
      else
        match last sequence with
        | None => None
        | Some prevCard =>
            let isAsc := bool_decide (suit currentCard = st)
                           && (rank currentCard =? rank prevCard + 1) in
            let isDesc := bool_decide (suit currentCard = st)
                           && (rank currentCard =? rank prevCard - 1) in
            if isAsc || isDesc then
              let sequence := sequence ++ [currentCard] in
              let sequenceIndices := sequenceIndices ++ [j] in
              if (aces && (length sequence =? 13)%nat)
                 || (negb aces && (length sequence =? 12)%nat)
              then
                if negb aces && (length sequence =? 12)%nat && negb (isK2 sequence)
                then None
                else Some sequenceIndices
              else scanRun aces f st below' (j - 1)%nat sequence sequenceIndices
            else None
        end
  end.

(** The outer loop of [tryComplete], for [i = n-1] down to [0]. *)
Fixpoint findRun (aces : bool) (f : list bool) (col : list Card) (n : nat)
  : option (list nat) :=
  match n with
  | O => None
  | S i =>
      match col !! i with
      | None => None
      | Some startCard =>
          if negb (faceUp f startCard) then findRun aces f col i
          else
            match scanRun aces f (suit startCard) (rev (take i col)) (i - 1)%nat
                          [startCard] [i] with
            | Some idxs => Some idxs
            | None => findRun aces f col i
            end
      end
  end.

(** [for (const idx of sequenceIndices) removed.push(col.splice(idx,1)[0])] *)
Definition spliceEach (idxs : list nat) (col : list Card) : list Card * list Card :=
  foldl (fun '(removed, col) idx =>
           match col !! idx with
           | Some c => (removed ++ [c], delete idx col)
           | None => (removed, col)
           end) ([], col) idxs.

(** [tryComplete(col, includeAces)]: [None] is [null], otherwise the
    removed cards and the column after the splices. *)
Definition tryComplete (col : list Card) (aces : bool) (f : list bool)
  : option (list Card * list Card) :=
  let minRank := if aces then 1%nat else 2%nat in
  let expectedLength := (14 - minRank)%nat in
  if (length col <? expectedLength)%nat then None
  else
    match findRun aces f col (length col) with
    | None => None
    | Some idxs => Some (spliceEach (sortBy (fun a b => (b <=? a)%nat) idxs) col)
    end.

(** [removeFromFoundations(cards)] *)
Definition removeFromFoundations (cards : list Card) (fc : list Card) : list Card :=
  filter (fun c => id c ∉ fmap id cards) fc.

(** [completeTopRun(colIndex, includeAces)] *)
Definition completeTopRun (colIndex : nat) (aces : bool) (s : State)
  : option (bool * State) :=
  col ← tableau s !! colIndex;
  match tryComplete col aces (faces s) with
  | None => Some (false, s)
  | Some (rem, col) =>
      let turned :=
        match top col with
        | Some t => if negb (faceUp (faces s) t) then Some t else None
        | None => None
        end in
      let f := match turned with Some t => setFaceUp t true (faces s) | None => faces s end in
      Some (true,
        {| difficulty := difficulty s; seed := seed s; rng := rng s;
           includeAces := includeAces s;
           tableau := <[colIndex := col]> (tableau s); stock := stock s;
           dealsRemaining := dealsRemaining s; foundations := foundations s + 1;
           moves := moves s; score := score s + 100;
           history := history s ++ [EComplete colIndex rem turned];
           redoStack := redoStack s; message := message s; won := won s;
           foundationsCards := foundationsCards s ++ rem; faces := f |})
  end.

(** [checkWin()] *)
Definition checkWin (s : State) : State :=
  if foundations s =? 8 then
    {| difficulty := difficulty s; seed := seed s; rng := rng s;
       includeAces := includeAces s; tableau := tableau s; stock := stock s;
       dealsRemaining := dealsRemaining s; foundations := foundations s;
       moves := moves s; score := score s; history := history s;
       redoStack := redoStack s; message := message s; won := true;
       foundationsCards := foundationsCards s; faces := faces s |}
  else s.

(** ** Game actions *)

(** The state of the dealing loops: tableau, stock, [faceUp] store, [dealt]. *)
Definition DealAcc : Type := list (list Card) * list Card * list bool * list Card.

(** [card = stock.shift(); if (card) { card.faceUp = true;
    tableau[c].push(card); dealt.push(card) }] *)
Definition dealOne (c : nat) (acc : DealAcc) : option DealAcc :=
  let '(t, stk, f, dealt) := acc in
  match shift stk with
  | None => Some acc
  | Some (card, stk) =>
      col ← t !! c;
      Some (<[c := col ++ [card]]> t, stk, setFaceUp card true f, dealt ++ [card])
  end.

(** [for (c = 0; c < state.stock.length; c++)]: the bound is read again
    at every iteration, while the stock shrinks. *)
Fixpoint dealFinal (fuel c : nat) (acc : DealAcc) : option DealAcc :=
  match fuel with
  | O => Some acc
  | S fuel =>
      let '(_, stk, _, _) := acc in
      if (c <? length stk)%nat
      then acc ← dealOne c acc; dealFinal fuel (S c) acc
      else Some acc
  end.

(** [for (c = 0; c < cardsToDeal; c++)] *)
Fixpoint dealLoop (n c : nat) (acc : DealAcc) : option DealAcc :=
  match n with
  | O => Some acc
  | S n => acc ← dealOne c acc; dealLoop n (S c) acc
  end.

(** [for (c = 0; c < 10; c++) completeTopRun(c, state.includeAces)] *)
Definition completeAll (s : State) : option State :=
  foldl (fun os c => s ← os; r ← completeTopRun c (includeAces s) s; Some r.2)
        (Some s) (seq 0 10).

#[global] Arguments completeAll : simpl never.

(** [for (c = 0; c < 10; c++) if (state.tableau[c].length === 0) return false] *)
Fixpoint anyEmpty (t : list (list Card)) (cs : list nat) : option bool :=
  match cs with
  | [] => Some false
  | c :: cs =>
      col ← t !! c;
      if (length col =? 0)%nat then Some true else anyEmpty t cs
  end.

(** [dealRow()] *)
Definition dealRow (s : State) : option (bool * State) :=
  if (dealsRemaining s <=? 0) && (0 <? length (stock s))%nat then Some (false, s)
  else
    empty ← anyEmpty (tableau s) (seq 0 10);
    if (empty : bool) then Some (false, s)
    else
      let cardsToDeal := Nat.min (length (stock s)) 10 in
      let isFinalDeal := (dealsRemaining s =? 1) && (0 <? length (stock s))%nat
                         && (length (stock s) <? 10)%nat in
      let acc0 : DealAcc := (tableau s, stock s, faces s, []) in
      '(t, stk, f, dealt, dr) ←
        (if isFinalDeal
         then acc ← dealFinal (length (stock s)) 0 acc0; Some (acc, 0)
         else acc ← dealLoop cardsToDeal 0 acc0;
              Some (acc, if (cardsToDeal =? 10)%nat then dealsRemaining s - 1
                         else dealsRemaining s));
      s ← completeAll
        {| difficulty := difficulty s; seed := seed s; rng := rng s;
           includeAces := includeAces s; tableau := t; stock := stk;
           dealsRemaining := dr; foundations := foundations s;
           moves := moves s + 1; score := Z.max 0 (score s - 1);
           history := history s ++ [EDeal dealt]; redoStack := [];
           message := message s; won := won s;
           foundationsCards := foundationsCards s; faces := f |};
      Some (true, s).

(** The validation loop of [doMove], for [i] down to [startIndex + 1]:
    [false] is the early [return false]. *)
Fixpoint tailOk (f : list bool) (src : list Card) (startIndex i : nat) : bool :=
  match i with
  | O => true
  | S i' =>
      if (startIndex <? i)%nat then
        match src !! i, src !! i' with
        | Some a, Some b =>
            if faceUp f a && faceUp f b && (rank a + 1 =? rank b)
               && bool_decide (suit a = suit b)
            then tailOk f src startIndex i'
            else false
        | _, _ => false
        end
      else true
  end.

(** [structuredClone(moved)]: every object gets a fresh address, an object
    that occurs twice is cloned once. *)
Fixpoint cloneCards (seen : list (nat * nat)) (cards : list Card) (f : list bool)
  : list Card * list bool :=
  match cards with
  | [] => ([], f)
  | c :: rest =>
      match list_find (fun p => p.1 = oid c) seen with
      | Some (_, (_, o)) =>
          let '(cs, f) := cloneCards seen rest f in
          (mkCard o (id c) (suit c) (rank c) :: cs, f)
      | None =>
          let o := length f in
          let '(cs, f) := cloneCards ((oid c, o) :: seen) rest (f ++ [faceUp f c]) in
          (mkCard o (id c) (suit c) (rank c) :: cs, f)
      end
  end.

Definition structuredClone (cards : list Card) (f : list bool) : list Card * list bool :=
  cloneCards [] cards f.

(** [doMove(from, startIndex, to)] *)
Definition doMove (from : nat) (startIndex : Z) (to : nat) (s : State)
  : option (bool * State) :=
  if (from =? to)%nat then Some (false, s)
  else
    src ← tableau s !! from;
    let n := length src in
    if (startIndex <? 0) || (Z.of_nat n <=? startIndex) then Some (false, s)
    else
      let start := Z.to_nat startIndex in
      if negb (tailOk (faces s) src start (n - 1)) then Some (false, s)
      else
        let moved := drop start src in
        dst ← tableau s !! to;
        head ← moved !! 0%nat;
        if negb (canDrop head (top dst)) then Some (false, s)
        else
          let src := take start src in
          let t := <[from := src]> (<[to := dst ++ moved]> (tableau s)) in
          let turned :=
            match top src with
            | Some c => if negb (faceUp (faces s) c) then Some c else None
            | None => None
            end in
          let f := match turned with
                   | Some c => setFaceUp c true (faces s)
                   | None => faces s
                   end in
          let '(clones, f) := structuredClone moved f in
          let s1 :=
            {| difficulty := difficulty s; seed := seed s; rng := rng s;
               includeAces := includeAces s; tableau := t; stock := stock s;
               dealsRemaining := dealsRemaining s; foundations := foundations s;
               moves := moves s + 1; score := Z.max 0 (score s - 1);
               history := history s ++ [EMove from to clones turned];
               redoStack := []; message := message s; won := won s;
               foundationsCards := foundationsCards s; faces := f |} in
          r ← completeTopRun to (includeAces s1) s1;
          r ← completeTopRun from (includeAces r.2) r.2;
          Some (true, checkWin r.2).

(** The [deal] branch of [undo]: [card = tableau[i].pop(); card.faceUp = false;
    stock.unshift(card)] for [i = 9] down to [0]. *)
Definition undoDealOne (i : nat) (acc : list (list Card) * list Card * list bool)
  : option (list (list Card) * list Card * list bool) :=
  let '(t, stk, f) := acc in
  col ← t !! i;
  '(card, col) ← pop col;
  Some (<[i := col]> t, card :: stk, setFaceUp card false f).

(** The [deal] branch of [redo]: [card = stock.shift(); card.faceUp = true;
    tableau[c].push(card)] for [c = 0] up to [9]. *)
Definition redoDealOne (c : nat) (acc : list (list Card) * list Card * list bool)
  : option (list (list Card) * list Card * list bool) :=
  let '(t, stk, f) := acc in
  '(card, stk) ← shift stk;
  col ← t !! c;
  Some (<[c := col ++ [card]]> t, stk, setFaceUp card true f).

Definition mfold {A B} (step : B -> A -> option A) (l : list B) (a : A) : option A :=
  foldl (fun oa b => a ← oa; step b a) (Some a) l.

(** [undo()] *)
Definition undo (s : State) : option State :=
  match pop (history s) with
  | None => Some s
  | Some (h, hist) =>
      match h with
      | EComplete c cards turned =>
          col ← tableau s !! c;
          let col := col ++ cards in
          Some {| difficulty := difficulty s; seed := seed s; rng := rng s;
                  includeAces := includeAces s;
                  tableau := <[c := col]> (tableau s); stock := stock s;
                  dealsRemaining := dealsRemaining s;
                  foundations := foundations s - 1;
                  moves := moves s + 1; score := score s - 100;
                  history := hist; redoStack := redoStack s ++ [h];
                  message := message s; won := won s;
                  foundationsCards := removeFromFoundations cards (foundationsCards s);
                  faces := setTurned turned col false (faces s) |}
      | EMove from to moved turned =>
          _ ← tableau s !! from;
          colTo ← tableau s !! to;
          let k := Z.of_nat (length moved) in
          let t := <[to := (splice colTo (Z.of_nat (length colTo) - k) k).2]> (tableau s) in
          colFrom ← t !! from;
          let colFrom := colFrom ++ moved in
          Some {| difficulty := difficulty s; seed := seed s; rng := rng s;
                  includeAces := includeAces s;
                  tableau := <[from := colFrom]> t; stock := stock s;
                  dealsRemaining := dealsRemaining s; foundations := foundations s;
                  moves := moves s + 1; score := score s;
                  history := hist; redoStack := redoStack s ++ [h];
                  message := message s; won := won s;
                  foundationsCards := foundationsCards s;
                  faces := setTurned turned colFrom false (faces s) |}
      | EDeal dealt =>
          '(t, stk, f) ← mfold undoDealOne (rev (seq 0 10)) (tableau s, stock s, faces s);
          Some {| difficulty := difficulty s; seed := seed s; rng := rng s;
                  includeAces := includeAces s; tableau := t; stock := stk;
                  dealsRemaining := dealsRemaining s + 1;
                  foundations := foundations s;
                  moves := moves s + 1; score := score s;
                  history := hist; redoStack := redoStack s ++ [h];
                  message := message s; won := won s;
                  foundationsCards := foundationsCards s; faces := f |}
      end
  end.

(** [redo()] *)
Definition redo (s : State) : option State :=
  match pop (redoStack s) with
  | None => Some s
  | Some (h, rest) =>
      match h with
      | EComplete c cards turned =>
          col ← tableau s !! c;
          let col := (splice col (Z.of_nat (length col) - 13) 13).2 in
          Some {| difficulty := difficulty s; seed := seed s; rng := rng s;
                  includeAces := includeAces s;
                  tableau := <[c := col]> (tableau s); stock := stock s;
                  dealsRemaining := dealsRemaining s;
                  foundations := foundations s + 1;
                  moves := moves s + 1; score := score s + 100;
                  history := history s ++ [h]; redoStack := rest;
                  message := message s; won := won s;
                  foundationsCards := foundationsCards s ++ cards;
                  faces := setTurned turned col true (faces s) |}
      | EMove from to moved turned =>
          colFrom ← tableau s !! from;
          _ ← tableau s !! to;
          let k := Z.of_nat (length moved) in
          let colFrom := (splice colFrom (Z.of_nat (length colFrom) - k) k).2 in
          let t := <[from := colFrom]> (tableau s) in
          colTo ← t !! to;
          let t := <[to := colTo ++ moved]> t in
          colFrom ← t !! from;
          Some {| difficulty := difficulty s; seed := seed s; rng := rng s;
                  includeAces := includeAces s;
                  tableau := t; stock := stock s;
                  dealsRemaining := dealsRemaining s; foundations := foundations s;
                  moves := moves s + 1; score := score s;
                  history := history s ++ [h]; redoStack := rest;
                  message := message s; won := won s;
                  foundationsCards := foundationsCards s;
                  faces := setTurned turned colFrom true (faces s) |}
      | EDeal dealt =>
          '(t, stk, f) ← mfold redoDealOne (seq 0 10) (tableau s, stock s, faces s);
          Some {| difficulty := difficulty s; seed := seed s; rng := rng s;
                  includeAces := includeAces s; tableau := t; stock := stk;
                  dealsRemaining := dealsRemaining s - 1;
                  foundations := foundations s;
                  moves := moves s + 1; score := score s;
                  history := history s ++ [h]; redoStack := rest;
                  message := message s; won := won s;
                  foundationsCards := foundationsCards s; faces := f |}
      end
  end.

(** ** Verification *)

Record Counts := mkCounts { total : nat; inTableau : nat; inStock : nat; inFoundations : nat }.

#[global] Instance Counts_eq_dec : EqDecision Counts.
Proof. solve_decision. Defined.

(** The cards in the order in which both verifiers visit them, each with
    the number of tableau, stock and foundations cards. *)
Definition allCards (s : State) : list Card :=
  concat (tableau s) ++ stock s ++ foundationsCards s.

Definition countCards (s : State) : Counts :=
  {| total := length (allCards s);
     inTableau := length (concat (tableau s));
     inStock := length (stock s);
     inFoundations := length (foundationsCards s) |}.

(** The inventory check exported by [logic.js]. *)
Module Logic.

(** A slot of the array [loc]: [null], a hole ([undefined]) or a mark. *)
Inductive Cell := CNull | CHole | CAt.

#[global] Instance Cell_eq_dec : EqDecision Cell.
Proof. solve_decision. Defined.

(** [loc[i]] and [loc[i] = where]; writing past the end extends the array. *)
Definition readLoc (loc : list Cell) (i : nat) : Cell := default CHole (loc !! i).
Definition writeLoc (loc : list Cell) (i : nat) : list Cell :=
  if (i <? length loc)%nat then <[i := CAt]> loc
  else loc ++ replicate (i - length loc) CHole ++ [CAt].

(** [place(card, where)], as far as [loc] and [duplicates] go. *)
Definition place (acc : list Cell * list nat) (card : Card) : list Cell * list nat :=
  let '(loc, duplicates) := acc in
  (writeLoc loc (id card),
   if bool_decide (readLoc loc (id card) = CNull) then duplicates
   else duplicates ++ [id card]).

Record Report := mkReport {
  ok : bool; duplicates : list nat; missing : list nat;
  counts : Counts; expectedTotal : nat }.

Definition verifyInventory (s : State) : Report :=
  let '(loc, dups) := foldl place (replicate 104 CNull, []) (allCards s) in
  let miss := filter (fun i => readLoc loc i = CNull) (seq 0 (length loc)) in
  let cnt := countCards s in
  let expected := if includeAces s then 104%nat else 96%nat in
  {| ok := (length dups =? 0)%nat && (length miss =? 0)%nat
           && (total cnt =? expected)%nat
           && (inTableau cnt + inStock cnt + inFoundations cnt =? expected)%nat;
     duplicates := dups; missing := miss; counts := cnt;
     expectedTotal := expected |}.

End Logic.

(** The inventory check of [validation.js], the one the UI calls. *)
Module Validation.

Inductive Issue :=
| TotalCount (found expected : nat)
| DuplicateIds (ids : list nat)
| SuitKinds (expected found : nat)
| SuitCounts (expected : nat)
| RankCount (r : Z) (found : nat)
| AceCount (found : nat)
| DealsRemaining (found expected : Z)
| FoundationCards (found : nat) (expected : Z)
| TopFaceDown (column : nat).

#[global] Instance Issue_eq_dec : EqDecision Issue.
Proof. solve_decision. Defined.

(** [seen] and [duplicates] after the calls of [place]. *)
Definition place (acc : list nat * list nat) (card : Card) : list nat * list nat :=
  let '(seen, duplicates) := acc in
  if bool_decide (id card ∈ seen) then (seen, duplicates ++ [id card])
  else (seen ++ [id card], duplicates).

(** [Object.keys(suitCounts)]: the suits in the order of first occurrence. *)
Definition suitKeys (cards : list Card) : list Suit :=
  foldl (fun keys c => if bool_decide (suit c ∈ keys) then keys else keys ++ [suit c])
        [] cards.

Definition suitCount (cards : list Card) (st : Suit) : nat :=
  length (filter (fun c => suit c = st) cards).

Definition rankCount (cards : list Card) (r : Z) : nat :=
  length (filter (fun c => rank c = r) cards).

Definition normDiff (d : string) : string :=
  if String.eqb d "1" then "1-suit" else if String.eqb d "2" then "2-suit" else d.

Definition suitIssues (diff : string) (aces : bool) (cards : list Card) : list Issue :=
  let keys := suitKeys cards in
  let check (kinds perSuit : nat) :=
    if negb (length keys =? kinds)%nat then [SuitKinds kinds (length keys)]
    else if negb (forallb (fun k => (suitCount cards k =? perSuit)%nat) keys)
         then [SuitCounts perSuit] else [] in
  if String.eqb diff "1-suit" then check 1%nat (if aces then 8 * 13 else 8 * 12)%nat
  else if String.eqb diff "2-suit" then check 2%nat (if aces then 4 * 13 else 4 * 12)%nat
  else check 4%nat (if aces then 2 * 13 else 2 * 12)%nat.

Definition rankIssues (aces : bool) (cards : list Card) : list Issue :=
  flat_map (fun r => if (rankCount cards r =? 8)%nat then []
                     else [RankCount r (rankCount cards r)])
           (fmap Z.of_nat (seq 2 12))
  ++ (let n := rankCount cards 1 in
      if (if aces then negb (n =? 8)%nat else negb (n =? 0)%nat)
      then [AceCount n] else []).

Definition topIssues (f : list bool) (t : list (list Card)) : list Issue :=
  flat_map (fun '(i, col) =>
              match top col with
              | Some c => if faceUp f c then [] else [TopFaceDown (i + 1)]
              | None => []
              end)
           (imap (fun i col => (i, col)) t).

Record Report := mkReport {
  ok : bool; duplicates : list nat; missing : list nat;
  counts : Counts; expectedTotal : nat; issues : list Issue }.

Definition verifyInventory (s : State) : Report :=
  let cards := allCards s in
  let cnt := countCards s in
  let dups := (foldl place ([], []) cards).2 in
  let aces := includeAces s in
  let expected := if aces then 104%nat else 96%nat in
  let runLen := if aces then 13 else 12 in
  let diff := normDiff (difficulty s) in
  let expectedDeals := (Z.of_nat (inStock cnt) + 9) / 10 in
  let iss :=
    (if (total cnt =? expected)%nat then [] else [TotalCount (total cnt) expected])
    ++ (if (0 <? length dups)%nat then [DuplicateIds dups] else [])
    ++ suitIssues diff aces cards
    ++ rankIssues aces cards
    ++ (if dealsRemaining s =? expectedDeals then []
        else [DealsRemaining (dealsRemaining s) expectedDeals])
    ++ (if Z.of_nat (inFoundations cnt) =? foundations s * runLen then []
        else [FoundationCards (inFoundations cnt) (foundations s * runLen)])
    ++ topIssues (faces s) (tableau s) in
  {| ok := (length iss =? 0)%nat; duplicates := dups; missing := [];
     counts := cnt; expectedTotal := expected; issues := iss |}.

End Validation.

(** ** Snapshots and scripted play *)

(** [serializeGameState()]-style view of a pile: the values of its cards. *)
Definition viewCol (f : list bool) (col : list Card) : list (nat * Suit * Z * bool) :=
  fmap (cardView f) col.

(** What the player can do; a completion is never called directly, it
    happens inside [doMove] and [dealRow]. *)
Inductive Op :=
| OpDeal
| OpMove (from : nat) (startIndex : Z) (to : nat)
| OpUndo
| OpRedo.

Definition step (op : Op) (s : State) : option State :=
  match op with
  | OpDeal => r ← dealRow s; Some r.2
  | OpMove from startIndex to => r ← doMove from startIndex to s; Some r.2
  | OpUndo => undo s
  | OpRedo => redo s
  end.

Definition play (ops : list Op) (s : State) : option State := mfold step ops s.

(** The states of a game started from the freshly loaded page. *)
Definition reachable (s : State) : Prop :=
  exists d sd aces ops, play ops (newGame d sd aces state0) = Some s.

(** The card layout of a state: every pile as values, in order. *)
Definition layout (s : State)
  : list (list (nat * Suit * Z * bool)) * list (nat * Suit * Z * bool)
    * list (nat * Suit * Z * bool) :=
  (fmap (viewCol (faces s)) (tableau s), viewCol (faces s) (stock s),
   viewCol (faces s) (foundationsCards s)).

Definition deckSize (s : State) : nat := if includeAces s then 104%nat else 96%nat.

(** Card conservation: the piles hold as many cards as the deck, and no
    id occurs twice anywhere. *)
Definition conserved (s : State) : Prop :=
  length (allCards s) = deckSize s /\ NoDup (fmap id (allCards s)).

#[global] Instance conserved_dec s : Decision (conserved s).
Proof. unfold conserved. apply _. Defined.

(** The game of the end-to-end scenario: 1-suit, seed [test1], everything
    else as the page loads it. *)
Definition test1 : State := newGame (Some "1-suit"%string) (codes "test1") None state0.

(** ** Rejected operations *)

Section Rejected.

Local Ltac split_guards :=
  repeat match goal with
         | H : context [if ?b then _ else _] |- _ => destruct b eqn:?
         | H : context [match ?x with _ => _ end] |- _ => destruct x eqn:?
         | H : mbind _ _ = Some _ |- _ =>
             apply bind_Some in H as (? & ? & H)
         | H : Some _ = Some _ |- _ => injection H as H
         | H : (_, _) = (_, _) |- _ => injection H as ? ?
         end; simplify_eq/=; try discriminate.

Lemma doMove_false from startIndex to s s' :
  doMove from startIndex to s = Some (false, s') -> s' = s.
Proof. unfold doMove. intros H. split_guards; done. Qed.

Lemma dealRow_false s s' : dealRow s = Some (false, s') -> s' = s.
Proof. unfold dealRow. intros H. split_guards; done. Qed.

End Rejected.

(** C7. Whenever [doMove] or [dealRow] returns [false], the state it
    leaves is the state it was called on: tableau, stock, dealsRemaining,
    foundations, score, move counter, history and redo stack are all
    untouched (and so is every [faceUp] flag). *)
Theorem rejected_is_noop (s s' : State) :
  dealRow s = Some (false, s')
  \/ (exists from startIndex to, doMove from startIndex to s = Some (false, s')) ->
  s' = s.
Proof.
  intros [H | (from & startIndex & to & H)].
  - by apply dealRow_false in H.
  - by apply doMove_false in H.
Qed.

(** ** What the completion pass after a move or a deal can change *)

Definition isComplete (h : Entry) : Prop :=
  match h with EComplete _ _ _ => True | _ => False end.

(** [s'] differs from [s] by a number of completed runs only. *)
Record completionsOnly (s s' : State) (cs : list Entry) : Prop := {
  co_history : history s' = history s ++ cs;
  co_entries : Forall isComplete cs;
  co_score : score s' = score s + 100 * Z.of_nat (length cs);
  co_foundations : foundations s' = foundations s + Z.of_nat (length cs);
  co_moves : moves s' = moves s;
  co_stock : stock s' = stock s;
  co_redo : redoStack s' = redoStack s;
  co_deals : dealsRemaining s' = dealsRemaining s;
  co_aces : includeAces s' = includeAces s;
  co_columns : length (tableau s') = length (tableau s);
  co_none : cs = [] -> s' = s
}.

Lemma completionsOnly_refl s : completionsOnly s s [].
Proof. split; rewrite ?app_nil_r; simpl; auto; lia. Qed.

Lemma completionsOnly_trans s1 s2 s3 cs cs' :
  completionsOnly s1 s2 cs -> completionsOnly s2 s3 cs' ->
  completionsOnly s1 s3 (cs ++ cs').
Proof.
  intros [Hh He Hsc Hf Hm Hst Hr Hd Ha Hc Hn] [Hh' He' Hsc' Hf' Hm' Hst' Hr' Hd' Ha' Hc' Hn'].
  split; try congruence.
  - rewrite app_assoc. congruence.
  - by apply Forall_app.
  - rewrite length_app. lia.
  - rewrite length_app. lia.
  - intros [-> ->]%app_eq_nil. rewrite Hn'; auto.
Qed.

Lemma completeTopRun_total c aces s :
  (c < length (tableau s))%nat -> is_Some (completeTopRun c aces s).
Proof.
  intros [col Hcol]%lookup_lt_is_Some. unfold completeTopRun. rewrite Hcol. simpl.
  destruct (tryComplete col aces (faces s)) as [[rem col']|]; eauto.
Qed.

Lemma completeTopRun_only c aces s r :
  completeTopRun c aces s = Some r ->
  exists cs, completionsOnly s r.2 cs /\ (length cs <= 1)%nat.
Proof.
  unfold completeTopRun. intros H.
  apply bind_Some in H as (col & Hcol & H).
  destruct (tryComplete col aces (faces s)) as [[rem col']|]; simplify_eq/=.
  - eexists [_]. split; [|simpl; lia].
    split; simpl; auto; try lia.
    + repeat constructor.
    + by rewrite length_insert.
    + discriminate.
  - exists []. split; [apply completionsOnly_refl | simpl; lia].
Qed.

Lemma completeAll_only_from cols s :
  (forall c, c ∈ cols -> (c < length (tableau s))%nat) ->
  exists s' cs,
    foldl (fun os c => s ← os; r ← completeTopRun c (includeAces s) s; Some r.2)
          (Some s) cols = Some s'
    /\ completionsOnly s s' cs.
Proof.
  revert s. induction cols as [|c cols IH]; intros s Hin; simpl.
  - exists s, []. split; [done | apply completionsOnly_refl].
  - destruct (completeTopRun_total c (includeAces s) s) as [r Hr].
    { apply Hin. by left. }
    rewrite Hr. simpl.
    destruct (completeTopRun_only _ _ _ _ Hr) as (cs & Hcs & _).
    destruct (IH r.2) as (s' & cs' & Hfold & Hcs').
    { intros c' Hc'. rewrite (co_columns _ _ _ Hcs). apply Hin. by right. }
    exists s', (cs ++ cs'). split; [done|].
    by eapply completionsOnly_trans.
Qed.

Lemma completeAll_only s :
  (10 <= length (tableau s))%nat ->
  exists s' cs, completeAll s = Some s' /\ completionsOnly s s' cs.
Proof.
  intros Hlen. apply completeAll_only_from.
  intros c [_ Hc]%elem_of_seq. lia.
Qed.

(** ** Dealing from an empty stock *)

Lemma anyEmpty_false t cs :
  (forall c, c ∈ cs -> exists col, t !! c = Some col /\ col <> []) ->
  anyEmpty t cs = Some false.
Proof.
  induction cs as [|c cs IH]; intros H; simpl; [done|].
  destruct (H c) as (col & -> & Hne); [by left|]. simpl.
  destruct col; [done|]. simpl. apply IH. intros c' Hc'. apply H. by right.
Qed.

(** C10. With an empty stock and ten non-empty columns [dealRow] is not
    rejected: it returns [true], deals no card (stock, dealsRemaining and,
    unless the completion pass finds a run, the whole tableau stay as they
    were), pushes a [deal] entry with an empty [dealt] list (followed only
    by the [complete] entries of the completion pass, each worth +100),
    clears the redo stack, increments the move counter and applies the
    per-move penalty [max(0, score-1)]. *)
Theorem dealRow_empty_stock (s : State) :
  stock s = [] ->
  length (tableau s) = 10%nat ->
  Forall (fun col => col <> []) (tableau s) ->
  exists s' cs,
    dealRow s = Some (true, s')
    /\ stock s' = [] /\ dealsRemaining s' = dealsRemaining s
    /\ history s' = history s ++ [EDeal []] ++ cs /\ Forall isComplete cs
    /\ redoStack s' = []
    /\ moves s' = moves s + 1
    /\ score s' = Z.max 0 (score s - 1) + 100 * Z.of_nat (length cs)
    /\ (cs = [] -> tableau s' = tableau s /\ faces s' = faces s
                   /\ foundationsCards s' = foundationsCards s).
Proof.
  intros Hstock Hlen Hne.
  assert (anyEmpty (tableau s) (seq 0 10) = Some false) as Hempty.
  { apply anyEmpty_false. intros c [_ Hc]%elem_of_seq.
    destruct (lookup_lt_is_Some_2 (tableau s) c) as [col Hcol]; [lia|].
    exists col. split; [done|]. by eapply (Forall_lookup_1 _ _ _ _ Hne). }
  unfold dealRow. rewrite Hempty, Hstock. cbn [length mbind option_bind].
  rewrite !andb_false_r. cbn.
  match goal with |- context [completeAll ?s1] =>
    destruct (completeAll_only s1) as (s' & cs & Hall & Hcs) end.
  { simpl. lia. }
  rewrite Hall. simpl. exists s', cs. clear Hempty.
  destruct Hcs as [Hh He Hsc Hf Hm Hst Hr Hd Ha Hc Hn]. simpl in *.
  split_and!; try done.
  - by rewrite Hh, <- app_assoc.
  - intros ->. by rewrite Hn.
Qed.

(** ** Legality of a move *)

(** Card [a] lies directly on card [b] and continues its run. *)
Definition chained (f : list bool) (a b : Card) : Prop :=
  faceUp f a = true /\ faceUp f b = true /\ rank a + 1 = rank b /\ suit a = suit b.

(** Every adjacent pair of [src] from index [start] upwards is chained. *)
Definition validTail (f : list bool) (src : list Card) (start : nat) : Prop :=
  forall k a b, (start <= k)%nat ->
    src !! k = Some b -> src !! S k = Some a -> chained f a b.

(** The destination accepts [head]: it is empty, or its top card is one
    rank above [head], whatever the suits. *)
Definition accepts (dst : list Card) (head : Card) : Prop :=
  dst = [] \/ exists d, top dst = Some d /\ rank head + 1 = rank d.

Lemma chained_dec f a b :
  faceUp f a && faceUp f b && (rank a + 1 =? rank b) && bool_decide (suit a = suit b) = true
  <-> chained f a b.
Proof.
  unfold chained. rewrite !andb_true_iff, Z.eqb_eq, bool_decide_eq_true. tauto.
Qed.

Lemma tailOk_iff f src start i :
  (i < length src)%nat ->
  tailOk f src start i = true <->
  (forall k a b, (start <= k < i)%nat ->
     src !! k = Some b -> src !! S k = Some a -> chained f a b).
Proof.
  induction i as [|i IH]; intros Hi; simpl.
  - split; [intros _ k a b ?; lia | done].
  - destruct (Nat.ltb_spec start (S i)) as [Hlt|Hge].
    + destruct (lookup_lt_is_Some_2 src (S i)) as [a Ha]; [lia|].
      destruct (lookup_lt_is_Some_2 src i) as [b Hb]; [lia|].
      rewrite Ha, Hb.
      destruct (faceUp f a && faceUp f b && (rank a + 1 =? rank b)
                && bool_decide (suit a = suit b)) eqn:Hc.
      * apply chained_dec in Hc. rewrite IH by lia. split.
        -- intros Hall k a' b' Hk Hb' Ha'.
           destruct (decide (k = i)) as [->|]; [by simplify_eq|].
           apply (Hall k); auto with lia.
        -- intros Hall k a' b' Hk. apply Hall. lia.
      * split; [done|]. intros Hall.
        assert (chained f a b) as Hab by (apply (Hall i); auto with lia).
        apply chained_dec in Hab. congruence.
    + split; [|done]. intros _ k a b ?. lia.
Qed.

Lemma tailOk_validTail f src start :
  (start < length src)%nat ->
  tailOk f src start (length src - 1) = true <-> validTail f src start.
Proof.
  intros Hs. rewrite tailOk_iff by lia. unfold validTail. split.
  - intros H k a b Hk Hb Ha. apply (H k); auto.
    apply lookup_lt_Some in Ha. lia.
  - intros H k a b Hk. apply H. lia.
Qed.

Lemma canDrop_accepts head dst : canDrop head (top dst) = true <-> accepts dst head.
Proof.
  unfold canDrop, accepts, top. destruct (last dst) as [d|] eqn:Hd.
  - rewrite Z.eqb_eq. split.
    + intros ?. right. eauto.
    + intros [-> | (d' & ? & ?)]; [done | by simplify_eq].
  - apply last_None in Hd. split; [by left | done].
Qed.

(** C5. [doMove(from, startIndex, to)] returns [true] exactly when
    [from != to], [startIndex] is an index of the source column, every
    adjacent pair of cards of the source column from [startIndex] to the top
    is face-up, of one suit and descending by exactly one towards the top,
    and the destination column is empty or its top card is exactly one rank
    above the card at [startIndex] (suits are not compared). *)
Theorem doMove_legal (s : State) (from : nat) (startIndex : Z) (to : nat) :
  (exists s', doMove from startIndex to s = Some (true, s'))
  <->
  from <> to /\
  exists src dst head,
    tableau s !! from = Some src /\ tableau s !! to = Some dst
    /\ 0 <= startIndex < Z.of_nat (length src)
    /\ src !! Z.to_nat startIndex = Some head
    /\ validTail (faces s) src (Z.to_nat startIndex)
    /\ accepts dst head.
Proof.
  unfold doMove. split.
  - intros [s' H].
    destruct (Nat.eqb_spec from to) as [|Hne]; [done|]. split; [done|].
    apply bind_Some in H as (src & Hsrc & H).
    destruct (Z.ltb_spec startIndex 0); [done|].
    destruct (Z.leb_spec (Z.of_nat (length src)) startIndex); [done|].
    simpl in H.
    destruct (tailOk _ _ _ _) eqn:Htail; [|done]. simpl in H.
    apply bind_Some in H as (dst & Hdst & H).
    apply bind_Some in H as (head & Hhead & H).
    destruct (canDrop head (top dst)) eqn:Hdrop; [|done].
    exists src, dst, head. rewrite lookup_drop, Nat.add_0_r in Hhead.
    split_and!; try done; try lia.
    + apply tailOk_validTail; [lia | done].
    + by apply canDrop_accepts.
  - intros (Hne & src & dst & head & Hsrc & Hdst & Hidx & Hhead & Htail & Hacc).
    destruct (Nat.eqb_spec from to) as [|_]; [done|].
    rewrite Hsrc. simpl.
    destruct (Z.ltb_spec startIndex 0); [lia|].
    destruct (Z.leb_spec (Z.of_nat (length src)) startIndex); [lia|].
    simpl.
    apply tailOk_validTail in Htail; [|lia]. rewrite Htail. simpl.
    rewrite Hdst. simpl. rewrite lookup_drop, Nat.add_0_r, Hhead. simpl.
    apply canDrop_accepts in Hacc. rewrite Hacc. simpl.
    destruct (structuredClone _ _) as [clones f'].
    match goal with |- context [completeTopRun to ?a ?s1] =>
      destruct (completeTopRun_total to a s1) as [r1 Hr1];
      [|rewrite Hr1] end.
    { simpl. rewrite !length_insert. by eapply lookup_lt_Some. }
    simpl.
    destruct (completeTopRun_total from (includeAces r1.2) r1.2) as [r2 Hr2].
    { destruct (completeTopRun_only _ _ _ _ Hr1) as (cs & Hcs & _).
      rewrite (co_columns _ _ _ Hcs). simpl. rewrite !length_insert.
      by eapply lookup_lt_Some. }
    rewrite Hr2. simpl. eauto.
Qed.

(** ** The shuffle and the dealing loops move cards, whatever they are *)

Section Naturality.
Context {A B : Type} (g : A -> B).

Local Abbreviation gs := (fmap (M:=list) g).

Lemma swap_fmap (l : list A) i j :
  Prng.swap (g <$> l) i j = g <$> Prng.swap l i j.
Proof.
  unfold Prng.swap. rewrite !list_lookup_fmap.
  destruct (l !! i), (l !! j); simpl; try done.
  by rewrite !list_fmap_insert.
Qed.

Lemma shuffle_loop_fmap i (l : list A) a :
  Prng.shuffle_loop i (g <$> l) a
  = ((g <$> (Prng.shuffle_loop i l a).1), (Prng.shuffle_loop i l a).2).
Proof.
  revert l a. induction i as [|i IH]; intros l a; simpl; [done|].
  destruct (Prng.mulberry32 a) as [a' n]. rewrite swap_fmap. apply IH.
Qed.

Lemma shuffle_fmap (l : list A) a :
  Prng.shuffle (g <$> l) a = ((g <$> (Prng.shuffle l a).1), (Prng.shuffle l a).2).
Proof. unfold Prng.shuffle. rewrite length_fmap. apply shuffle_loop_fmap. Qed.

Lemma pushCol_fmap (cols : list (list A)) c (xs : list A) :
  pushCol (A:=B) (gs <$> cols) c (g <$> xs) = gs <$> pushCol cols c xs.
Proof.
  unfold pushCol. rewrite list_lookup_fmap. destruct (cols !! c); simpl; [|done].
  by rewrite list_fmap_insert, fmap_app.
Qed.

Lemma dealSlot_fmap (rem : list A) pass c idx (cols : list (list A)) :
  dealSlot (A:=B) (g <$> rem) pass c (idx, gs <$> cols)
  = ((dealSlot rem pass c (idx, cols)).1,
     gs <$> (dealSlot rem pass c (idx, cols)).2).
Proof.
  unfold dealSlot. rewrite list_lookup_fmap.
  destruct (rem !! idx) as [x|]; [|done].
  change (g <$> Some x) with (Some (g x)). cbv beta iota.
  destruct ((pass =? 5)%nat && (4 <=? c)%nat); [done|].
  cbn [fst snd]. by rewrite <- pushCol_fmap.
Qed.

Lemma dealPass_fmap (rem : list A) pass cs (st : nat * list (list A)) :
  foldl (fun st c => dealSlot (A:=B) (g <$> rem) pass c st) (st.1, gs <$> st.2) cs
  = ((foldl (fun st c => dealSlot rem pass c st) st cs).1,
     gs <$> (foldl (fun st c => dealSlot rem pass c st) st cs).2).
Proof.
  revert st. induction cs as [|c cs IH]; intros [idx cols]; [done|].
  cbn [foldl fst snd]. rewrite dealSlot_fmap. apply IH.
Qed.

Lemma dealPasses_fmap (rem : list A) passes cs (st : nat * list (list A)) :
  foldl (fun st pass => foldl (fun st c => dealSlot (A:=B) (g <$> rem) pass c st) st cs)
        (st.1, gs <$> st.2) passes
  = ((foldl (fun st pass => foldl (fun st c => dealSlot rem pass c st) st cs)
            st passes).1,
     gs <$> (foldl (fun st pass => foldl (fun st c => dealSlot rem pass c st) st cs)
            st passes).2).
Proof.
  revert st. induction passes as [|pass passes IH]; intros st; [done|].
  cbn [foldl]. rewrite dealPass_fmap. apply IH.
Qed.

Lemma dealCols_fmap (rem : list A) :
  dealCols (A:=B) (g <$> rem) = gs <$> dealCols rem.
Proof.
  unfold dealCols.
  pose proof (dealPasses_fmap rem (seq 0 6) (seq 0 10) (O, replicate 10 [])) as H.
  change (gs <$> (O, replicate 10 (@nil A)).2) with (replicate 10 (@nil B)) in H.
  cbn [fst] in H. by rewrite H.
Qed.

End Naturality.

Section Permuting.
Context {A : Type}.

Lemma insert_delete_Permutation (l : list A) i x :
  (i < length l)%nat -> <[i := x]> l ≡ₚ x :: delete i l.
Proof.
  revert i. induction l as [|y l IH]; intros [|i] Hi; simpl in *; try lia; [done|].
  rewrite IH by lia. apply Permutation_swap.
Qed.

Lemma swap_Permutation (l : list A) i j : Prng.swap l i j ≡ₚ l.
Proof.
  unfold Prng.swap.
  destruct (l !! i) as [x|] eqn:Hi; [|done].
  destruct (l !! j) as [y|] eqn:Hj; [|done].
  destruct (decide (i = j)) as [->|Hne].
  - simplify_eq. by rewrite list_insert_insert_eq, list_insert_id.
  - assert (<[i := y]> l !! j = Some y) as Hj'
      by (by rewrite list_lookup_insert_ne).
    etrans; [apply insert_delete_Permutation;
             rewrite length_insert; by eapply lookup_lt_Some|].
    etrans; [|symmetry; apply (delete_Permutation l i x Hi)].
    apply Permutation_skip, (Permutation_cons_inv (a:=y)).
    etrans; [symmetry; apply (delete_Permutation _ j y Hj')|].
    apply insert_delete_Permutation. by eapply lookup_lt_Some.
Qed.

Lemma shuffle_Permutation (l : list A) a : (Prng.shuffle l a).1 ≡ₚ l.
Proof.
  unfold Prng.shuffle. generalize (length l - 1)%nat. intros i. revert l a.
  induction i as [|i IH]; intros l a; simpl; [done|].
  destruct (Prng.mulberry32 a) as [a' n]. rewrite IH. apply swap_Permutation.
Qed.

Lemma list_as_fmap_seq (l : list A) (d : A) :
  l = (fun k => nth k l d) <$> seq 0 (length l).
Proof.
  apply list_eq. intros i. rewrite list_lookup_fmap.
  destruct (decide (i < length l)%nat) as [Hi|Hi].
  - rewrite (proj2 (lookup_seq 0 (length l) i i)) by auto. simpl.
    rewrite nth_lookup. by destruct (lookup_lt_is_Some_2 l i Hi) as [x ->].
  - rewrite lookup_ge_None_2 by lia.
    destruct (seq 0 (length l) !! i) as [k|] eqn:Hk; [|done].
    apply lookup_seq in Hk. lia.
Qed.

End Permuting.

(** ** The layout of a new game *)

(** The same card, allocated [base] addresses further on. *)
Definition rebase (base : nat) (c : Card) : Card :=
  mkCard (base + oid c) (id c) (suit c) (rank c).

Definition rebaseAll (base : nat) : list Card -> list Card := fmap (rebase base).

(** The deck of a game after the two shuffles of [newGame] and
    [initialDeal], allocated at address 0. *)
Definition shuffledDeck (diff : string) (sd : list Z) (aces : bool) : list Card :=
  let a := Prng.hashSeed (codes diff ++ [58] ++ sd) in
  (Prng.shuffle (Prng.shuffle (createDeck 0 diff aces) a).1
                (Prng.shuffle (createDeck 0 diff aces) a).2).1.

Lemma fullDeck_rebase base i suits :
  fullDeck base i suits = rebase base <$> fullDeck 0 i suits.
Proof.
  revert i. induction suits as [|st suits IH]; intros i; [done|].
  cbn [fullDeck]. rewrite fmap_app, <- IH. f_equal.
  rewrite <- list_fmap_compose. apply list_fmap_ext. intros k r _.
  unfold rebase. simpl. f_equal. lia.
Qed.

Lemma filter_rank_rebase base (l : list Card) :
  filter (fun c => rank c <> 1) (rebase base <$> l)
  = rebase base <$> filter (fun c => rank c <> 1) l.
Proof.
  induction l as [|c l IH]; [done|]. rewrite fmap_cons, !filter_cons. simpl.
  destruct (decide (rank c <> 1)); by rewrite IH.
Qed.

Lemma createDeck_rebase base diff aces :
  createDeck base diff aces = rebase base <$> createDeck 0 diff aces.
Proof.
  unfold createDeck. rewrite fullDeck_rebase.
  destruct aces; [done | apply filter_rank_rebase].
Qed.

Lemma newGame_layout d sd aces s :
  let diff := canonDiff (default (difficulty s) d) in
  let ia := default (includeAces s) aces in
  let g := newGame d sd aces s in
  difficulty g = diff /\ includeAces g = ia
  /\ tableau g = rebaseAll (length (faces s))
                   <$> dealCols (drop 50 (shuffledDeck diff sd ia))
  /\ stock g = rebaseAll (length (faces s)) (take 50 (shuffledDeck diff sd ia))
  /\ faces g = foldl (fun f col => flipTop col f)
                 (faces s ++ replicate 104 false) (tableau g)
  /\ dealsRemaining g = 5
  /\ seed g = sd
  /\ rng g = Some (let a := Prng.hashSeed (codes diff ++ [58] ++ sd) in
                   (Prng.shuffle (Prng.shuffle (createDeck 0 diff ia) a).1
                                 (Prng.shuffle (createDeck 0 diff ia) a).2).2).
Proof.
  unfold newGame, initialDeal, shuffledDeck, rebaseAll. cbv zeta.
  rewrite createDeck_rebase, shuffle_fmap.
  destruct (Prng.shuffle (createDeck 0 _ _) _) as [d1 a1]. cbn [fst snd].
  rewrite shuffle_fmap. destruct (Prng.shuffle d1 a1) as [d2 a2]. cbn [fst snd].
  rewrite <- fmap_drop, dealCols_fmap, <- fmap_take.
  cbn [difficulty includeAces tableau stock faces dealsRemaining seed rng].
  split_and!; reflexivity.
Qed.

Lemma canonDiff_cases d :
  canonDiff d = "1-suit"%string \/ canonDiff d = "2-suit"%string
  \/ canonDiff d = "4-suit"%string.
Proof. unfold canonDiff. repeat case_match; auto. Qed.

Lemma createDeck_facts diff aces :
  diff = "1-suit"%string \/ diff = "2-suit"%string \/ diff = "4-suit"%string ->
  length (createDeck 0 diff aces) = (if aces then 104 else 96)%nat
  /\ NoDup (oid <$> createDeck 0 diff aces)
  /\ Forall (fun c => (oid c < 104)%nat) (createDeck 0 diff aces).
Proof.
  intros [-> | [-> | ->]]; destruct aces;
    (split; [reflexivity|]; split;
     [apply (bool_decide_unpack _); vm_compute; exact I
     |apply (bool_decide_unpack _); vm_compute; exact I]).
Qed.

Lemma shuffledDeck_Permutation diff sd aces :
  shuffledDeck diff sd aces ≡ₚ createDeck 0 diff aces.
Proof. unfold shuffledDeck. by rewrite !shuffle_Permutation. Qed.

Lemma faceUp_setFaceUp t b f c :
  faceUp (setFaceUp t b f) c
  = if decide (oid c = oid t) then (if bool_decide (oid t < length f)%nat then b else false)
    else faceUp f c.
Proof.
  unfold faceUp, setFaceUp. destruct (decide (oid c = oid t)) as [->|Hne].
  - case_bool_decide.
    + by rewrite list_lookup_insert_eq.
    + rewrite list_insert_ge by lia. by rewrite lookup_ge_None_2 by lia.
  - by rewrite list_lookup_insert_ne.
Qed.

Lemma length_flipTop col f : length (flipTop col f) = length f.
Proof. unfold flipTop, setFaceUp. destruct (top col); [apply length_insert | done]. Qed.

Lemma faceUp_flipTops cols f c :
  faceUp (foldl (fun f col => flipTop col f) f cols) c
  = if bool_decide (oid c ∈ oid <$> omap top cols)
    then bool_decide (oid c < length f)%nat
    else faceUp f c.
Proof.
  revert f. induction cols as [|col cols IH]; intros f; simpl; [done|].
  rewrite IH, length_flipTop. unfold flipTop.
  destruct (top col) as [t|]; simpl; [|done].
  rewrite faceUp_setFaceUp.
  destruct (decide (oid c = oid t)) as [Heq|Hne].
  - rewrite <- Heq. rewrite (bool_decide_eq_true_2 (oid c ∈ oid c :: _)) by left.
    repeat case_bool_decide; done.
  - destruct (decide (oid c ∈ oid <$> omap top cols)) as [Hin|Hnin].
    + rewrite (bool_decide_eq_true_2 _ Hin).
      by rewrite (bool_decide_eq_true_2 (oid c ∈ oid t :: _)) by (by right).
    + rewrite (bool_decide_eq_false_2 _ Hnin).
      rewrite (bool_decide_eq_false_2 (oid c ∈ oid t :: _)); [done|].
      by intros [?|?]%elem_of_cons.
Qed.

(** The slots of the dealing loops: the indices of [remaining] that land
    in each column, for the two deck sizes. *)
Definition slots54 : list (list nat) := Eval vm_compute in dealCols (seq 0 54).
Definition slots46 : list (list nat) := Eval vm_compute in dealCols (seq 0 46).

(** Case analysis on the index of a lookup in an explicit list. *)
Ltac walk_lookup i leaf :=
  lazymatch goal with
  | |- None = Some _ -> _ => by intros [=]
  | |- [] !! _ = Some _ -> _ => by intros [=]
  | |- (_ :: _) !! _ = Some _ -> _ =>
      destruct i as [|i];
      [cbn [lookup list_lookup]; leaf
      |cbn [lookup list_lookup]; walk_lookup i leaf]
  end.

Lemma slots_top_only m :
  m = 54%nat \/ m = 46%nat ->
  forall ci icol i k,
    dealCols (seq 0 m) !! ci = Some icol -> icol !! i = Some k ->
    (k < m)%nat
    /\ bool_decide (k ∈ omap last (dealCols (seq 0 m))) = bool_decide (S i = length icol).
Proof.
  intros [-> | ->] ci icol i k.
  - change (dealCols (seq 0 54)) with slots54. unfold slots54.
    walk_lookup ci ltac:(intros [= <-];
      walk_lookup i ltac:(intros [= <-]; split; [lia | reflexivity])).
  - change (dealCols (seq 0 46)) with slots46. unfold slots46.
    walk_lookup ci ltac:(intros [= <-];
      walk_lookup i ltac:(intros [= <-]; split; [lia | reflexivity])).
Qed.

Section FreshDeal.
Variables (D : list Card) (f : list bool).
Hypothesis D_nodup : NoDup (oid <$> D).
Hypothesis D_oids : Forall (fun c => (oid c < 104)%nat) D.
Hypothesis D_size : length D = 104%nat \/ length D = 96%nat.

Local Abbreviation base := (length f).
Local Abbreviation rem := (drop 50 D).
Local Abbreviation cols := (rebaseAll base <$> dealCols rem).
Local Abbreviation ff :=
  (foldl (fun f col => flipTop col f) (f ++ replicate 104 false) cols).
Local Abbreviation R := (fun k => nth k rem (mkCard 0 0 Spade 0)).

Lemma rem_size : length rem = 54%nat \/ length rem = 46%nat.
Proof. rewrite length_drop. lia. Qed.

Lemma dealCols_rem : dealCols rem = fmap (M:=list) R <$> dealCols (seq 0 (length rem)).
Proof. rewrite <- dealCols_fmap. f_equal. apply list_as_fmap_seq. Qed.

Lemma omap_top_fmap (h : Card -> Card) (cs : list (list Card)) :
  omap top (fmap (M:=list) h <$> cs) = h <$> omap top cs.
Proof.
  induction cs as [|col cs IH]; csimpl; [done|]. rewrite IH.
  unfold top. rewrite fmap_last. by destruct (last col).
Qed.

Lemma omap_last_fmap (cs : list (list nat)) :
  omap top (fmap (M:=list) R <$> cs) = R <$> omap last cs.
Proof.
  induction cs as [|col cs IH]; csimpl; [done|]. rewrite IH.
  unfold top. rewrite fmap_last. by destruct (last col).
Qed.

Lemma R_lookup k : (k < length rem)%nat -> rem !! k = Some (R k).
Proof.
  intros Hk. cbv beta. rewrite nth_lookup.
  by destruct (lookup_lt_is_Some_2 rem k Hk) as [x ->].
Qed.

Lemma rem_nodup : NoDup (oid <$> rem).
Proof.
  eapply sublist_NoDup; [exact D_nodup|]. rewrite fmap_drop. apply sublist_drop.
Qed.

Lemma R_inj j k :
  (j < length rem)%nat -> (k < length rem)%nat -> oid (R j) = oid (R k) -> j = k.
Proof.
  intros Hj Hk Heq.
  apply (NoDup_lookup (oid <$> rem) j k (oid (R j))); [exact rem_nodup| |].
  - by rewrite list_lookup_fmap, R_lookup.
  - by rewrite list_lookup_fmap, R_lookup, Heq.
Qed.

(** After the flips a card of the new deck is face-up exactly if it is
    the top card of a column. *)
Lemma fresh_faceUp c0 :
  c0 ∈ D ->
  faceUp ff (rebase base c0) = bool_decide (oid c0 ∈ oid <$> omap top (dealCols rem)).
Proof.
  intros Hc0. rewrite faceUp_flipTops.
  assert (oid c0 < 104)%nat as Hlt by (by eapply (proj1 (Forall_forall _ _) D_oids)).
  rewrite length_app, length_replicate.
  rewrite (bool_decide_eq_true_2 (oid (rebase base c0) < base + 104)%nat)
    by (simpl; lia).
  assert (faceUp (f ++ replicate 104 false) (rebase base c0) = false) as ->.
  { unfold faceUp, rebase. cbn [oid]. rewrite lookup_app_r by lia.
    replace (base + oid c0 - base)%nat with (oid c0) by lia.
    by rewrite lookup_replicate_2. }
  unfold rebaseAll. rewrite omap_top_fmap.
  destruct (decide (oid c0 ∈ oid <$> omap top (dealCols rem))) as [Hin|Hnin].
  - rewrite (bool_decide_eq_true_2 _ Hin), bool_decide_eq_true_2; [done|].
    apply list_elem_of_fmap in Hin as (c1 & Hoid & Hc1).
    apply list_elem_of_fmap. exists (rebase base c1). split; [simpl; lia|].
    by apply list_elem_of_fmap_2.
  - rewrite (bool_decide_eq_false_2 _ Hnin), bool_decide_eq_false_2; [done|].
    intros (c1 & Hoid & Hc1)%list_elem_of_fmap. apply Hnin.
    apply list_elem_of_fmap in Hc1 as (c2 & -> & Hc2).
    apply list_elem_of_fmap. exists c2. split; [simpl in Hoid; lia | done].
Qed.

Lemma rem_subset c : c ∈ rem -> c ∈ D.
Proof. intros Hc. eapply elem_of_sublist; [exact Hc | apply sublist_drop]. Qed.

Lemma dealCols_subset ci col i c0 :
  dealCols rem !! ci = Some col -> col !! i = Some c0 -> c0 ∈ D.
Proof.
  rewrite dealCols_rem, list_lookup_fmap. intros Hcol Hc.
  destruct (dealCols (seq 0 (length rem)) !! ci) as [icol|] eqn:Hicol; [|done].
  simpl in Hcol. injection Hcol as <-. rewrite list_lookup_fmap in Hc.
  destruct (icol !! i) as [k|] eqn:Hk; [|done]. simpl in Hc. injection Hc as <-.
  destruct (slots_top_only _ rem_size _ _ _ _ Hicol Hk) as [Hlt _].
  apply rem_subset. eapply list_elem_of_lookup_2, R_lookup, Hlt.
Qed.

Lemma fresh_lengths :
  length <$> cols
  = if decide (length D = 104%nat) then [6; 6; 6; 6; 5; 5; 5; 5; 5; 5]%nat
    else [5; 5; 5; 5; 5; 5; 4; 4; 4; 4]%nat.
Proof.
  rewrite dealCols_rem, <- !list_fmap_compose.
  assert (forall cs : list (list nat),
            (length ∘ rebaseAll base ∘ fmap R) <$> cs = length <$> cs) as ->.
  { intros cs. apply list_fmap_ext. intros ? col _. unfold rebaseAll. simpl.
    by rewrite !length_fmap. }
  rewrite length_drop.
  destruct D_size as [-> | ->]; by vm_compute.
Qed.

Lemma fresh_tableau_faces ci col i c :
  cols !! ci = Some col -> col !! i = Some c ->
  faceUp ff c = bool_decide (S i = length col).
Proof.
  intros Hcol Hc.
  rewrite dealCols_rem, <- list_fmap_compose, list_lookup_fmap in Hcol.
  destruct (dealCols (seq 0 (length rem)) !! ci) as [icol|] eqn:Hicol; [|done].
  simpl in Hcol. injection Hcol as <-. unfold rebaseAll in Hc.
  rewrite !list_lookup_fmap in Hc.
  destruct (icol !! i) as [k|] eqn:Hk; [|done]. simpl in Hc. injection Hc as <-.
  destruct (slots_top_only _ rem_size _ _ _ _ Hicol Hk) as [Hlt Htop].
  assert (length (rebaseAll base (R <$> icol)) = length icol) as ->
    by (unfold rebaseAll; by rewrite (length_fmap (rebase base)), (length_fmap R)).
  rewrite <- Htop. change (nth k rem _) with (R k).
  rewrite fresh_faceUp by (apply rem_subset; eapply list_elem_of_lookup_2, R_lookup, Hlt).
  rewrite dealCols_rem, omap_last_fmap, <- list_fmap_compose.
  destruct (decide (k ∈ omap last (dealCols (seq 0 (length rem))))) as [Hin|Hnin].
  - rewrite (bool_decide_eq_true_2 _ Hin), bool_decide_eq_true_2; [done|].
    by apply (list_elem_of_fmap_2 (oid ∘ R)).
  - rewrite (bool_decide_eq_false_2 _ Hnin), bool_decide_eq_false_2; [done|].
    intros (j & Hoid & Hj)%list_elem_of_fmap. apply Hnin.
    assert (j < length rem)%nat as Hjlt.
    { apply list_elem_of_omap in Hj as (jcol & Hjcol & Hlast).
      apply list_elem_of_lookup in Hjcol as [cj Hcj].
      rewrite last_lookup in Hlast.
      by destruct (slots_top_only _ rem_size _ _ _ _ Hcj Hlast). }
    simpl in Hoid. by rewrite (R_inj k j Hlt Hjlt Hoid).
Qed.

Lemma fresh_stock_faces c :
  c ∈ rebaseAll base (take 50 D) -> faceUp ff c = false.
Proof.
  unfold rebaseAll. intros (c0 & -> & Hc0)%list_elem_of_fmap.
  rewrite fresh_faceUp by (eapply elem_of_sublist; [exact Hc0 | apply sublist_take]).
  apply bool_decide_eq_false_2. intros (t & Hoid & Ht)%list_elem_of_fmap.
  apply list_elem_of_omap in Ht as (tcol & Htcol & Hlast).
  assert (t ∈ rem) as Hrem.
  { rewrite dealCols_rem in Htcol.
    apply list_elem_of_fmap in Htcol as (icol & -> & Hicol).
    unfold top in Hlast. rewrite fmap_last in Hlast.
    destruct (last icol) as [k|] eqn:Hk; [|done]. simpl in Hlast. injection Hlast as <-.
    apply list_elem_of_lookup in Hicol as [ci Hci]. rewrite last_lookup in Hk.
    destruct (slots_top_only _ rem_size _ _ _ _ Hci Hk) as [Hlt _].
    eapply list_elem_of_lookup_2, R_lookup, Hlt. }
  pose proof D_nodup as Hnd. rewrite <- (take_drop 50 D), fmap_app in Hnd.
  apply NoDup_app in Hnd as (_ & Hdisj & _).
  apply (Hdisj (oid c0)); [by apply list_elem_of_fmap_2|].
  rewrite Hoid. by apply list_elem_of_fmap_2.
Qed.

End FreshDeal.

Lemma shuffledDeck_facts d sd aces :
  let D := shuffledDeck (canonDiff d) sd aces in
  NoDup (oid <$> D) /\ Forall (fun c => (oid c < 104)%nat) D
  /\ length D = (if aces then 104 else 96)%nat.
Proof.
  intros D. pose proof (shuffledDeck_Permutation (canonDiff d) sd aces) as HP.
  fold D in HP.
  destruct (createDeck_facts (canonDiff d) aces (canonDiff_cases d)) as (Hlen & Hnd & Hoid).
  rewrite HP. done.
Qed.

(** C6 (as the code has it). Right after [newGame] the stock holds 50
    cards, all face-down, [dealsRemaining] is 5 and in every column exactly
    the top card is face-up.  The column lengths depend on the Ace setting:
    with Aces columns 1-4 have 6 cards and columns 5-10 have 5; without Aces
    (the setting of a freshly loaded page) only 46 cards are left for the
    tableau, so columns 1-6 have 5 cards and columns 7-10 have 4. *)
Theorem newGame_deal (d : option string) (sd : list Z) (aces : option bool) (s : State) :
  let g := newGame d sd aces s in
  length <$> tableau g
    = (if includeAces g then [6; 6; 6; 6; 5; 5; 5; 5; 5; 5]
       else [5; 5; 5; 5; 5; 5; 4; 4; 4; 4])%nat
  /\ length (stock g) = 50%nat
  /\ dealsRemaining g = 5
  /\ (forall ci col i c,
        tableau g !! ci = Some col /\ col !! i = Some c ->
        faceUp (faces g) c = bool_decide (S i = length col))
  /\ Forall (fun c => faceUp (faces g) c = false) (stock g).
Proof.
  intros g.
  destruct (newGame_layout d sd aces s) as (Hdiff & Hia & Htab & Hstock & Hfaces & Hdr & _).
  fold g in Hdiff, Hia, Htab, Hstock, Hfaces, Hdr.
  destruct (shuffledDeck_facts (default (difficulty s) d) sd (default (includeAces s) aces))
    as (Hnd & Hoid & Hlen).
  assert (length (shuffledDeck (canonDiff (default (difficulty s) d)) sd
                    (default (includeAces s) aces)) = 104%nat
          \/ length (shuffledDeck (canonDiff (default (difficulty s) d)) sd
                    (default (includeAces s) aces)) = 96%nat) as Hsize.
  { rewrite Hlen. destruct (default (includeAces s) aces); auto. }
  rewrite Hfaces, Htab, Hstock, Hia, Hdr. split_and!.
  - rewrite fresh_lengths by done. rewrite Hlen.
    by destruct (default (includeAces s) aces).
  - unfold rebaseAll. rewrite length_fmap, length_take, Hlen.
    by destruct (default (includeAces s) aces).
  - done.
  - intros ci col i c [Hcol Hc]. by eapply fresh_tableau_faces.
  - apply Forall_forall. intros c Hc. by eapply fresh_stock_faces.
Qed.

(** The scenario named by the claim: the page's own configuration leaves
    the Aces out, and the layout is 5-5-5-5-5-5-4-4-4-4. *)
Lemma newGame_deal_test1 :
  length <$> tableau test1 <> [6; 6; 6; 6; 5; 5; 5; 5; 5; 5]%nat.
Proof. vm_compute. discriminate. Qed.

(** C8. Two calls of [newGame] with the same (difficulty, seed,
    includeAces) lay out the same cards (id, suit, rank, faceUp) in the same
    order in every tableau column and in the stock, whatever game was on
    the table before either call. *)
Theorem newGame_deterministic (d : string) (sd : list Z) (aces : bool) (s1 s2 : State) :
  let g1 := newGame (Some d) sd (Some aces) s1 in
  let g2 := newGame (Some d) sd (Some aces) s2 in
  viewCol (faces g1) <$> tableau g1 = viewCol (faces g2) <$> tableau g2
  /\ viewCol (faces g1) (stock g1) = viewCol (faces g2) (stock g2)
  /\ difficulty g1 = difficulty g2 /\ seed g1 = seed g2
  /\ includeAces g1 = includeAces g2 /\ rng g1 = rng g2
  /\ dealsRemaining g1 = dealsRemaining g2.
Proof.
  intros g1 g2.
  assert (forall s, let g := newGame (Some d) sd (Some aces) s in
     let D := shuffledDeck (canonDiff d) sd aces in
     let tops := oid <$> omap top (dealCols (drop 50 D)) in
     let view c := (id c, suit c, rank c, bool_decide (oid c ∈ tops)) in
     viewCol (faces g) <$> tableau g = fmap (M:=list) view <$> dealCols (drop 50 D)
     /\ viewCol (faces g) (stock g) = view <$> take 50 D) as Hview.
  { intros s g D tops view.
    destruct (newGame_layout (Some d) sd (Some aces) s)
      as (_ & _ & Htab & Hstock & Hfaces & _).
    fold g in Htab, Hstock, Hfaces.
    change (default (difficulty s) (Some d)) with d in Htab, Hstock.
    change (default (includeAces s) (Some aces)) with aces in Htab, Hstock.
    fold D in Htab, Hstock.
    destruct (shuffledDeck_facts d sd aces) as (Hnd & Hoid & Hlen). fold D in Hnd, Hoid, Hlen.
    assert (length D = 104%nat \/ length D = 96%nat) as Hsize
      by (rewrite Hlen; destruct aces; auto).
    assert (forall c0, c0 ∈ D ->
              cardView (faces g) (rebase (length (faces s)) c0) = view c0) as Hcard.
    { intros c0 Hc0. unfold cardView, view, tops. cbn [id suit rank rebase].
      rewrite Hfaces, Htab. f_equal. by apply fresh_faceUp. }
    split.
    - rewrite Htab, <- list_fmap_compose. apply list_fmap_ext. intros ci col Hcol.
      unfold viewCol, rebaseAll. simpl. rewrite <- list_fmap_compose.
      apply list_fmap_ext. intros i c0 Hc0. simpl. apply Hcard.
      by eapply dealCols_subset.
    - rewrite Hstock. unfold viewCol, rebaseAll. rewrite <- list_fmap_compose.
      apply list_fmap_ext. intros i c0 Hc0. simpl. apply Hcard.
      eapply elem_of_sublist; [|apply sublist_take]. by eapply list_elem_of_lookup_2. }
  destruct (Hview s1) as [Ht1 Hs1]. destruct (Hview s2) as [Ht2 Hs2].
  destruct (newGame_layout (Some d) sd (Some aces) s1)
    as (Hd1 & Hi1 & _ & _ & _ & Hr1 & Hsd1 & Hrng1).
  destruct (newGame_layout (Some d) sd (Some aces) s2)
    as (Hd2 & Hi2 & _ & _ & _ & Hr2 & Hsd2 & Hrng2).
  subst g1 g2. cbv zeta in *.
  rewrite Ht1, Ht2, Hs1, Hs2, Hd1, Hd2, Hi1, Hi2, Hr1, Hr2, Hsd1, Hsd2, Hrng1, Hrng2.
  split_and!; reflexivity.
Qed.

(** ** Scripted games *)

(** [test1] after the five deals that empty the stock. *)
Definition dealt5 : State := default state0 (play (replicate 5 OpDeal) test1).

Lemma dealt5_reachable : reachable dealt5.
Proof.
  exists (Some "1-suit"%string), (codes "test1"), None, (replicate 5 OpDeal).
  vm_compute. reflexivity.
Qed.

Lemma rejected_is_noop_witness :
  doMove 0 0 1 test1 = Some (false, test1) /\ test1 = test1.
Proof.
  assert (doMove 0 0 1 test1 = Some (false, test1)) as H by (vm_compute; reflexivity).
  split; [exact H|].
  apply (rejected_is_noop test1 test1). right. exists 0%nat, 0, 1%nat. exact H.
Defined.

Lemma dealRow_empty_stock_witness :
  exists s' cs,
    dealRow dealt5 = Some (true, s')
    /\ history s' = history dealt5 ++ [EDeal []] ++ cs
    /\ moves s' = moves dealt5 + 1.
Proof.
  destruct (dealRow_empty_stock dealt5) as (s' & cs & H1 & _ & _ & H2 & _ & _ & H3 & _).
  - vm_compute. reflexivity.
  - vm_compute. reflexivity.
  - apply (bool_decide_unpack _). vm_compute. exact I.
  - exists s', cs. split; [exact H1|]. split; [exact H2 | exact H3].
Defined.

(** C1, on the code. After the five deals of [test1] a sixth [dealRow]
    succeeds and records one [deal] entry with no card in it; the single
    [undo] that takes this entry back pops the top card of all ten columns
    into the stock and raises [dealsRemaining] to 1, so the layout is not the
    one before the deal. *)
Theorem undo_empty_deal_not_inverse :
  reachable dealt5 /\
  exists s6 s7,
    dealRow dealt5 = Some (true, s6)
    /\ history s6 = history dealt5 ++ [EDeal []]
    /\ undo s6 = Some s7
    /\ layout s7 <> layout dealt5
    /\ length (stock dealt5) = 0%nat /\ length (stock s7) = 10%nat
    /\ dealsRemaining dealt5 = 0 /\ dealsRemaining s7 = 1.
Proof.
  split; [exact dealt5_reachable|].
  exists (default state0 (step OpDeal dealt5)),
         (default state0 (play [OpDeal; OpUndo] dealt5)).
  split_and!; try (vm_compute; reflexivity).
  apply (bool_decide_eq_false_1 _). vm_compute. reflexivity.
Qed.

(** C4, on the code. Five deals, one legal move (the 2 of column 1 onto
    the 3 of column 6), a sixth deal from the empty stock and two undos: the
    first undo sends the moved 2 to the stock, the second one splices the 3
    off column 6 and pushes the clone of the 2 back onto column 1.  The card
    count is still the deck size, but id 53 now sits both in the stock and in
    the tableau while id 54 is in no pile at all. *)
Theorem conservation_broken :
  exists s,
    reachable s
    /\ length (allCards s) = deckSize s
    /\ ~ NoDup (id <$> allCards s)
    /\ ~ conserved s
    /\ Validation.duplicates (Validation.verifyInventory s) = [53%nat].
Proof.
  exists (default state0
            (play (replicate 5 OpDeal ++ [OpMove 0 9 5; OpDeal; OpUndo; OpUndo]) test1)).
  split_and!.
  - exists (Some "1-suit"%string), (codes "test1"), None,
           (replicate 5 OpDeal ++ [OpMove 0 9 5; OpDeal; OpUndo; OpUndo]).
    vm_compute. reflexivity.
  - vm_compute. reflexivity.
  - apply (bool_decide_eq_false_1 _). vm_compute. reflexivity.
  - apply (bool_decide_eq_false_1 _). vm_compute. reflexivity.
  - vm_compute. reflexivity.
Qed.

(** C9, on the code. For the first game of a freshly loaded page (no
    Aces) the [verifyInventory] that [logic.js] exports reports the eight Ace
    ids as missing and answers [ok = false]; the [verifyInventory] of
    [validation.js] finds no issue in the same state. *)
Theorem verifyInventory_test1 :
  Logic.ok (Logic.verifyInventory test1) = false
  /\ Logic.duplicates (Logic.verifyInventory test1) = []
  /\ Logic.missing (Logic.verifyInventory test1) = [0; 13; 26; 39; 52; 65; 78; 91]%nat
  /\ Validation.ok (Validation.verifyInventory test1) = true
  /\ Validation.issues (Validation.verifyInventory test1) = [].
Proof. split_and!; vm_compute; reflexivity. Qed.

(** C3, as stated. One deal, then [undo] and [redo]: every card and the
    score are back, but the move counter went from 1 to 3.  And where an
    earlier undo has left the newest entry out of step with the tableau
    (five deals, a move, a sixth deal and its undo), [undo] then [redo] does
    not even bring the cards back: the 3 on column 6 is replaced by the clone
    of the moved 2. *)
Lemma redo_undo_moves :
  (exists s s1 s2,
     reachable s /\ undo s = Some s1 /\ redo s1 = Some s2
     /\ layout s2 = layout s /\ score s2 = score s
     /\ moves s = 1 /\ moves s2 = 3)
  /\ (exists s s1 s2,
        reachable s /\ undo s = Some s1 /\ redo s1 = Some s2
        /\ layout s2 <> layout s).
Proof.
  split.
  - exists (default state0 (play [OpDeal] test1)),
           (default state0 (play [OpDeal; OpUndo] test1)),
           (default state0 (play [OpDeal; OpUndo; OpRedo] test1)).
    split.
    { exists (Some "1-suit"%string), (codes "test1"), None, [OpDeal].
      vm_compute. reflexivity. }
    split_and!; vm_compute; reflexivity.
  - exists (default state0
              (play (replicate 5 OpDeal ++ [OpMove 0 9 5; OpDeal; OpUndo]) test1)),
           (default state0
              (play (replicate 5 OpDeal ++ [OpMove 0 9 5; OpDeal; OpUndo; OpUndo]) test1)),
           (default state0
              (play (replicate 5 OpDeal ++ [OpMove 0 9 5; OpDeal; OpUndo; OpUndo; OpRedo])
                    test1)).
    split.
    { exists (Some "1-suit"%string), (codes "test1"), None,
             (replicate 5 OpDeal ++ [OpMove 0 9 5; OpDeal; OpUndo]).
      vm_compute. reflexivity. }
    split_and!; try (vm_compute; reflexivity).
    apply (bool_decide_eq_false_1 _). vm_compute. reflexivity.
Qed.

(** ** Undo followed by redo *)

Lemma pop_snoc {A} (l : list A) (x : A) : pop (l ++ [x]) = Some (x, l).
Proof.
  unfold pop. rewrite last_snoc, length_app. simpl.
  replace (length l + 1 - 1)%nat with (length l) by lia.
  by rewrite take_app_length.
Qed.

Lemma splice_tail {A} (l : list A) (k : nat) :
  (k <= length l)%nat ->
  (splice l (Z.of_nat (length l) - Z.of_nat k) (Z.of_nat k)).2 = take (length l - k) l.
Proof.
  intros Hk. unfold splice. cbn [snd].
  destruct (Z.ltb_spec (Z.of_nat (length l) - Z.of_nat k) 0) as [|_]; [lia|].
  rewrite Z.min_l by lia. rewrite Z.max_l by lia. rewrite Z.min_l by lia.
  replace (Z.to_nat (Z.of_nat (length l) - Z.of_nat k)) with (length l - k)%nat by lia.
  replace (Z.to_nat (Z.of_nat (length l) - Z.of_nat k + Z.of_nat k)) with (length l) by lia.
  by rewrite drop_all, app_nil_r.
Qed.

Lemma splice_pushed {A} (l pushed : list A) :
  (splice (l ++ pushed) (Z.of_nat (length (l ++ pushed)) - Z.of_nat (length pushed))
          (Z.of_nat (length pushed))).2 = l.
Proof.
  rewrite splice_tail by (rewrite length_app; lia).
  rewrite length_app. replace (length l + length pushed - length pushed)%nat
    with (length l) by lia.
  by rewrite take_app_length.
Qed.

Lemma findIndex_app_l i col col' idx :
  findIndex i col = Some idx -> findIndex i (col ++ col') = Some idx.
Proof.
  revert idx. induction col as [|c col IH]; intros idx; simpl; [done|].
  destruct (id c =? i)%nat; [done|].
  destruct (findIndex i col) as [j|]; [|done]. simpl. intros [= <-]. by rewrite (IH j).
Qed.

Lemma findIndex_lt i col idx : findIndex i col = Some idx -> (idx < length col)%nat.
Proof.
  revert idx. induction col as [|c col IH]; intros idx; simpl; [done|].
  destruct (id c =? i)%nat; [intros [= <-]; lia|].
  destruct (findIndex i col) as [j|]; [|done]. simpl. intros [= <-].
  specialize (IH j eq_refl). lia.
Qed.

(** The card that an entry recorded as turned is found in the column by
    its id, and it is face-up. *)
Definition turnedUp (f : list bool) (turned : option Card) (col : list Card) : Prop :=
  match turned with
  | None => True
  | Some t =>
      exists idx c, findIndex (id t) col = Some idx /\ col !! idx = Some c
                    /\ faceUp f c = true
  end.

Lemma faceUp_true_lookup f c : faceUp f c = true -> f !! oid c = Some true.
Proof. unfold faceUp. by destruct (f !! oid c) as [[]|]. Qed.

Lemma setTurned_roundtrip f turned col pushed :
  turnedUp f turned col ->
  setTurned turned col true (setTurned turned (col ++ pushed) false f) = f.
Proof.
  unfold turnedUp, setTurned. destruct turned as [t|]; [|done].
  intros (idx & c & Hidx & Hc & Hup).
  rewrite (findIndex_app_l _ _ pushed _ Hidx), Hidx.
  rewrite lookup_app_l by (by eapply findIndex_lt). rewrite Hc.
  unfold setFaceUp. rewrite list_insert_insert_eq.
  by apply list_insert_id, faceUp_true_lookup.
Qed.

(** Setting the flags of a pile, one card after the other. *)
Definition setAll (b : bool) (cards : list Card) (f : list bool) : list bool :=
  foldr (fun c f => setFaceUp c b f) f cards.

Lemma length_setAll b cards f : length (setAll b cards f) = length f.
Proof.
  induction cards as [|c cards IH]; simpl; [done|].
  unfold setFaceUp. by rewrite length_insert.
Qed.

Lemma lookup_setAll b cards f i :
  setAll b cards f !! i
  = if decide (i ∈ oid <$> cards /\ (i < length f)%nat) then Some b else f !! i.
Proof.
  induction cards as [|c cards IH].
  - rewrite decide_False; [done|]. intros [H _]. by apply elem_of_nil in H.
  - cbn [setAll foldr]. fold (setAll b cards f). rewrite fmap_cons.
    unfold setFaceUp. destruct (decide (i = oid c)) as [->|Hne].
    + destruct (decide (oid c < length f)%nat) as [Hlt|Hge].
      * rewrite list_lookup_insert_eq by (by rewrite length_setAll).
        rewrite decide_True; [done|]. split; [by left | done].
      * rewrite list_insert_ge by (rewrite length_setAll; lia).
        rewrite IH. rewrite !decide_False by (intros [_ ?]; lia). done.
    + rewrite list_lookup_insert_ne by done. rewrite IH.
      destruct (decide (i ∈ oid <$> cards /\ (i < length f)%nat)) as [[Hin Hlt]|Hn].
      * rewrite decide_True; [done|]. split; [by right | done].
      * rewrite decide_False; [done|]. intros [[?|?]%elem_of_cons ?]; tauto.
Qed.

Lemma setAll_roundtrip f cards cards' :
  Forall (fun c => faceUp f c = true) cards ->
  (forall c, c ∈ cards' -> c ∈ cards) ->
  setAll true cards (setAll false cards' f) = f.
Proof.
  intros Hup Hsub. apply list_eq. intros i.
  rewrite !lookup_setAll, length_setAll.
  destruct (decide (i ∈ oid <$> cards /\ (i < length f)%nat)) as [[Hin Hlt]|Hn].
  - apply list_elem_of_fmap in Hin as (c & -> & Hc).
    symmetry. apply faceUp_true_lookup. by eapply (proj1 (Forall_forall _ _) Hup).
  - rewrite decide_False; [done|]. intros [Hin Hlt]. apply Hn. split; [|done].
    apply list_elem_of_fmap in Hin as (c & -> & Hc).
    by apply list_elem_of_fmap_2, Hsub.
Qed.

Lemma removeFromFoundations_pushed (cards fc : list Card) :
  Forall (fun x => id x ∉ id <$> cards) fc ->
  removeFromFoundations cards (fc ++ cards) = fc.
Proof.
  intros Hfc. unfold removeFromFoundations. rewrite filter_app.
  assert (filter (fun c => id c ∉ id <$> cards) cards = []) as ->.
  { assert (forall l, (forall c, c ∈ l -> c ∈ cards) ->
              filter (fun c => id c ∉ id <$> cards) l = []) as Hall.
    { induction l as [|c l IH]; intros Hl; [done|].
      rewrite filter_cons_False.
      - apply IH. intros c' Hc'. apply Hl. by right.
      - intros Hn. apply Hn. apply list_elem_of_fmap_2, Hl. by left. }
    by apply Hall. }
  rewrite app_nil_r. induction Hfc as [|c fc Hc Hfc IH]; [done|].
  by rewrite filter_cons_True, IH.
Qed.

(** The newest history entry [h] still describes the tableau: the cards it
    moved are the top of the destination column and the card it turned is
    face-up in the source column; or all ten columns have a face-up top
    card; or its 13 cards are the last ones of the foundations list and the
    card it turned is face-up in its column. *)
Definition applied (s : State) (h : Entry) : Prop :=
  match h with
  | EMove from to moved turned =>
      from <> to /\
      exists colFrom colTo,
        tableau s !! from = Some colFrom /\ tableau s !! to = Some colTo
        /\ (length moved <= length colTo)%nat
        /\ viewCol (faces s) (drop (length colTo - length moved) colTo)
           = viewCol (faces s) moved
        /\ turnedUp (faces s) turned colFrom
  | EDeal dealt =>
      length (tableau s) = 10%nat
      /\ Forall (fun col => exists c, top col = Some c /\ faceUp (faces s) c = true)
                (tableau s)
  | EComplete c cards turned =>
      length cards = 13%nat /\
      exists col fc,
        tableau s !! c = Some col
        /\ foundationsCards s = fc ++ cards
        /\ Forall (fun x => id x ∉ id <$> cards) fc
        /\ turnedUp (faces s) turned col
  end.

(** [s2] is [s] again, two counted moves later. *)
Record restored (s s2 : State) : Prop := {
  re_layout : layout s2 = layout s;
  re_score : score s2 = score s;
  re_moves : moves s2 = moves s + 2;
  re_history : history s2 = history s;
  re_redo : redoStack s2 = redoStack s;
  re_deals : dealsRemaining s2 = dealsRemaining s;
  re_foundations : foundations s2 = foundations s
}.

Lemma redo_after_undo_move s hist from to moved turned :
  history s = hist ++ [EMove from to moved turned] ->
  applied s (EMove from to moved turned) ->
  exists s1 s2, undo s = Some s1 /\ redo s1 = Some s2 /\ restored s s2.
Proof.
  intros Hhist (Hne & colFrom & colTo & Hfrom & Hto & Hk & Hview & Hturned).
  assert (from < length (tableau s))%nat as Hfl by (by eapply lookup_lt_Some).
  assert (to < length (tableau s))%nat as Htl by (by eapply lookup_lt_Some).
  unfold undo. rewrite Hhist, pop_snoc. cbn [mbind option_bind].
  rewrite Hfrom, Hto. cbn [mbind option_bind].
  rewrite splice_tail by done.
  rewrite list_lookup_insert_ne by done. rewrite Hfrom. cbn [mbind option_bind].
  eexists. eexists. split; [reflexivity|].
  unfold redo. cbn [redoStack tableau]. rewrite pop_snoc. cbn [mbind option_bind].
  repeat first
    [ rewrite list_lookup_insert_eq; [|rewrite ?length_insert; lia]
    | rewrite list_lookup_insert_ne; [|done]
    | rewrite splice_pushed
    | progress cbn [mbind option_bind] ].
  split; [reflexivity|].
  split; unfold layout; cbn [tableau stock foundationsCards faces score moves history redoStack dealsRemaining foundations]; try done; try lia.
  rewrite setTurned_roundtrip by done.
  f_equal; f_equal.
  apply list_eq. intros i. rewrite !list_lookup_fmap.
  destruct (decide (i = to)) as [->|Hito]; [|destruct (decide (i = from)) as [->|Hifrom]];
    repeat first
      [ rewrite list_lookup_insert_eq; [|rewrite ?length_insert; lia]
      | rewrite list_lookup_insert_ne; [|done] ].
  - rewrite Hto. simpl. f_equal.
    unfold viewCol in *. rewrite fmap_app, <- Hview, <- fmap_app. by rewrite take_drop.
  - by rewrite Hfrom.
  - done.
Qed.

Lemma undo_deal_explicit t stk f :
  length t = 10%nat ->
  Forall (fun col => exists c, top col = Some c /\ faceUp f c = true) t ->
  exists bodies tops,
    t = zip_with (fun b c => b ++ [c]) bodies tops /\ length bodies = 10%nat /\ length tops = 10%nat
    /\ Forall (fun c => faceUp f c = true) tops
    /\ mfold undoDealOne (rev (seq 0 10)) (t, stk, f) = Some (bodies, tops ++ stk, setAll false tops f)
    /\ forall f', mfold redoDealOne (seq 0 10) (bodies, tops ++ stk, f') = Some (t, stk, setAll true (rev tops) f').
Proof.
  intros Hlen Hall.
  do 10 (destruct t as [|? t]; [done|]). destruct t; [|done]. clear Hlen.
  repeat match goal with
         | H : Forall _ (_ :: _) |- _ =>
             let c := fresh "c" in let Ht := fresh "Ht" in let Hu := fresh "Hu" in
             let b := fresh "b" in
             apply Forall_cons in H as [(c & Ht & Hu) H];
             apply last_Some in Ht as [b ->]
         end.
  exists [b; b0; b1; b2; b3; b4; b5; b6; b7; b8], [c; c0; c1; c2; c3; c4; c5; c6; c7; c8].
  split; [reflexivity|]. split; [done|]. split; [done|]. split.
  { repeat constructor; done. }
  split.
  - unfold mfold. cbn [rev seq app foldl]. unfold undoDealOne.
    cbn [lookup list_lookup mbind option_bind].
    repeat (rewrite pop_snoc; cbn [mbind option_bind lookup list_lookup insert list_insert]).
    reflexivity.
  - intros f'. reflexivity.
Qed.

Lemma redo_after_undo_deal s hist dealt :
  history s = hist ++ [EDeal dealt] ->
  applied s (EDeal dealt) ->
  exists s1 s2, undo s = Some s1 /\ redo s1 = Some s2 /\ restored s s2.
Proof.
  intros Hhist [Hlen Htops].
  destruct (undo_deal_explicit (tableau s) (stock s) (faces s) Hlen Htops)
    as (bodies & tops & Ht & _ & _ & Hup & Hundo & Hredo).
  unfold undo. rewrite Hhist, pop_snoc, Hundo. cbn [mbind option_bind].
  eexists. eexists. split; [reflexivity|].
  unfold redo. cbn [redoStack tableau stock faces]. rewrite pop_snoc, Hredo.
  cbn [mbind option_bind]. split; [reflexivity|].
  split; unfold layout;
    cbn [tableau stock foundationsCards faces score moves history redoStack
         dealsRemaining foundations]; try done; try lia.
  rewrite setAll_roundtrip; [done | by apply Forall_rev |].
  intros c Hc. apply list_elem_of_In, in_rev. rewrite rev_involutive.
  by apply list_elem_of_In.
Qed.

Lemma redo_after_undo_complete s hist c cards turned :
  history s = hist ++ [EComplete c cards turned] ->
  applied s (EComplete c cards turned) ->
  exists s1 s2, undo s = Some s1 /\ redo s1 = Some s2 /\ restored s s2.
Proof.
  intros Hhist (Hlen & col & fc & Hcol & Hfc & Hfresh & Hturned).
  assert (c < length (tableau s))%nat as Hcl by (by eapply lookup_lt_Some).
  unfold undo. rewrite Hhist, pop_snoc, Hcol. cbn [mbind option_bind].
  eexists. eexists. split; [reflexivity|].
  unfold redo. cbn [redoStack tableau]. rewrite pop_snoc.
  rewrite list_lookup_insert_eq; [|lia]. cbn [mbind option_bind].
  change 13 with (Z.of_nat 13). rewrite <- Hlen, splice_pushed.
  split; [reflexivity|].
  split; unfold layout;
    cbn [tableau stock foundationsCards faces score moves history redoStack
         dealsRemaining foundations]; try done; try lia.
  rewrite setTurned_roundtrip by done.
  rewrite Hfc, removeFromFoundations_pushed by done.
  rewrite list_insert_insert_eq, list_insert_id by done. done.
Qed.

(** C3 (as the code has it). Whenever the newest history entry still
    describes the tableau, [redo()] right after [undo()] puts every card back
    in its pile and position with its [faceUp] flag, and restores the score,
    [dealsRemaining], the foundations counter and both stacks.  The move
    counter is not restored: [undo] and [redo] each count as a move, so it
    ends two higher.  [redo] charges no score penalty for a [move] or [deal]
    entry (as [undo] refunded none), and for a [complete] entry it takes the
    top 13 cards off the column. *)
Theorem redo_after_undo (s : State) (hist : list Entry) (h : Entry) :
  history s = hist ++ [h] ->
  applied s h ->
  exists s1 s2, undo s = Some s1 /\ redo s1 = Some s2 /\ restored s s2.
Proof.
  destruct h as [from to moved turned | dealt | c cards turned].
  - apply redo_after_undo_move.
  - apply redo_after_undo_deal.
  - apply redo_after_undo_complete.
Qed.

(** [test1] after moving the 4 of column 2 onto the 5 of column 5, which
    turns the next card of column 2. *)
Definition moved1 : State := default state0 (play [OpMove 1 4 4] test1).

Lemma redo_after_undo_witness :
  exists s1 s2, undo moved1 = Some s1 /\ redo s1 = Some s2 /\ restored moved1 s2.
Proof.
  apply (redo_after_undo moved1 [] (default (EDeal []) (last (history moved1)))).
  - vm_compute. reflexivity.
  - vm_compute. split; [discriminate|].
    eexists _, _. split_and!; try reflexivity.
    + vm_compute. lia.
    + exists 3%nat, (mkCard 48 48 Spade 10). split_and!; reflexivity.
Defined.

(** ** Completed runs *)

(** The cards [l], read downwards from the card below [prev], continue the
    run of [prev]: face-up, of suit [st], each one rank above the previous. *)
Fixpoint ascending (f : list bool) (st : Suit) (prev : Card) (l : list Card) : Prop :=
  match l with
  | [] => True
  | c :: l' =>
      faceUp f c = true /\ suit c = st /\ rank c = rank prev + 1 /\ ascending f st c l'
  end.

(** [j, j-1, ..., j-k+1] *)
Fixpoint downFrom (j k : nat) : list nat :=
  match k with
  | O => []
  | S k' => j :: downFrom (j - 1) k'
  end.

Lemma scanRun_chain (aces : bool) (f : list bool) (st : Suit) (chain : list Card) :
  forall (rest : list Card) (j : nat) (sequence : list Card) (idxs : list nat) (prev : Card),
    last sequence = Some prev ->
    ascending f st prev chain ->
    chain <> [] ->
    (length sequence + length chain = if aces then 13 else 12)%nat ->
    (aces = false -> isK2 (sequence ++ chain) = true) ->
    scanRun aces f st (chain ++ rest) j sequence idxs
    = Some (idxs ++ downFrom j (length chain)).
Proof.
  induction chain as [|c chain IH]; intros rest j sequence idxs prev Hlast Hasc Hne Hlen HK2;
    [done|].
  destruct Hasc as (Hup & Hst & Hrank & Hasc).
  cbn [scanRun app]. rewrite Hup. cbn [negb]. rewrite Hlast.
  rewrite (bool_decide_eq_true_2 _ Hst). rewrite Hrank, Z.eqb_refl. cbn [andb orb].
  rewrite length_app. cbn [length] in *.
  destruct chain as [|c' chain].
  - cbn [length] in Hlen.
    assert ((aces && (length sequence + 1 =? 13)%nat)
            || (negb aces && (length sequence + 1 =? 12)%nat) = true) as ->.
    { destruct aces; cbn [andb orb negb]; rewrite ?orb_false_r;
        apply Nat.eqb_eq; lia. }
    destruct aces; cbn [negb andb].
    + done.
    + rewrite (HK2 eq_refl). replace (length sequence + 1 =? 12)%nat with true
        by (symmetry; apply Nat.eqb_eq; lia). done.
  - assert ((aces && (length sequence + 1 =? 13)%nat)
            || (negb aces && (length sequence + 1 =? 12)%nat) = false) as ->.
    { cbn [length] in Hlen. destruct aces; cbn [andb orb negb]; rewrite ?orb_false_r;
        apply Nat.eqb_neq; lia. }
    rewrite (IH rest (j - 1)%nat (sequence ++ [c]) (idxs ++ [j]) c).
    + by rewrite <- app_assoc.
    + by rewrite last_snoc.
    + done.
    + done.
    + rewrite length_app. cbn [length] in *. lia.
    + intros Ha. rewrite <- app_assoc. by apply HK2.
Qed.

Lemma sortBy_downFrom j k :
  sortBy (fun a b => (b <=? a)%nat) (downFrom j k) = downFrom j k.
Proof.
  revert j. induction k as [|k IH]; intros j; [done|].
  cbn [downFrom sortBy foldr]. fold (sortBy (fun a b => (b <=? a)%nat) (downFrom (j - 1) k)).
  rewrite IH. destruct k as [|k]; [done|]. cbn [downFrom insertSorted].
  by rewrite (proj2 (Nat.leb_le (j - 1) j)) by lia.
Qed.

Lemma spliceEach_downFrom (below run removed : list Card) :
  foldl (fun '(removed, col) idx =>
           match col !! idx with
           | Some c => (removed ++ [c], delete idx col)
           | None => (removed, col)
           end) (removed, below ++ run)
        (downFrom (length (below ++ run) - 1) (length run))
  = (removed ++ rev run, below).
Proof.
  revert removed. induction run as [|x run IH] using rev_ind; intros removed.
  - cbn. by rewrite !app_nil_r.
  - rewrite !length_app. cbn [length].
    replace (length run + 1)%nat with (S (length run)) by lia.
    cbn [downFrom foldl].
    replace (length below + S (length run) - 1)%nat with (length (below ++ run))
      by (rewrite length_app; lia).
    rewrite app_assoc, lookup_app_r by lia.
    rewrite Nat.sub_diag. cbn [lookup list_lookup].
    assert (delete (length (below ++ run)) ((below ++ run) ++ [x]) = below ++ run) as ->.
    { rewrite delete_take_drop, take_app_length.
      rewrite drop_ge by (rewrite !length_app; simpl; lia). by rewrite app_nil_r. }
    rewrite IH, rev_unit. by rewrite <- app_assoc.
Qed.

Lemma validTail_ascending (f : list bool) (below body : list Card) (t : Card) :
  validTail f (below ++ body ++ [t]) (length below) ->
  ascending f (suit t) t (rev body).
Proof.
  revert t. induction body as [|x body IH] using rev_ind; intros t Hv; [done|].
  rewrite rev_unit. cbn [ascending].
  assert (chained f t x) as (Hut & Hux & Hr & Hs).
  { apply (Hv (length (below ++ body))).
    - rewrite length_app. lia.
    - rewrite <- app_assoc. rewrite !app_assoc.
      rewrite lookup_app_l by (rewrite !length_app; simpl; lia).
      rewrite lookup_app_r by (rewrite !length_app; lia).
      by rewrite Nat.sub_diag.
    - rewrite <- app_assoc. rewrite !app_assoc.
      rewrite lookup_app_r by (rewrite !length_app; simpl; lia).
      rewrite !length_app. simpl.
      by replace (S (length below + length body) - (length below + length body + 1))%nat
        with 0%nat by lia. }
  split_and!; [done | done | lia |].
  rewrite Hs. apply IH. intros k a b Hk Hb Ha.
  apply (Hv k); [done | |].
  - rewrite <- app_assoc, !app_assoc, <- (app_assoc below).
    by apply lookup_app_l_Some.
  - rewrite <- app_assoc, !app_assoc, <- (app_assoc below).
    by apply lookup_app_l_Some.
Qed.

Lemma findRun_top (aces : bool) (f : list bool) (below body : list Card) (t : Card) :
  body <> [] ->
  (1 + length body = if aces then 13 else 12)%nat ->
  validTail f (below ++ body ++ [t]) (length below) ->
  (aces = false -> isK2 (t :: rev body) = true) ->
  findRun aces f (below ++ body ++ [t]) (length (below ++ body ++ [t]))
  = Some (downFrom (length (below ++ body ++ [t]) - 1) (S (length body))).
Proof.
  intros Hne Hlen Hv HK2.
  pose proof (validTail_ascending _ _ _ _ Hv) as Hasc.
  assert (faceUp f t = true) as Hup.
  { destruct body as [|x body _] using rev_ind; [done|].
    rewrite rev_unit in Hasc.
    assert (chained f t x) as (Hut & _).
    { apply (Hv (length (below ++ body))).
      - rewrite length_app. lia.
      - rewrite !app_assoc.
        rewrite lookup_app_l by (rewrite !length_app; simpl; lia).
        rewrite lookup_app_r by (rewrite !length_app; lia).
        by rewrite Nat.sub_diag.
      - rewrite !app_assoc.
        rewrite lookup_app_r by (rewrite !length_app; simpl; lia).
        rewrite !length_app. simpl.
        by replace (S (length below + length body) - (length below + length body + 1))%nat
          with 0%nat by lia. }
    done. }
  rewrite !app_assoc, length_app. cbn [length].
  replace (length (below ++ body) + 1)%nat with (S (length (below ++ body))) by lia.
  cbn [findRun]. rewrite lookup_app_r by lia. rewrite Nat.sub_diag. cbn [lookup list_lookup].
  rewrite Hup. cbn [negb]. rewrite take_app_length, rev_app_distr.
  rewrite (scanRun_chain aces f (suit t) (rev body) (rev below) _ [t] _ t);
    [| done | done | | | ].
  - rewrite length_rev. cbn [app downFrom].
    by replace (S (length (below ++ body)) - 1)%nat with (length (below ++ body)) by lia.
  - intros Hnil. apply Hne. apply (f_equal (@rev Card)) in Hnil.
    by rewrite rev_involutive in Hnil.
  - rewrite length_rev. cbn [length]. lia.
  - done.
Qed.

Lemma ascending_ranks f st prev l :
  ascending f st prev l ->
  rank <$> l = (fun k => rank prev + Z.of_nat k + 1) <$> seq 0 (length l).
Proof.
  revert prev. induction l as [|c l IH]; intros prev; [done|].
  intros (_ & _ & Hr & Hasc). cbn [length seq]. rewrite !fmap_cons, (IH c Hasc).
  f_equal; [lia|]. rewrite <- fmap_S_seq, <- list_fmap_compose.
  apply list_fmap_ext. intros _ k _. simpl. lia.
Qed.

Lemma isK2_run f st (t : Card) (l : list Card) :
  ascending f st t l -> length l = 11%nat -> rank t = 2 -> isK2 (t :: l) = true.
Proof.
  intros Hasc Hlen Ht. unfold isK2.
  rewrite fmap_cons, (ascending_ranks _ _ _ _ Hasc), Hlen, Ht. reflexivity.
Qed.

Lemma tryComplete_top_run (aces : bool) (f : list bool) (col : list Card) (n : nat) :
  n = (if aces then 13 else 12)%nat ->
  (n <= length col)%nat ->
  validTail f col (length col - n) ->
  (aces = false -> exists t, top col = Some t /\ rank t = 2) ->
  tryComplete col aces f
  = Some (rev (drop (length col - n) col), take (length col - n) col).
Proof.
  intros Hn Hlen Hv H2.
  assert (length (drop (length col - n) col) = n) as Hrun by (rewrite length_drop; lia).
  assert (length (take (length col - n) col) = (length col - n)%nat) as Hbelow
    by (rewrite length_take; lia).
  destruct (drop (length col - n) col) as [|x body _] eqn:Hdrop using rev_ind.
  { destruct aces; simpl in *; lia. }
  rename x into t.
  remember (take (length col - n) col) as below eqn:Hb.
  assert (col = below ++ body ++ [t]) as Hcol
    by (by rewrite Hb, <- Hdrop, take_drop).
  clear Hb Hdrop. rewrite <- Hbelow in Hv. clear Hbelow Hlen. subst col.
  rewrite length_app in Hrun. cbn [length] in Hrun.
  assert (body <> []) as Hne by (intros ->; destruct aces; simpl in *; lia).
  unfold tryComplete.
  assert ((length (below ++ body ++ [t]) <? 14 - (if aces then 1 else 2))%nat = false) as ->.
  { apply Nat.ltb_ge. rewrite !length_app. simpl. destruct aces; lia. }
  rewrite findRun_top; [| done | destruct aces; lia | done |].
  - rewrite sortBy_downFrom. unfold spliceEach.
    replace (S (length body)) with (length (body ++ [t]))
      by (rewrite length_app; simpl; lia).
    by rewrite spliceEach_downFrom.
  - intros ->. destruct (H2 eq_refl) as (t' & Htop & Hr).
    unfold top in Htop. rewrite !app_assoc, last_snoc in Htop. injection Htop as <-.
    eapply isK2_run; [by eapply validTail_ascending | | done].
    rewrite length_rev. lia.
Qed.

(** X12. A run that lies contiguous and face-up on top of a column is
    completed as the rules say: exactly its 13 (or 12) cards leave the
    column for the foundations list, the counter and the score go up, and the
    card beneath is turned if it was face-down. *)
Lemma completeTopRun_top_run (s : State) (c : nat) (col : list Card) (aces : bool) (n : nat) :
  n = (if aces then 13 else 12)%nat ->
  tableau s !! c = Some col ->
  (n <= length col)%nat ->
  validTail (faces s) col (length col - n) ->
  (aces = false -> exists t, top col = Some t /\ rank t = 2) ->
  exists s',
    completeTopRun c aces s = Some (true, s')
    /\ tableau s' = <[c := take (length col - n) col]> (tableau s)
    /\ foundations s' = foundations s + 1
    /\ foundationsCards s' = foundationsCards s ++ rev (drop (length col - n) col)
    /\ faces s' = flipTop (take (length col - n) col) (faces s)
    /\ score s' = score s + 100
    /\ stock s' = stock s.
Proof.
  intros Hn Hcol Hlen Hv H2. unfold completeTopRun. rewrite Hcol. cbn [mbind option_bind].
  rewrite (tryComplete_top_run aces (faces s) col n) by done.
  eexists. split; [reflexivity|]. cbn [tableau foundations foundationsCards faces score stock].
  split_and!; try done.
  unfold flipTop. destruct (top (take (length col - n) col)) as [t|]; [|done].
  destruct (faceUp (faces s) t) eqn:Hup; [|done]. cbn [negb].
  unfold setFaceUp. symmetry. by apply list_insert_id, faceUp_true_lookup.
Qed.

(** A column of a game without Aces: King down to 3 of spades face-up, a
    face-down 9 of hearts, and the 2 of spades face-up on top. *)
Definition hiddenCard : Card := mkCard 11 11 Heart 9.

Definition runWithHidden : list Card :=
  ((fun k => mkCard k k Spade (13 - Z.of_nat k)) <$> seq 0 11)
    ++ [hiddenCard; mkCard 12 12 Spade 2].

Definition hiddenState : State :=
  {| difficulty := "4-suit"; seed := []; rng := None; includeAces := false;
     tableau := runWithHidden :: replicate 9 []; stock := []; dealsRemaining := 0;
     foundations := 0; moves := 0; score := 500; history := [];
     redoStack := []; message := ""; won := false; foundationsCards := [];
     faces := replicate 11 true ++ [false; true] |}.

(** C2, on the code. The scan steps over the face-down card between the
    3 and the 2 of the run, but it records its index with the others: all
    13 cards are spliced out, the face-down 9 of hearts goes to the
    foundations list with the twelve run cards, and the inventory check finds
    13 foundation cards where one completed run accounts for 12. *)
Theorem completeTopRun_takes_hidden_card :
  faceUp (faces hiddenState) hiddenCard = false
  /\ tryComplete runWithHidden false (faces hiddenState) = Some (rev runWithHidden, [])
  /\ exists s',
       completeTopRun 0 false hiddenState = Some (true, s')
       /\ tableau s' !! 0%nat = Some []
       /\ foundations s' = 1
       /\ length (foundationsCards s') = 13%nat
       /\ hiddenCard ∈ foundationsCards s'
       /\ Validation.FoundationCards 13 12 ∈ Validation.issues (Validation.verifyInventory s').
Proof.
  split; [reflexivity|]. split; [vm_compute; reflexivity|].
  exists (default state0 (snd <$> completeTopRun 0 false hiddenState)).
  split_and!; try (vm_compute; reflexivity).
  - apply (bool_decide_unpack _). vm_compute. exact I.
  - apply (bool_decide_unpack _). vm_compute. exact I.
Qed.

(** ** Two loaded positions *)

(** King down to 2 of spades face-up in column 1, the Ace in column 2. *)
Definition aceState : State :=
  {| difficulty := "1-suit"; seed := []; rng := None; includeAces := true;
     tableau := ((fun k => mkCard k k Spade (13 - Z.of_nat k)) <$> seq 0 12)
                  :: [mkCard 12 12 Spade 1] :: replicate 8 [];
     stock := []; dealsRemaining := 0;
     foundations := 0; moves := 0; score := 500; history := [];
     redoStack := []; message := ""; won := false; foundationsCards := [];
     faces := replicate 13 true |}.

(** Moving the Ace onto the 2 completes the run and records a [move] and
    a [complete] entry.  The first undo pushes the removed cards back in the
    order in which they were spliced out, top card first, so the run returns
    upside down; the second undo then takes the King (now on top) off the
    column instead of the Ace. *)
Lemma undo_complete_reverses_run :
  exists s1 s2 s3,
    play [OpMove 1 0 0] aceState = Some s1
    /\ length (history s1) = 2%nat /\ foundations s1 = 1
    /\ undo s1 = Some s2
    /\ fmap rank <$> tableau s2 !! 0%nat = Some (Z.of_nat <$> seq 1 13)
    /\ undo s2 = Some s3
    /\ history s3 = []
    /\ fmap rank <$> tableau s3 !! 0%nat = Some (Z.of_nat <$> seq 1 12)
    /\ layout s3 <> layout aceState.
Proof.
  exists (default state0 (play [OpMove 1 0 0] aceState)),
         (default state0 (play [OpMove 1 0 0; OpUndo] aceState)),
         (default state0 (play [OpMove 1 0 0; OpUndo; OpUndo] aceState)).
  split_and!; try (vm_compute; reflexivity).
  apply (bool_decide_eq_false_1 _). vm_compute. reflexivity.
Qed.

(** Ten columns of two cards, four cards left in the stock and one deal
    remaining. *)
Definition partialState : State :=
  {| difficulty := "1-suit"; seed := []; rng := None; includeAces := true;
     tableau := (fun k => [mkCard k k Spade 5; mkCard (10 + k) (10 + k) Spade 9])
                  <$> seq 0 10;
     stock := (fun k => mkCard (20 + k) (20 + k) Spade 7) <$> seq 0 4;
     dealsRemaining := 1;
     foundations := 0; moves := 0; score := 500; history := [];
     redoStack := []; message := ""; won := false; foundationsCards := [];
     faces := replicate 10 false ++ replicate 10 true ++ replicate 4 false |}.

(** The final partial deal re-reads [stock.length] while it shifts cards
    off the stock, so only two of the four cards are dealt; its undo pops a
    card off all ten columns. *)
Lemma undo_partial_deal :
  exists s1 s2,
    dealRow partialState = Some (true, s1)
    /\ length <$> tableau s1 = [3; 3; 2; 2; 2; 2; 2; 2; 2; 2]%nat
    /\ length (stock s1) = 2%nat /\ dealsRemaining s1 = 0
    /\ undo s1 = Some s2
    /\ length <$> tableau s2 = [2; 2; 1; 1; 1; 1; 1; 1; 1; 1]%nat
    /\ length (stock s2) = 12%nat
    /\ layout s2 <> layout partialState.
Proof.
  exists (default state0 (play [OpDeal] partialState)),
         (default state0 (play [OpDeal; OpUndo] partialState)).
  split_and!; try (vm_compute; reflexivity).
  apply (bool_decide_eq_false_1 _). vm_compute. reflexivity.
Qed.

(** [newGame] resets the foundations counter but not the foundations
    list: a game started after a completed run still carries the 13 cards of
    that run, and the inventory check of [validation.js] reports them. *)
Lemma verifyInventory_stale_foundations :
  exists s g,
    play [OpMove 1 0 0] aceState = Some s
    /\ g = newGame (Some "1-suit"%string) (codes "test1") (Some true) s
    /\ foundations g = 0 /\ length (foundationsCards g) = 13%nat
    /\ Validation.ok (Validation.verifyInventory g) = false
    /\ Validation.TotalCount 117 104 ∈ Validation.issues (Validation.verifyInventory g).
Proof.
  exists (default state0 (play [OpMove 1 0 0] aceState)),
         (newGame (Some "1-suit"%string) (codes "test1") (Some true)
                  (default state0 (play [OpMove 1 0 0] aceState))).
  split_and!; try (vm_compute; reflexivity).
  apply (bool_decide_unpack _). vm_compute. exact I.
Qed.

(** ** The inventory check on a new game *)


Lemma concat_fmap_fmap {A B} (h : A -> B) (cols : list (list A)) :
  concat (fmap (M:=list) h <$> cols) = h <$> concat cols.
Proof.
  induction cols as [|col cols IH]; [done|].
  rewrite fmap_cons. cbn [concat]. by rewrite IH, fmap_app.
Qed.

Lemma concat_dealCols (rem : list Card) :
  length rem = 54%nat \/ length rem = 46%nat -> concat (dealCols rem) ≡ₚ rem.
Proof.
  intros Hlen.
  rewrite (list_as_fmap_seq rem (mkCard 0 0 Spade 0)) at 2.
  rewrite (list_as_fmap_seq rem (mkCard 0 0 Spade 0)) at 1.
  rewrite dealCols_fmap, concat_fmap_fmap. apply fmap_Permutation.
  destruct Hlen as [-> | ->]; apply (bool_decide_unpack _); vm_compute; exact I.
Qed.

(** The duplicate check finds nothing among distinct ids. *)
Lemma place_NoDup (cards : list Card) (seen : list nat) :
  NoDup (seen ++ (id <$> cards)) ->
  foldl Validation.place (seen, []) cards = (seen ++ (id <$> cards), []).
Proof.
  revert seen. induction cards as [|c cards IH]; intros seen Hnd.
  - by rewrite app_nil_r.
  - cbn [foldl Validation.place]. rewrite fmap_cons in Hnd.
    rewrite bool_decide_eq_false_2.
    + rewrite IH; rewrite <- app_assoc; done.
    + apply NoDup_app in Hnd as (_ & Hdisj & _). intros Hin.
      apply (Hdisj _ Hin). by left.
Qed.

Lemma suitKeys_acc (cards : list Card) (keys : list Suit) :
  NoDup keys ->
  let r := foldl (fun keys c => if bool_decide (suit c ∈ keys) then keys else keys ++ [suit c])
                 keys cards in
  NoDup r /\ forall x, x ∈ r <-> x ∈ keys \/ x ∈ suit <$> cards.
Proof.
  revert keys. induction cards as [|c cards IH]; intros keys Hnd; cbn [foldl].
  - split; [done|]. intros x. rewrite fmap_nil, elem_of_nil. tauto.
  - case_bool_decide as Hin.
    + destruct (IH keys Hnd) as [Hnd' Hel]. split; [done|]. intros x.
      rewrite Hel, fmap_cons, elem_of_cons. split; [tauto|].
      intros [?|[->|?]]; auto.
    + destruct (IH (keys ++ [suit c])) as [Hnd' Hel].
      { apply NoDup_app. split_and!; [done | | apply NoDup_singleton].
        intros x Hx ->%list_elem_of_singleton. done. }
      split; [done|]. intros x.
      rewrite Hel, fmap_cons, elem_of_cons, elem_of_app, list_elem_of_singleton. tauto.
Qed.

Lemma suitKeys_spec (cards : list Card) :
  NoDup (Validation.suitKeys cards)
  /\ forall x, x ∈ Validation.suitKeys cards <-> x ∈ suit <$> cards.
Proof.
  destruct (suitKeys_acc cards [] (NoDup_nil_2)) as [Hnd Hel]. split; [done|].
  intros x. unfold Validation.suitKeys. rewrite Hel, elem_of_nil. tauto.
Qed.

Lemma suitCount_fmap (cards : list Card) (x : Suit) :
  Validation.suitCount cards x = length (filter (fun y => y = x) (suit <$> cards)).
Proof.
  unfold Validation.suitCount. induction cards as [|c cards IH]; [done|].
  rewrite fmap_cons, !filter_cons. destruct (decide (suit c = x)); simpl; by rewrite IH.
Qed.

Lemma rankCount_fmap (cards : list Card) (r : Z) :
  Validation.rankCount cards r = length (filter (fun y => y = r) (rank <$> cards)).
Proof.
  unfold Validation.rankCount. induction cards as [|c cards IH]; [done|].
  rewrite fmap_cons, !filter_cons. destruct (decide (rank c = r)); simpl; by rewrite IH.
Qed.

Lemma suitIssues_Permutation diff aces (l k : list Card) :
  suit <$> l ≡ₚ suit <$> k ->
  Validation.suitIssues diff aces l = Validation.suitIssues diff aces k.
Proof.
  intros HP. unfold Validation.suitIssues.
  destruct (suitKeys_spec l) as [Hndl Hell]. destruct (suitKeys_spec k) as [Hndk Helk].
  assert (Validation.suitKeys l ≡ₚ Validation.suitKeys k) as Hkeys.
  { apply NoDup_Permutation; [done..|]. intros x. by rewrite Hell, Helk, HP. }
  assert (forall n, forallb (fun x => (Validation.suitCount l x =? n)%nat) (Validation.suitKeys l)
                    = forallb (fun x => (Validation.suitCount k x =? n)%nat) (Validation.suitKeys k))
    as Hall.
  { intros n. apply eq_true_iff_eq. rewrite !forallb_forall.
    split; intros H x Hx; apply list_elem_of_In in Hx.
    - rewrite suitCount_fmap, <- HP, <- suitCount_fmap. apply H, list_elem_of_In.
      by rewrite Hkeys.
    - rewrite suitCount_fmap, HP, <- suitCount_fmap. apply H, list_elem_of_In.
      by rewrite <- Hkeys. }
  assert (length (Validation.suitKeys l) = length (Validation.suitKeys k)) as Hlen
    by (by rewrite Hkeys).
  cbv zeta beta. by rewrite !Hall, !Hlen.
Qed.

Lemma rankIssues_Permutation aces (l k : list Card) :
  rank <$> l ≡ₚ rank <$> k ->
  Validation.rankIssues aces l = Validation.rankIssues aces k.
Proof.
  intros HP. unfold Validation.rankIssues.
  assert (forall r, Validation.rankCount l r = Validation.rankCount k r) as Hc
    by (intros r; by rewrite !rankCount_fmap, HP).
  rewrite (Hc 1). f_equal. apply flat_map_ext. intros r. by rewrite Hc.
Qed.

Lemma topIssues_from (f : list bool) (t : list (list Card)) (g : nat -> nat) :
  flat_map (fun '(i, col) =>
              match top col with
              | Some c => if faceUp f c then [] else [Validation.TopFaceDown (i + 1)]
              | None => []
              end)
           (imap (fun i col => (g i, col)) t) = []
  <-> Forall (fun col => forall c, top col = Some c -> faceUp f c = true) t.
Proof.
  revert g. induction t as [|col t IH]; intros g; [done|].
  rewrite imap_cons. cbn [flat_map]. unfold compose. cbv beta.
  rewrite Forall_cons, <- (IH (fun i => g (S i))). 
  split.
  - intros [Hcol Hnil]%app_eq_nil. split; [|done].
    intros c Hc. rewrite Hc in Hcol. by destruct (faceUp f c).
  - intros [Hcol ->]. rewrite app_nil_r.
    destruct (top col) as [c|]; [|done]. by rewrite (Hcol c eq_refl).
Qed.

Lemma topIssues_nil (f : list bool) (t : list (list Card)) :
  Validation.topIssues f t = []
  <-> Forall (fun col => forall c, top col = Some c -> faceUp f c = true) t.
Proof. apply (topIssues_from f t (fun i => i)). Qed.

(** What [createDeck] builds passes the suit and rank checks. *)
Lemma createDeck_valid diff aces :
  diff = "1-suit"%string \/ diff = "2-suit"%string \/ diff = "4-suit"%string ->
  NoDup (id <$> createDeck 0 diff aces)
  /\ Validation.suitIssues (Validation.normDiff diff) aces (createDeck 0 diff aces) = []
  /\ Validation.rankIssues aces (createDeck 0 diff aces) = [].
Proof.
  intros [-> | [-> | ->]]; destruct aces;
    (split; [apply (bool_decide_unpack _); vm_compute; exact I|]; split;
     vm_compute; reflexivity).
Qed.

(** The piles of a new game hold the cards of the created deck. *)
Lemma newGame_allCards d sd aces s :
  foundationsCards s = [] ->
  allCards (newGame d sd aces s)
  ≡ₚ rebase (length (faces s))
       <$> createDeck 0 (canonDiff (default (difficulty s) d)) (default (includeAces s) aces).
Proof.
  intros Hfc.
  destruct (newGame_layout d sd aces s) as (_ & _ & Htab & Hstock & _).
  unfold allCards. rewrite Htab, Hstock.
  assert (foundationsCards (newGame d sd aces s) = []) as ->.
  { unfold newGame, initialDeal. cbv zeta.
    repeat match goal with |- context [Prng.shuffle ?l ?a] =>
      destruct (Prng.shuffle l a) end.
    exact Hfc. }
  rewrite app_nil_r.
  destruct (shuffledDeck_facts (default (difficulty s) d) sd (default (includeAces s) aces))
    as (_ & _ & Hlen).
  unfold rebaseAll. rewrite concat_fmap_fmap, <- fmap_app.
  apply fmap_Permutation.
  rewrite concat_dealCols.
  - rewrite (Permutation_app_comm (drop 50 _)), take_drop.
    apply shuffledDeck_Permutation.
  - rewrite length_drop, Hlen. destruct (default (includeAces s) aces); auto.
Qed.

Lemma newGame_foundations d sd aces s :
  foundationsCards (newGame d sd aces s) = foundationsCards s
  /\ foundations (newGame d sd aces s) = 0.
Proof.
  unfold newGame, initialDeal. cbv zeta.
  repeat match goal with |- context [Prng.shuffle ?l ?a] =>
    destruct (Prng.shuffle l a) end.
  split; reflexivity.
Qed.

(** [duplicates] stays empty exactly if no id is met twice. *)
Lemma place_spec (cards : list Card) (seen dups : list nat) :
  NoDup seen ->
  (foldl Validation.place (seen, dups) cards).2 = []
  <-> dups = [] /\ NoDup (seen ++ (id <$> cards)).
Proof.
  revert seen dups. induction cards as [|c cards IH]; intros seen dups Hnd.
  - cbn [foldl snd fmap list_fmap]. rewrite app_nil_r. tauto.
  - cbn [foldl Validation.place]. rewrite fmap_cons.
    destruct (decide (id c ∈ seen)) as [Hin|Hnin].
    + rewrite (bool_decide_eq_true_2 _ Hin), IH by done. split.
      * intros [Hd _]. by destruct dups.
      * intros [_ Hnd']. apply NoDup_app in Hnd' as (_ & Hdisj & _).
        exfalso. apply (Hdisj _ Hin). by left.
    + rewrite (bool_decide_eq_false_2 _ Hnin), IH, <- app_assoc; [done|].
      apply NoDup_app. split_and!; [done| |apply NoDup_singleton].
      by intros x Hx ->%list_elem_of_singleton.
Qed.

Lemma flat_map_nil {A B} (h : A -> list B) (l : list A) :
  flat_map h l = [] <-> Forall (fun x => h x = []) l.
Proof.
  induction l as [|x l IH]; cbn [flat_map]; [done|].
  rewrite Forall_cons, <- IH. split; [by intros [??]%app_eq_nil | by intros [-> ->]].
Qed.

Lemma rankIssues_nil aces (cards : list Card) :
  Validation.rankIssues aces cards = []
  <-> (forall r, 2 <= r <= 13 -> Validation.rankCount cards r = 8%nat)
      /\ Validation.rankCount cards 1 = (if aces then 8 else 0)%nat.
Proof.
  unfold Validation.rankIssues. cbv zeta. split.
  - intros [Hr Ha]%app_eq_nil. split.
    + intros r Hr'. apply flat_map_nil in Hr.
      assert (r ∈ Z.of_nat <$> seq 2 12) as Hin.
      { apply list_elem_of_fmap. exists (Z.to_nat r). split; [lia|].
        apply elem_of_seq. lia. }
      pose proof (proj1 (Forall_forall _ _) Hr r Hin) as Hx. cbv beta in Hx.
      destruct (Nat.eqb_spec (Validation.rankCount cards r) 8); done.
    + destruct aces, (Nat.eqb_spec (Validation.rankCount cards 1) 8),
        (Nat.eqb_spec (Validation.rankCount cards 1) 0); simpl in Ha; done || lia.
  - intros [Hr Ha]. rewrite Ha.
    assert (flat_map (fun r => if (Validation.rankCount cards r =? 8)%nat then []
                               else [Validation.RankCount r (Validation.rankCount cards r)])
                     (Z.of_nat <$> seq 2 12) = []) as ->.
    { apply flat_map_nil, Forall_forall.
      intros r (k & -> & [Hk1 Hk2]%elem_of_seq)%list_elem_of_fmap.
      by rewrite Hr by lia. }
    by destruct aces.
Qed.

(** The report has no issue exactly if every check of the verifier holds. *)
Lemma verifyInventory_issues (s : State) :
  Validation.issues (Validation.verifyInventory s) = []
  <-> length (allCards s) = deckSize s
      /\ NoDup (id <$> allCards s)
      /\ Validation.suitIssues (Validation.normDiff (difficulty s)) (includeAces s)
           (allCards s) = []
      /\ Validation.rankIssues (includeAces s) (allCards s) = []
      /\ dealsRemaining s = (Z.of_nat (length (stock s)) + 9) / 10
      /\ Z.of_nat (length (foundationsCards s))
         = foundations s * (if includeAces s then 13 else 12)
      /\ Forall (fun col => forall c, top col = Some c -> faceUp (faces s) c = true)
           (tableau s).
Proof.
  unfold Validation.verifyInventory. cbv zeta. cbn [Validation.issues].
  unfold countCards, deckSize. cbn [total inStock inFoundations].
  rewrite !app_nil, topIssues_nil.
  pose proof (place_spec (allCards s) [] [] (NoDup_nil_2)) as Hplace.
  rewrite app_nil_l in Hplace.
  destruct (foldl Validation.place ([], []) (allCards s)) as [seen dups] eqn:Hfold.
  cbn [snd] in Hplace.
  assert ((if (0 <? length dups)%nat then [Validation.DuplicateIds dups] else []) = []
          <-> NoDup (id <$> allCards s)) as ->.
  { destruct dups as [|x dups]; cbn [length Nat.ltb Nat.leb].
    - split; [intros _; by apply Hplace | done].
    - split; [done | intros Hnd]. exfalso.
      assert (x :: dups = []) as [=]. apply Hplace. by split; [|]. }
  destruct (Nat.eqb_spec (length (allCards s)) (if includeAces s then 104 else 96)%nat),
    (Z.eqb_spec (dealsRemaining s) ((Z.of_nat (length (stock s)) + 9) / 10)),
    (Z.eqb_spec (Z.of_nat (length (foundationsCards s)))
                (foundations s * (if includeAces s then 13 else 12)));
    split; intros H; destruct_and?; split_and?; done.
Qed.

(** In a new game the stock holds 50 cards and every column shows its top card. *)
Lemma newGame_tops d sd aces s :
  length (stock (newGame d sd aces s)) = 50%nat
  /\ Forall (fun col => forall c, top col = Some c ->
                          faceUp (faces (newGame d sd aces s)) c = true)
       (tableau (newGame d sd aces s)).
Proof.
  destruct (newGame_layout d sd aces s) as (_ & _ & Htab & Hstock & Hfaces & _).
  destruct (shuffledDeck_facts (default (difficulty s) d) sd (default (includeAces s) aces))
    as (Hnd & Hoid & Hlen).
  assert (length (shuffledDeck (canonDiff (default (difficulty s) d)) sd
                    (default (includeAces s) aces)) = 104%nat
          \/ length (shuffledDeck (canonDiff (default (difficulty s) d)) sd
                    (default (includeAces s) aces)) = 96%nat) as Hsize.
  { rewrite Hlen. destruct (default (includeAces s) aces); auto. }
  rewrite Hfaces, Htab, Hstock. split.
  - unfold rebaseAll. rewrite length_fmap, length_take, Hlen.
    by destruct (default (includeAces s) aces).
  - apply Forall_forall. intros col Hcol c Hc.
    apply list_elem_of_lookup in Hcol as [ci Hci].
    unfold top in Hc. rewrite last_lookup in Hc.
    rewrite (fresh_tableau_faces _ _ Hnd Hoid Hsize ci col _ c Hci Hc).
    apply bool_decide_eq_true_2. apply lookup_lt_Some in Hc. lia.
Qed.

(** X1. A first game conserves the cards: after [newGame], called with
    an empty foundations list, the piles hold 104 cards (96 without Aces)
    and no id occurs twice, for every difficulty, seed and Ace setting. *)
Theorem newGame_conserved (d : option string) (sd : list Z) (aces : option bool)
    (s : State) :
  foundationsCards s = [] -> conserved (newGame d sd aces s).
Proof.
  intros Hfc. pose proof (newGame_allCards d sd aces s Hfc) as HP.
  destruct (newGame_layout d sd aces s) as (_ & Hia & _).
  destruct (createDeck_facts (canonDiff (default (difficulty s) d))
              (default (includeAces s) aces) (canonDiff_cases _)) as (Hlen & _).
  destruct (createDeck_valid (canonDiff (default (difficulty s) d))
              (default (includeAces s) aces) (canonDiff_cases _)) as (Hnd & _).
  unfold conserved, deckSize. rewrite Hia, HP. split.
  - by rewrite length_fmap.
  - by rewrite <- list_fmap_compose.
Qed.

Lemma newGame_conserved_witness :
  foundationsCards state0 = [] /\ conserved (newGame (Some "4"%string) (codes "abc") (Some true) state0).
Proof. split; [reflexivity | apply newGame_conserved; reflexivity]. Defined.

(** X2. [verifyInventory] of [validation.js] accepts a new game exactly
    if the foundations list was empty when [newGame] was called: then the
    report has [ok = true], for every difficulty, seed and Ace setting.
    [newGame] resets the [foundations] counter but leaves the cards of
    earlier completed runs in the foundations list, and with such cards the
    new game is reported as inconsistent. *)
Theorem validation_accepts_new_game_iff (d : option string) (sd : list Z)
    (aces : option bool) (s : State) :
  Validation.ok (Validation.verifyInventory (newGame d sd aces s)) = true
  <-> foundationsCards s = [].
Proof.
  assert (Validation.ok (Validation.verifyInventory (newGame d sd aces s)) = true
          <-> Validation.issues (Validation.verifyInventory (newGame d sd aces s)) = [])
    as ->.
  { unfold Validation.verifyInventory. cbv zeta. cbn [Validation.ok Validation.issues].
    rewrite Nat.eqb_eq. split; [apply nil_length_inv | by intros ->]. }
  destruct (newGame_foundations d sd aces s) as [Hfc' Hf'].
  rewrite verifyInventory_issues. split.
  - intros (_ & _ & _ & _ & _ & Hfound & _). rewrite Hfc', Hf' in Hfound.
    apply nil_length_inv. lia.
  - intros Hfc.
    pose proof (newGame_allCards d sd aces s Hfc) as HP.
    destruct (newGame_layout d sd aces s) as (Hdiff & Hia & _ & _ & _ & Hdr & _).
    destruct (newGame_tops d sd aces s) as [Hstock Htops].
    destruct (createDeck_facts (canonDiff (default (difficulty s) d))
                (default (includeAces s) aces) (canonDiff_cases _)) as (Hlen & _).
    destruct (createDeck_valid (canonDiff (default (difficulty s) d))
                (default (includeAces s) aces) (canonDiff_cases _)) as (Hnd & Hsuit & Hrank).
    unfold deckSize.
    rewrite Hia, Hdiff, Hstock, Hdr, Hfc', Hf', Hfc. split_and!.
    + by rewrite HP, length_fmap.
    + by rewrite HP, <- list_fmap_compose.
    + rewrite <- Hsuit. apply suitIssues_Permutation.
      by rewrite HP, <- list_fmap_compose.
    + rewrite <- Hrank. apply rankIssues_Permutation.
      by rewrite HP, <- list_fmap_compose.
    + reflexivity.
    + reflexivity.
    + exact Htops.
Qed.

(** X3. What [ok = true] of [validation.js] guarantees, on every state:
    the piles hold exactly the deck (104 cards, 96 without Aces, no id
    twice), every rank from 2 to King occurs 8 times, [dealsRemaining] is
    the stock size divided by ten and rounded up, the foundations list
    holds [foundations] runs, and the top card of every column is face-up. *)
Theorem validation_ok_sound (s : State) :
  Validation.ok (Validation.verifyInventory s) = true ->
  conserved s
  /\ (forall r, 2 <= r <= 13 -> Validation.rankCount (allCards s) r = 8%nat)
  /\ dealsRemaining s = (Z.of_nat (length (stock s)) + 9) / 10
  /\ Z.of_nat (length (foundationsCards s))
     = foundations s * (if includeAces s then 13 else 12)
  /\ (forall col c, col ∈ tableau s -> top col = Some c -> faceUp (faces s) c = true).
Proof.
  intros Hok.
  assert (Validation.issues (Validation.verifyInventory s) = []) as Hnil.
  { unfold Validation.verifyInventory in *. cbv zeta in *.
    cbn [Validation.ok Validation.issues] in *.
    apply Nat.eqb_eq in Hok. by apply nil_length_inv. }
  apply verifyInventory_issues in Hnil as (Hlen & Hnd & _ & Hrank & Hdr & Hfc & Htop).
  apply rankIssues_nil in Hrank as [Hrank _].
  split_and!; try done.
  intros col c Hcol. by apply (proj1 (Forall_forall _ _) Htop).
Qed.

Lemma validation_ok_sound_witness :
  Validation.ok (Validation.verifyInventory dealt5) = true /\ conserved dealt5.
Proof.
  split; [vm_compute; reflexivity|].
  apply (validation_ok_sound dealt5). vm_compute. reflexivity.
Defined.

(** ** The id-range check of [logic.js] *)

Lemma logic_place_dups (cards : list Card) (loc : list Logic.Cell) (dups : list nat) :
  dups <> [] -> (foldl Logic.place (loc, dups) cards).2 <> [].
Proof.
  revert loc dups. induction cards as [|c cards IH]; intros loc dups Hne; [done|].
  cbn [foldl Logic.place]. apply IH.
  case_bool_decide; [done|]. by destruct dups.
Qed.

(** The marks in [loc] while no duplicate has been reported: slot [i] is
    still [null] exactly if [i] is below 104 and has not been placed. *)
Definition marks (loc : list Logic.Cell) (seen : list nat) : Prop :=
  length loc = 104%nat
  /\ (forall i, Logic.readLoc loc i = Logic.CNull <-> (i < 104)%nat /\ i ∉ seen)
  /\ NoDup seen
  /\ Forall (fun i => (i < 104)%nat) seen.

Lemma logic_place_spec (cards : list Card) (loc : list Logic.Cell) (seen : list nat) :
  marks loc seen ->
  (foldl Logic.place (loc, []) cards).2 = [] ->
  marks (foldl Logic.place (loc, []) cards).1 (seen ++ (id <$> cards)).
Proof.
  revert loc seen. induction cards as [|c cards IH]; intros loc seen Hm Hnil.
  - cbn [foldl fst fmap list_fmap]. by rewrite app_nil_r.
  - cbn [foldl Logic.place] in *. destruct Hm as (Hlen & Hnull & Hnd & Hlt104).
    case_bool_decide as Hc.
    + rewrite fmap_cons, (cons_middle (id c)), app_assoc. apply IH; [|done].
      apply Hnull in Hc as [Hlt Hnin].
      unfold Logic.writeLoc. rewrite Hlen.
      rewrite (proj2 (Nat.ltb_lt _ _) Hlt). split_and!.
      * by rewrite length_insert.
      * intros i. unfold Logic.readLoc. destruct (decide (i = id c)) as [->|Hne].
        -- rewrite list_lookup_insert_eq by lia. cbn. split; [done|].
           intros [_ Hn]. exfalso. apply Hn, elem_of_app. right. by left.
        -- rewrite list_lookup_insert_ne by done. fold (Logic.readLoc loc i).
           rewrite Hnull, elem_of_app, list_elem_of_singleton. tauto.
      * apply NoDup_app. split_and!; [done| |apply NoDup_singleton].
        by intros x Hx ->%list_elem_of_singleton.
      * apply Forall_app. split; [done|]. by apply Forall_singleton.
    + exfalso. by eapply logic_place_dups, Hnil.
Qed.

(** X4. The [verifyInventory] exported by [logic.js] can return
    [ok = true] only for a game with Aces: on every state, [ok = true]
    implies [includeAces] and that the piles hold the 104 ids 0..103 once
    each.  A game without Aces is never reported as consistent. *)
Theorem logic_verifier_needs_aces (s : State) :
  Logic.ok (Logic.verifyInventory s) = true ->
  includeAces s = true /\ conserved s /\ id <$> allCards s ≡ₚ seq 0 104.
Proof.
  unfold Logic.verifyInventory.
  pose proof (logic_place_spec (allCards s) (replicate 104 Logic.CNull) []) as Hspec.
  destruct (foldl Logic.place (replicate 104 Logic.CNull, []) (allCards s))
    as [loc dups] eqn:Hfold.
  cbv zeta. cbn [Logic.ok]. cbn [fst snd] in Hspec.
  rewrite !andb_true_iff, !Nat.eqb_eq. intros [[[Hd Hm] Htot] _].
  apply nil_length_inv in Hd. apply nil_length_inv in Hm.
  destruct Hspec as (Hlen & Hnull & Hnd & Hlt104); [|done|].
  { split_and!; [by rewrite length_replicate| |apply NoDup_nil_2|apply Forall_nil_2].
    intros i. unfold Logic.readLoc. split.
    - intros Hi. split; [|by intros ?%elem_of_nil].
      destruct (decide (i < 104)%nat) as [|Hge]; [done|].
      rewrite lookup_ge_None_2 in Hi by (rewrite length_replicate; lia). done.
    - intros [Hi _]. by rewrite lookup_replicate_2. }
  rewrite app_nil_l in Hnull, Hnd, Hlt104.
  assert (id <$> allCards s ≡ₚ seq 0 104) as HP.
  { apply NoDup_Permutation; [done | apply NoDup_seq|].
    intros i. rewrite elem_of_seq. split.
    - intros Hi. split; [lia|]. simpl.
      by apply (proj1 (Forall_forall _ _) Hlt104).
    - intros [_ Hi]. simpl in Hi.
      destruct (decide (i ∈ id <$> allCards s)) as [|Hnin]; [done|]. exfalso.
      assert (i ∈ filter (fun i => Logic.readLoc loc i = Logic.CNull) (seq 0 (length loc))) as Hin.
      { apply list_elem_of_filter. split; [by apply Hnull|]. apply elem_of_seq. lia. }
      rewrite Hm in Hin. by apply elem_of_nil in Hin. }
  assert (length (allCards s) = 104%nat) as Hl.
  { rewrite <- (length_fmap id), HP. apply length_seq. }
  unfold countCards in Htot. cbn [total] in Htot.
  assert (includeAces s = true) as Ha by (destruct (includeAces s); [done | lia]).
  split_and!; [done| |done].
  unfold conserved, deckSize. by rewrite Ha.
Qed.

Lemma logic_verifier_needs_aces_witness :
  let g := newGame (Some "1-suit"%string) (codes "test1") (Some true) state0 in
  Logic.ok (Logic.verifyInventory g) = true /\ includeAces g = true.
Proof.
  split; [vm_compute; reflexivity|].
  apply (logic_verifier_needs_aces
           (newGame (Some "1-suit"%string) (codes "test1") (Some true) state0)).
  vm_compute. reflexivity.
Defined.

(** ** Deals and moves keep the cards *)

Lemma mfold_None {A B} (step : B -> A -> option A) (l : list B) :
  foldl (fun oa b => a ← oa; step b a) None l = None.
Proof. induction l as [|b l IH]; [done | exact IH]. Qed.

Lemma mfold_cons {A B} (step : B -> A -> option A) (b : B) (l : list B) (a a' : A) :
  mfold step (b :: l) a = Some a' <-> exists a1, step b a = Some a1 /\ mfold step l a1 = Some a'.
Proof.
  unfold mfold. cbn [foldl mbind option_bind]. destruct (step b a) as [a1|].
  - split; [by exists a1 | by intros (? & [= <-] & ?)].
  - rewrite mfold_None. split; [done | by intros (? & [=] & _)].
Qed.

(** Replacing column [i] by what is left of it after taking [extra] away. *)
Lemma concat_insert_less {A} (l : list (list A)) (i : nat) (y x extra : list A) :
  l !! i = Some y -> y ≡ₚ x ++ extra -> concat (<[i := x]> l) ++ extra ≡ₚ concat l.
Proof.
  revert i. induction l as [|z l IH]; intros [|i] Hi HP; try done.
  - cbn in Hi. injection Hi as ->. cbn [concat insert list_insert].
    rewrite HP, <- !app_assoc. f_equiv. apply Permutation_app_comm.
  - cbn in Hi. change (<[S i := x]> (z :: l)) with (z :: <[i := x]> l).
    cbn [concat]. rewrite <- app_assoc. f_equiv. by apply IH.
Qed.

(** Pushing [extra] onto column [i]. *)
Lemma concat_insert_more {A} (l : list (list A)) (i : nat) (y extra : list A) :
  l !! i = Some y -> concat (<[i := y ++ extra]> l) ≡ₚ concat l ++ extra.
Proof.
  revert i. induction l as [|z l IH]; intros [|i] Hi; try done.
  - cbn in Hi. injection Hi as ->. cbn [concat insert list_insert].
    rewrite <- !app_assoc. f_equiv. apply Permutation_app_comm.
  - cbn in Hi. change (<[S i := y ++ extra]> (z :: l)) with (z :: <[i := y ++ extra]> l).
    cbn [concat]. rewrite <- app_assoc. f_equiv. by apply IH.
Qed.

Lemma spliceEach_from (idxs : list nat) (r0 c0 : list Card) :
  let rc := foldl (fun '(removed, col) idx =>
                     match col !! idx with
                     | Some c => (removed ++ [c], delete idx col)
                     | None => (removed, col)
                     end) (r0, c0) idxs in
  rc.2 ++ rc.1 ≡ₚ c0 ++ r0.
Proof.
  revert r0 c0. induction idxs as [|idx idxs IH]; intros r0 c0; [done|].
  cbn [foldl]. cbv zeta in *. destruct (c0 !! idx) as [c|] eqn:Hc; [|apply IH].
  rewrite IH. rewrite (delete_Permutation c0 idx c Hc) at 2.
  rewrite (Permutation_app_comm r0 [c]), app_assoc.
  f_equiv. symmetry. apply Permutation_cons_append.
Qed.

(** The splices of [tryComplete] split the column, they lose nothing. *)
Lemma tryComplete_Permutation col aces f rem rest :
  tryComplete col aces f = Some (rem, rest) -> col ≡ₚ rest ++ rem.
Proof.
  unfold tryComplete. destruct (_ <? _)%nat; [done|].
  destruct (findRun aces f col (length col)) as [idxs|]; [|done].
  intros [= H]. unfold spliceEach in H.
  pose proof (spliceEach_from (sortBy (fun a b => (b <=? a)%nat) idxs) [] col) as HP.
  cbv zeta in HP. rewrite H in HP. cbn [fst snd] in HP. by rewrite app_nil_r in HP.
Qed.

Lemma completeTopRun_allCards c aces s r :
  completeTopRun c aces s = Some r ->
  allCards r.2 ≡ₚ allCards s /\ includeAces r.2 = includeAces s.
Proof.
  unfold completeTopRun. intros H.
  apply bind_Some in H as (col & Hcol & H).
  destruct (tryComplete col aces (faces s)) as [[rem rest]|] eqn:Htry; simplify_eq/=;
    [|done].
  split; [|done]. unfold allCards. cbn [tableau stock foundationsCards].
  apply tryComplete_Permutation in Htry.
  rewrite <- (concat_insert_less (tableau s) c col rest rem Hcol Htry).
  rewrite <- !app_assoc. f_equiv.
  rewrite (Permutation_app_comm rem), <- !app_assoc. done.
Qed.

Lemma completeAll_allCards_from cols s s' :
  foldl (fun os c => s ← os; r ← completeTopRun c (includeAces s) s; Some r.2)
        (Some s) cols = Some s' ->
  allCards s' ≡ₚ allCards s /\ includeAces s' = includeAces s.
Proof.
  revert s. induction cols as [|c cols IH]; intros s H.
  - cbn in H. by injection H as ->.
  - cbn [foldl mbind option_bind] in H.
    destruct (completeTopRun c (includeAces s) s) as [r|] eqn:Hr.
    + cbn in H. apply IH in H as [HP Ha].
      apply completeTopRun_allCards in Hr as [HP' Ha'].
      split; [by rewrite HP | congruence].
    + cbn in H. by rewrite mfold_None in H.
Qed.

Lemma dealOne_cards c acc acc' :
  dealOne c acc = Some acc' ->
  concat acc'.1.1.1 ++ acc'.1.1.2 ≡ₚ concat acc.1.1.1 ++ acc.1.1.2.
Proof.
  destruct acc as [[[t stk] f] dealt]. unfold dealOne.
  destruct stk as [|card stk]; cbn [shift]; [by intros [= <-]|].
  intros H. apply bind_Some in H as (col & Hcol & [= <-]). cbn [fst snd].
  rewrite (concat_insert_more t c col [card] Hcol), <- app_assoc. done.
Qed.

Lemma dealLoop_cards n c acc acc' :
  dealLoop n c acc = Some acc' ->
  concat acc'.1.1.1 ++ acc'.1.1.2 ≡ₚ concat acc.1.1.1 ++ acc.1.1.2.
Proof.
  revert c acc. induction n as [|n IH]; intros c acc H.
  - cbn in H. by injection H as ->.
  - cbn [dealLoop] in H. apply bind_Some in H as (acc1 & H1 & H).
    apply IH in H. apply dealOne_cards in H1. by rewrite H.
Qed.

Lemma dealFinal_cards fuel c acc acc' :
  dealFinal fuel c acc = Some acc' ->
  concat acc'.1.1.1 ++ acc'.1.1.2 ≡ₚ concat acc.1.1.1 ++ acc.1.1.2.
Proof.
  revert c acc. induction fuel as [|n IH]; intros c acc H.
  - cbn in H. by injection H as ->.
  - cbn [dealFinal] in H. destruct acc as [[[t stk] f] dealt].
    destruct (c <? length stk)%nat; [|by injection H as <-].
    apply bind_Some in H as (acc1 & H1 & H).
    apply IH in H. apply dealOne_cards in H1. by rewrite H.
Qed.

Lemma dealRow_allCards s r :
  dealRow s = Some r -> allCards r.2 ≡ₚ allCards s /\ includeAces r.2 = includeAces s.
Proof.
  unfold dealRow. intros H.
  destruct (_ && _); [by injection H as <-|].
  apply bind_Some in H as (empty & _ & H).
  destruct empty; [by injection H as <-|].
  apply bind_Some in H as ([[[[t stk] f] dealt] dr] & Hdeal & H).
  apply bind_Some in H as (s1 & Hall & [= <-]).
  apply completeAll_allCards_from in Hall as [HP Ha]. cbn [snd].
  cbn [includeAces] in Ha. split; [|done].
  rewrite HP. unfold allCards. cbn [tableau stock foundationsCards].
  rewrite !app_assoc. f_equiv.
  destruct (_ && _ && _).
  - apply bind_Some in Hdeal as (acc & Hacc & [= -> _]).
    by apply dealFinal_cards in Hacc.
  - apply bind_Some in Hdeal as (acc & Hacc & [= -> _]).
    by apply dealLoop_cards in Hacc.
Qed.

Lemma checkWin_allCards s :
  allCards (checkWin s) = allCards s /\ includeAces (checkWin s) = includeAces s.
Proof. unfold checkWin. by destruct (_ =? _). Qed.

Lemma doMove_allCards from startIndex to s r :
  doMove from startIndex to s = Some r ->
  allCards r.2 ≡ₚ allCards s /\ includeAces r.2 = includeAces s.
Proof.
  unfold doMove. intros H.
  destruct (Nat.eqb_spec from to) as [|Hne]; [by injection H as <-|].
  apply bind_Some in H as (src & Hsrc & H).
  destruct (_ || _); [by injection H as <-|].
  destruct (negb _); [by injection H as <-|].
  apply bind_Some in H as (dst & Hdst & H).
  apply bind_Some in H as (head & _ & H).
  destruct (negb _); [by injection H as <-|].
  destruct (structuredClone _ _) as [clones f'].
  apply bind_Some in H as (r1 & Hr1 & H).
  apply bind_Some in H as (r2 & Hr2 & [= <-]).
  apply completeTopRun_allCards in Hr1 as [HP1 Ha1].
  apply completeTopRun_allCards in Hr2 as [HP2 Ha2].
  cbn [snd]. destruct (checkWin_allCards r2.2) as [-> ->].
  cbn [includeAces] in Ha1. split; [|congruence].
  rewrite HP2, HP1. unfold allCards. cbn [tableau stock foundationsCards].
  f_equiv.
  pose proof (concat_insert_more (tableau s) to dst (drop (Z.to_nat startIndex) src) Hdst)
    as Hmore.
  pose proof (concat_insert_less (<[to := dst ++ drop (Z.to_nat startIndex) src]> (tableau s))
                from src (take (Z.to_nat startIndex) src) (drop (Z.to_nat startIndex) src))
    as Hless.
  rewrite list_lookup_insert_ne in Hless by done.
  specialize (Hless Hsrc). rewrite take_drop in Hless. specialize (Hless (reflexivity _)).
  rewrite Hmore in Hless. by apply Permutation_app_inv_r in Hless.
Qed.

(** The operations that are not [undo] or [redo]. *)
Definition forwardOp (op : Op) : Prop :=
  match op with OpDeal | OpMove _ _ _ => True | OpUndo | OpRedo => False end.

Lemma play_forward_allCards ops s s' :
  Forall forwardOp ops -> play ops s = Some s' ->
  allCards s' ≡ₚ allCards s /\ includeAces s' = includeAces s.
Proof.
  revert s. induction ops as [|op ops IH]; intros s Hops H.
  - cbn in H. by injection H as ->.
  - apply Forall_cons in Hops as [Hop Hops].
    apply mfold_cons in H as (s1 & Hstep & H).
    apply (IH _ Hops) in H as [HP Ha].
    assert (allCards s1 ≡ₚ allCards s /\ includeAces s1 = includeAces s) as [HP1 Ha1].
    { destruct op; try done; cbn [step] in Hstep;
        apply bind_Some in Hstep as (r & Hr & [= <-]).
      - by apply dealRow_allCards.
      - by eapply doMove_allCards. }
    split; [by rewrite HP | congruence].
Qed.

(** X5. Deals and moves, with the completed runs they trigger, conserve
    the cards: after any sequence of [dealRow] and [doMove] calls, accepted
    or rejected, the piles hold the same cards as before (as a multiset),
    so a state that holds each id of the deck once still does.  Only [undo]
    and [redo] can break conservation. *)
Theorem deals_and_moves_conserve (ops : list Op) (s s' : State) :
  Forall forwardOp ops -> play ops s = Some s' ->
  allCards s' ≡ₚ allCards s /\ (conserved s -> conserved s').
Proof.
  intros Hops H. destruct (play_forward_allCards ops s s' Hops H) as [HP Ha].
  split; [done|]. unfold conserved, deckSize. by rewrite HP, Ha.
Qed.

Lemma deals_and_moves_conserve_witness :
  conserved (default state0 (play [OpMove 1 4 4; OpDeal; OpDeal] test1)).
Proof.
  apply (deals_and_moves_conserve [OpMove 1 4 4; OpDeal; OpDeal] test1).
  - repeat constructor.
  - vm_compute. reflexivity.
  - apply (bool_decide_unpack _). vm_compute. exact I.
Defined.

(** ** When a deal is accepted *)

Lemma anyEmpty_spec (t : list (list Card)) (cs : list nat) :
  (forall c, c ∈ cs -> (c < length t)%nat) ->
  exists b, anyEmpty t cs = Some b
            /\ (b = true <-> exists c, c ∈ cs /\ t !! c = Some []).
Proof.
  induction cs as [|c cs IH]; intros Hcs.
  - exists false. split; [done|]. split; [done|]. by intros (c & ?%elem_of_nil & _).
  - destruct (lookup_lt_is_Some_2 t c) as [col Hcol]; [apply Hcs; by left|].
    cbn [anyEmpty]. rewrite Hcol. cbn [mbind option_bind].
    destruct col as [|x col]; cbn [length Nat.eqb].
    + exists true. split; [done|]. split; [|done]. intros _. exists c. split; [by left | done].
    + destruct IH as (b & -> & Hb); [intros c' Hc'; apply Hcs; by right|].
      exists b. split; [done|]. rewrite Hb. split.
      * intros (c' & Hc' & Hnil). exists c'. split; [by right | done].
      * intros (c' & [->|Hc']%elem_of_cons & Hnil); [congruence|]. by exists c'.
Qed.

Lemma dealOne_total c acc :
  (c < length acc.1.1.1)%nat ->
  exists acc', dealOne c acc = Some acc' /\ length acc'.1.1.1 = length acc.1.1.1.
Proof.
  destruct acc as [[[t stk] f] dealt]. cbn [fst]. intros Hc. unfold dealOne.
  destruct stk as [|card stk]; cbn [shift]; [by eexists|].
  destruct (lookup_lt_is_Some_2 t c Hc) as [col ->]. cbn [mbind option_bind].
  eexists. split; [done|]. cbn [fst]. by rewrite length_insert.
Qed.

Lemma dealLoop_total n c acc :
  (c + n <= length acc.1.1.1)%nat ->
  exists acc', dealLoop n c acc = Some acc' /\ length acc'.1.1.1 = length acc.1.1.1.
Proof.
  revert c acc. induction n as [|n IH]; intros c acc Hc; [by eexists|].
  cbn [dealLoop]. destruct (dealOne_total c acc) as (acc1 & -> & Hlen); [lia|].
  cbn [mbind option_bind]. destruct (IH (S c) acc1) as (acc' & -> & Hlen'); [lia|].
  exists acc'. split; [done | congruence].
Qed.

Lemma dealFinal_total fuel c acc :
  (c + fuel <= length acc.1.1.1)%nat ->
  exists acc', dealFinal fuel c acc = Some acc' /\ length acc'.1.1.1 = length acc.1.1.1.
Proof.
  revert c acc. induction fuel as [|n IH]; intros c acc Hc; [by eexists|].
  cbn [dealFinal]. destruct acc as [[[t stk] f] dealt] eqn:Hacc.
  destruct (c <? length stk)%nat; [|by eexists].
  rewrite <- Hacc in *.
  destruct (dealOne_total c acc) as (acc1 & -> & Hlen); [lia|].
  cbn [mbind option_bind]. destruct (IH (S c) acc1) as (acc' & -> & Hlen'); [lia|].
  exists acc'. split; [done | congruence].
Qed.

(** X6. [dealRow] on ten columns always returns, and it returns [true]
    exactly if no column is empty and either deals remain or the stock is
    empty; otherwise it returns [false] and leaves the state as it was. *)
Theorem dealRow_accepted_iff (s : State) :
  length (tableau s) = 10%nat ->
  exists b s',
    dealRow s = Some (b, s')
    /\ (b = true <-> (0 < dealsRemaining s \/ stock s = [])
                     /\ Forall (fun col => col <> []) (tableau s))
    /\ (b = false -> s' = s).
Proof.
  intros Hlen. unfold dealRow.
  destruct (anyEmpty_spec (tableau s) (seq 0 10)) as (e & He & Hempty).
  { intros c [_ Hc]%elem_of_seq. lia. }
  assert (e = true <-> ~ Forall (fun col => col <> []) (tableau s)) as Hcols.
  { rewrite Hempty. split.
    - intros (c & _ & Hc) Hall. by apply (Forall_lookup_1 _ _ _ _ Hall Hc).
    - intros Hn. apply not_Forall_Exists in Hn; [|intros col; apply _].
      apply Exists_exists in Hn as (col & [c Hc]%list_elem_of_lookup & Hcol).
      apply dec_stable in Hcol. subst col. exists c. split; [|done].
      apply elem_of_seq. apply lookup_lt_Some in Hc. lia. }
  destruct ((dealsRemaining s <=? 0) && (0 <? length (stock s))%nat) eqn:Hguard.
  { exists false, s. split; [done|]. split; [|done]. split; [done|].
    intros [[Hd | Hst] _]; apply andb_true_iff in Hguard as [Hd' Hst'].
    - apply Z.leb_le in Hd'. lia.
    - rewrite Hst in Hst'. done. }
  rewrite He. cbn [mbind option_bind].
  assert (0 < dealsRemaining s \/ stock s = []) as Hdeals.
  { apply andb_false_iff in Hguard as [Hd | Hst].
    - apply Z.leb_gt in Hd. by left.
    - right. apply Nat.ltb_ge in Hst. apply nil_length_inv. lia. }
  destruct e.
  { exists false, s. split; [done|]. split; [|done]. split; [done|].
    intros [_ Hall]. exfalso. by apply (proj1 Hcols eq_refl). }
  assert (true = true <-> (0 < dealsRemaining s \/ stock s = [])
                           /\ Forall (fun col => col <> []) (tableau s)) as Hyes.
  { split; [|done]. intros _. split; [done|].
    destruct (decide (Forall (fun col => col <> []) (tableau s))) as [|Hn]; [done|].
    by apply Hcols in Hn. }
  cbv zeta. destruct (_ && _ && _) eqn:Hfinal.
  - apply andb_true_iff in Hfinal as [_ Hlt%Nat.ltb_lt].
    destruct (dealFinal_total (length (stock s)) 0 (tableau s, stock s, faces s, []))
      as ([[[t stk] f] dealt] & -> & Hl); [cbn [fst]; lia|].
    cbn [mbind option_bind fst] in *.
    match goal with |- context [completeAll ?s1] =>
      destruct (completeAll_only s1) as (s' & cs & -> & _) end.
    { cbn [tableau]. lia. }
    by exists true, s'.
  - destruct (dealLoop_total (Nat.min (length (stock s)) 10) 0
                (tableau s, stock s, faces s, []))
      as ([[[t stk] f] dealt] & -> & Hl); [cbn [fst]; lia|].
    cbn [mbind option_bind fst] in *.
    match goal with |- context [completeAll ?s1] =>
      destruct (completeAll_only s1) as (s' & cs & -> & _) end.
    { cbn [tableau]. lia. }
    by exists true, s'.
Qed.

Lemma dealRow_accepted_iff_witness :
  exists b s', dealRow test1 = Some (b, s') /\ b = true.
Proof.
  destruct (dealRow_accepted_iff test1) as (b & s' & H & Hb & _).
  - vm_compute. reflexivity.
  - exists b, s'. split; [exact H|]. apply Hb. split.
    + left. vm_compute. reflexivity.
    + apply (bool_decide_unpack _). vm_compute. exact I.
Defined.

(** ** What [tryComplete] removes *)

(** The cards [l] continue a chain that ends in [prev]: each is of suit
    [st] and one rank above or below the card before it. *)
Fixpoint linked (st : Suit) (prev : Card) (l : list Card) : Prop :=
  match l with
  | [] => True
  | c :: l' =>
      suit c = st /\ (rank c = rank prev + 1 \/ rank c = rank prev - 1) /\ linked st c l'
  end.

Definition shown (f : list bool) (l : list Card) : list Card :=
  filter (fun c => faceUp f c = true) l.

Lemma downFrom_snoc j k : downFrom j (S k) = downFrom j k ++ [(j - k)%nat].
Proof.
  revert j. induction k as [|k IH]; intros j.
  - cbn. f_equal. lia.
  - change (downFrom j (S (S k))) with (j :: downFrom (j - 1) (S k)).
    rewrite IH. cbn [downFrom app]. do 3 f_equal. lia.
Qed.

Lemma scanRun_shape (aces : bool) (f : list bool) (st : Suit) (below : list Card) :
  forall (j : nat) (sequence : list Card) (idxs out : list nat),
    scanRun aces f st below j sequence idxs = Some out ->
    exists (k : nat) (prev c : Card),
      (k < length below)%nat
      /\ out = idxs ++ downFrom j (S k)
      /\ last sequence = Some prev
      /\ linked st prev (shown f (take (S k) below))
      /\ (length sequence + length (shown f (take (S k) below))
          = if aces then 13 else 12)%nat
      /\ below !! k = Some c /\ faceUp f c = true
      /\ (aces = false -> isK2 (sequence ++ shown f (take (S k) below)) = true).
Proof.
  induction below as [|c below IH]; intros j sequence idxs out H; [done|].
  cbn [scanRun] in H. unfold shown in *. destruct (faceUp f c) eqn:Hup; cbn [negb] in H.
  - destruct (last sequence) as [prev|] eqn:Hlast; [|done].
    destruct (_ || _) eqn:Hstep in H; [|done].
    assert (suit c = st /\ (rank c = rank prev + 1 \/ rank c = rank prev - 1)) as [Hst Hrk].
    { apply orb_true_iff in Hstep as [Hs | Hs];
        apply andb_true_iff in Hs as [Hs1 Hs2];
        apply bool_decide_eq_true in Hs1; apply Z.eqb_eq in Hs2; auto. }
    destruct (_ || _) eqn:Hfull in H.
    + exists 0%nat, prev, c.
      assert (length (sequence ++ [c]) = if aces then 13 else 12)%nat as Hlen.
      { destruct aces; cbn [andb orb negb] in Hfull; rewrite ?orb_false_r in Hfull;
          by apply Nat.eqb_eq in Hfull. }
      rewrite length_app in Hlen. cbn [length firstn] in *.
      rewrite filter_cons_True by done. rewrite ?filter_nil.
      destruct (negb aces && _ && negb _) eqn:Hk2 in H; [done|].
      injection H as <-. split_and!; try done; try lia.
      intros ->. cbn [negb andb] in Hk2.
      rewrite length_app in Hk2. cbn [length] in Hk2.
      rewrite (proj2 (Nat.eqb_eq _ _) Hlen) in Hk2. cbn [andb] in Hk2.
      by apply negb_false_iff in Hk2.
    + apply IH in H as (k & prev' & c' & Hk & -> & Hlast' & Hlink & Hlen & Hc' & Hup' & HK2).
      rewrite last_snoc in Hlast'. injection Hlast' as <-.
      exists (S k), prev, c'. cbn [length firstn].
      rewrite filter_cons_True by done. cbn [length linked].
      rewrite length_app in Hlen. cbn [length] in Hlen.
      split_and!; try done; try lia.
      * rewrite <- app_assoc. done.
      * intros Ha. rewrite cons_middle, app_assoc. by apply HK2.
  - apply IH in H as (k & prev & c' & Hk & -> & Hlast & Hlink & Hlen & Hc' & Hup' & HK2).
    exists (S k), prev, c'. cbn [length firstn].
    rewrite filter_cons_False by (rewrite Hup; done).
    split_and!; try done; try lia.
    rewrite <- app_assoc. done.
Qed.

Lemma findRun_shape (aces : bool) (f : list bool) (col : list Card) (n : nat)
    (out : list nat) :
  findRun aces f col n = Some out ->
  exists (i : nat) (startCard : Card),
    col !! i = Some startCard /\ faceUp f startCard = true
    /\ scanRun aces f (suit startCard) (rev (take i col)) (i - 1)%nat [startCard] [i]
       = Some out.
Proof.
  induction n as [|i IH]; [done|]. cbn [findRun].
  destruct (col !! i) as [startCard|] eqn:Hi; [|done].
  destruct (faceUp f startCard) eqn:Hup; cbn [negb]; [|exact IH].
  destruct (scanRun _ _ _ _ _ _ _) as [idxs|] eqn:Hscan; [|exact IH].
  intros [= <-]. by exists i, startCard.
Qed.

Lemma spliceEach_middle (below run post removed : list Card) :
  foldl (fun '(removed, col) idx =>
           match col !! idx with
           | Some c => (removed ++ [c], delete idx col)
           | None => (removed, col)
           end) (removed, below ++ run ++ post)
        (downFrom (length (below ++ run) - 1) (length run))
  = (removed ++ rev run, below ++ post).
Proof.
  revert removed. induction run as [|x run IH] using rev_ind; intros removed.
  - cbn. by rewrite !app_nil_r.
  - rewrite !length_app. cbn [length].
    replace (length run + 1)%nat with (S (length run)) by lia.
    cbn [downFrom foldl].
    replace (length below + S (length run) - 1)%nat with (length (below ++ run))
      by (rewrite length_app; lia).
    assert ((below ++ (run ++ [x]) ++ post) !! length (below ++ run) = Some x) as ->.
    { rewrite <- !app_assoc, app_assoc. rewrite lookup_app_r by lia.
      by rewrite Nat.sub_diag. }
    assert (delete (length (below ++ run)) (below ++ (run ++ [x]) ++ post)
            = below ++ run ++ post) as ->.
    { rewrite <- !app_assoc, (app_assoc below run). rewrite delete_take_drop.
      rewrite take_app_length, drop_app_ge by lia.
      replace (S (length (below ++ run)) - length (below ++ run))%nat with 1%nat by lia.
      cbn [drop app]. by rewrite <- app_assoc. }
    rewrite IH, rev_unit. by rewrite <- app_assoc.
Qed.

(** The block that [tryComplete] splices out of the column. *)
Lemma tryComplete_block (col : list Card) (aces : bool) (f : list bool)
    (removed rest : list Card) :
  tryComplete col aces f = Some (removed, rest) ->
  exists (pre post : list Card) (start bottom : Card) (tl : list Card),
    col = pre ++ rev removed ++ post /\ rest = pre ++ post
    /\ head removed = Some start /\ last removed = Some bottom
    /\ faceUp f bottom = true
    /\ shown f removed = start :: tl /\ linked (suit start) start tl
    /\ length (start :: tl) = (if aces then 13 else 12)%nat
    /\ (aces = false -> isK2 (start :: tl) = true).
Proof.
  unfold tryComplete. destruct (_ <? _)%nat; [done|].
  destruct (findRun aces f col (length col)) as [out|] eqn:Hfind; [|done].
  intros [= Hsplice].
  apply findRun_shape in Hfind as (i & startCard & Hi & Hup & Hscan).
  apply scanRun_shape in Hscan
    as (k & prev & bottom & Hk & -> & [= <-] & Hlink & Hlen & Hbot & Hbup & HK2).
  rewrite length_rev in Hk.
  assert (length (take i col) = i) as Hti
    by (rewrite length_take; apply lookup_lt_Some in Hi; lia).
  rewrite Hti in Hk.
  set (T := take (S k) (rev (take i col))) in *.
  set (pre := rev (drop (S k) (rev (take i col)))).
  assert (length T = S k) as HT by (unfold T; rewrite length_take, length_rev; lia).
  assert (take i col = pre ++ rev T) as Htake.
  { unfold pre, T. rewrite <- rev_app_distr, take_drop. by rewrite rev_involutive. }
  assert (col = pre ++ (rev T ++ [startCard]) ++ drop (S i) col) as Hcol.
  { rewrite <- (take_drop_middle col i startCard Hi) at 1.
    rewrite Htake, <- !app_assoc. done. }
  assert (length pre + S k = i)%nat as Hpre.
  { rewrite <- Hti, Htake, length_app, length_rev. lia. }
  unfold spliceEach in Hsplice.
  change ([i] ++ downFrom (i - 1) (S k)) with (downFrom i (S (S k))) in Hsplice.
  rewrite sortBy_downFrom in Hsplice.
  pose proof (spliceEach_middle pre (rev T ++ [startCard]) (drop (S i) col) []) as Hmid.
  replace (length (pre ++ rev T ++ [startCard]) - 1)%nat with i in Hmid
    by (rewrite !length_app, length_rev; cbn [length]; lia).
  replace (length (rev T ++ [startCard])) with (S (S k)) in Hmid
    by (rewrite length_app, length_rev; cbn [length]; lia).
  rewrite <- Hcol in Hmid. rewrite Hmid in Hsplice. clear Hmid.
  cbn [app] in Hsplice.
  injection Hsplice as <- <-.
  rewrite rev_app_distr, rev_involutive. cbn [rev app].
  exists pre, (drop (S i) col), startCard, bottom, (shown f T).
  split_and!; try done.
  - rewrite last_cons. assert (last T = Some bottom) as ->; [|done].
    rewrite last_lookup, HT. unfold T. cbn [Nat.pred].
    by rewrite lookup_take_lt by lia.
  - unfold shown. by rewrite filter_cons_True.
Qed.

(** X7. What [tryComplete] takes out of a column, whenever it returns a
    run: one contiguous block of the column (not necessarily on top), given
    back from its top card downwards, whose top and bottom cards are
    face-up and whose face-up cards are 13 (12 without Aces) cards of the
    suit of the top card, each one rank above or below the one before; the
    rest of the column keeps its order.  Face-down cards inside the block
    are removed with it. *)
Theorem tryComplete_shape (col : list Card) (aces : bool) (f : list bool)
    (removed rest : list Card) :
  tryComplete col aces f = Some (removed, rest) ->
  exists (pre post : list Card) (start bottom : Card) (tl : list Card),
    col = pre ++ rev removed ++ post /\ rest = pre ++ post
    /\ head removed = Some start /\ last removed = Some bottom
    /\ faceUp f bottom = true
    /\ shown f removed = start :: tl /\ linked (suit start) start tl
    /\ length (start :: tl) = (if aces then 13 else 12)%nat
    /\ (aces = false -> isK2 (start :: tl) = true).
Proof. apply tryComplete_block. Qed.

(** A King-to-Ace run of spades lying under a 5 of hearts, all face-up. *)
Definition buriedRun : list Card :=
  ((fun k => mkCard k k Spade (13 - Z.of_nat k)) <$> seq 0 13) ++ [mkCard 13 13 Heart 5].

Lemma tryComplete_shape_witness :
  exists (pre post : list Card) (start bottom : Card) (tl : list Card),
    buriedRun = pre ++ rev (rev (take 13 buriedRun)) ++ post
    /\ [mkCard 13 13 Heart 5] = pre ++ post
    /\ head (rev (take 13 buriedRun)) = Some start
    /\ last (rev (take 13 buriedRun)) = Some bottom
    /\ faceUp (replicate 14 true) bottom = true
    /\ shown (replicate 14 true) (rev (take 13 buriedRun)) = start :: tl
    /\ linked (suit start) start tl
    /\ length (start :: tl) = 13%nat
    /\ (true = false -> isK2 (start :: tl) = true).
Proof.
  apply (tryComplete_shape buriedRun true (replicate 14 true)
           (rev (take 13 buriedRun)) [mkCard 13 13 Heart 5]).
  vm_compute. reflexivity.
Defined.

Lemma scanRun_linked (aces : bool) (f : list bool) (st : Suit) (chain : list Card) :
  forall (rest : list Card) (j : nat) (sequence : list Card) (idxs : list nat) (prev : Card),
    last sequence = Some prev ->
    Forall (fun c => faceUp f c = true) chain ->
    linked st prev chain ->
    chain <> [] ->
    (length sequence + length chain = if aces then 13 else 12)%nat ->
    (aces = false -> isK2 (sequence ++ chain) = true) ->
    scanRun aces f st (chain ++ rest) j sequence idxs
    = Some (idxs ++ downFrom j (length chain)).
Proof.
  induction chain as [|c chain IH];
    intros rest j sequence idxs prev Hlast Hups Hlink Hne Hlen HK2; [done|].
  apply Forall_cons in Hups as [Hup Hups]. destruct Hlink as (Hst & Hrank & Hlink).
  cbn [scanRun app]. rewrite Hup. cbn [negb]. rewrite Hlast.
  rewrite (bool_decide_eq_true_2 _ Hst).
  assert ((true && (rank c =? rank prev + 1)) || (true && (rank c =? rank prev - 1)) = true)
    as ->.
  { cbn [andb]. apply orb_true_iff. rewrite !Z.eqb_eq. tauto. }
  rewrite length_app. cbn [length] in *.
  destruct chain as [|c' chain].
  - cbn [length] in Hlen.
    assert ((aces && (length sequence + 1 =? 13)%nat)
            || (negb aces && (length sequence + 1 =? 12)%nat) = true) as ->.
    { destruct aces; cbn [andb orb negb]; rewrite ?orb_false_r;
        apply Nat.eqb_eq; lia. }
    destruct aces; cbn [negb andb].
    + done.
    + rewrite (HK2 eq_refl). replace (length sequence + 1 =? 12)%nat with true
        by (symmetry; apply Nat.eqb_eq; lia). done.
  - assert ((aces && (length sequence + 1 =? 13)%nat)
            || (negb aces && (length sequence + 1 =? 12)%nat) = false) as ->.
    { cbn [length] in Hlen. destruct aces; cbn [andb orb negb]; rewrite ?orb_false_r;
        apply Nat.eqb_neq; lia. }
    rewrite (IH rest (j - 1)%nat (sequence ++ [c]) (idxs ++ [j]) c).
    + by rewrite <- app_assoc.
    + by rewrite last_snoc.
    + done.
    + done.
    + done.
    + rewrite length_app. cbn [length] in *. lia.
    + intros Ha. rewrite <- app_assoc. by apply HK2.
Qed.

(** X8. Which columns [tryComplete] accepts: if the top 13 cards of a
    column (12 without Aces) are face-up, of one suit, and each is one rank
    above or below the card lying on it, then [tryComplete] removes exactly
    these cards.  With Aces nothing else is required: the cards need not run
    from King to Ace (3-4-3-4-5-...-King is accepted); without Aces the
    lowest of the twelve ranks must be 2 and the highest 13. *)
Theorem tryComplete_accepts_chain (aces : bool) (f : list bool)
    (below chain : list Card) (t : Card) :
  faceUp f t = true ->
  Forall (fun c => faceUp f c = true) chain ->
  linked (suit t) t chain ->
  (1 + length chain = if aces then 13 else 12)%nat ->
  (aces = false -> isK2 (t :: chain) = true) ->
  tryComplete (below ++ rev chain ++ [t]) aces f = Some (t :: chain, below).
Proof.
  intros Hup Hups Hlink Hlen HK2.
  assert (chain <> []) as Hne by (intros ->; destruct aces; simpl in *; lia).
  unfold tryComplete.
  assert ((length (below ++ rev chain ++ [t]) <? 14 - (if aces then 1 else 2))%nat = false)
    as ->.
  { apply Nat.ltb_ge. rewrite !length_app, length_rev. simpl. destruct aces; lia. }
  rewrite !app_assoc, length_app. cbn [length].
  replace (length (below ++ rev chain) + 1)%nat with (S (length (below ++ rev chain))) by lia.
  cbn [findRun]. rewrite lookup_app_r by lia. rewrite Nat.sub_diag. cbn [lookup list_lookup].
  rewrite Hup. cbn [negb]. rewrite take_app_length, rev_app_distr, rev_involutive.
  rewrite (scanRun_linked aces f (suit t) chain (rev below) _ [t] _ t);
    [| done | done | done | done | cbn [length]; lia | done].
  cbn [app].
  replace (S (length (below ++ rev chain)) - 1)%nat with (length (below ++ rev chain)) by lia.
  change (length (below ++ rev chain) :: downFrom (length (below ++ rev chain) - 1)
            (length chain))
    with (downFrom (length (below ++ rev chain)) (S (length chain))).
  rewrite sortBy_downFrom. unfold spliceEach.
  pose proof (spliceEach_downFrom below (rev chain ++ [t]) []) as Hs.
  replace (length (below ++ rev chain ++ [t]) - 1)%nat with (length (below ++ rev chain))
    in Hs by (rewrite !length_app; cbn [length]; lia).
  replace (length (rev chain ++ [t])) with (S (length chain)) in Hs
    by (rewrite length_app, length_rev; cbn [length]; lia).
  rewrite <- app_assoc, Hs. by rewrite rev_app_distr, rev_involutive.
Qed.

(** Thirteen spades, all face-up: King down to 3, then a 4 and a 3. *)
Definition zigzag : list Card :=
  ((fun k => mkCard k k Spade (13 - Z.of_nat k)) <$> seq 0 11)
    ++ [mkCard 11 11 Spade 4; mkCard 12 12 Spade 3].

Lemma tryComplete_accepts_chain_witness :
  tryComplete zigzag true (replicate 13 true) = Some (rev zigzag, []).
Proof.
  apply (tryComplete_accepts_chain true (replicate 13 true) []
           (rev (take 12 zigzag)) (mkCard 12 12 Spade 3)).
  - reflexivity.
  - apply (bool_decide_unpack _). vm_compute. exact I.
  - vm_compute. intuition lia.
  - reflexivity.
  - discriminate.
Defined.

(** ** The random numbers and the deck *)







(** X11. The deck of [createDeck], for every difficulty label: the card
    with id [i] has rank [i mod 13 + 1] and the suit at position [i / 13] of
    the difficulty's suit list, the ids run through 0..103 in order, and
    without Aces exactly the ids divisible by 13 are left out, so that the
    deck has 104 cards with Aces and 96 without. *)
Theorem createDeck_cards (base : nat) (diff : string) (aces : bool) :
  createDeck base diff aces
  = (fun i => mkCard (base + i) i (nth (i / 13) (suitsOf diff) Spade)
                     (Z.of_nat (i mod 13) + 1))
      <$> filter (fun i => aces = true \/ (i mod 13 <> 0)%nat) (seq 0 104)
  /\ length (createDeck base diff aces) = (if aces then 104 else 96)%nat.
Proof.
  rewrite createDeck_rebase. unfold createDeck, suitsOf.
  destruct (String.eqb diff "1-suit"); [|destruct (String.eqb diff "2-suit")];
    destruct aces; (split; [|vm_compute; reflexivity]).
  all: match goal with |- _ <$> ?l = _ <$> ?k =>
         let l' := eval vm_compute in l in
         let k' := eval vm_compute in k in
         change l with l'; change k with k' end.
  all: cbn [fmap list_fmap rebase oid id suit rank]; reflexivity.
Qed.

(** ** Undoing a completed run *)

(** King down to Ace of spades, face-up, alone on the table. *)
Definition fullRunState : State :=
  {| difficulty := "1-suit"; seed := []; rng := None; includeAces := true;
     tableau := ((fun k => mkCard k k Spade (13 - Z.of_nat k)) <$> seq 0 13)
                  :: replicate 9 [];
     stock := []; dealsRemaining := 0;
     foundations := 0; moves := 0; score := 500; history := [];
     redoStack := []; message := ""; won := false; foundationsCards := [];
     faces := replicate 13 true |}.

Lemma completeTopRun_top_run_witness :
  exists s',
    completeTopRun 0 true fullRunState = Some (true, s')
    /\ tableau s' = replicate 10 [] /\ foundations s' = 1 /\ score s' = 600.
Proof.
  destruct (completeTopRun_top_run fullRunState 0
              ((fun k => mkCard k k Spade (13 - Z.of_nat k)) <$> seq 0 13) true 13)
    as (s' & H & Ht & Hf & _ & _ & Hsc & _).
  - reflexivity.
  - reflexivity.
  - vm_compute. lia.
  - apply tailOk_validTail; [vm_compute; lia | vm_compute; reflexivity].
  - discriminate.
  - exists s'. split_and!; [exact H | exact Ht | exact Hf | exact Hsc].
Defined.

Lemma run_not_palindrome (f : list bool) (below run : list Card) :
  (2 <= length run)%nat ->
  validTail f (below ++ run) (length below) ->
  rev run <> run.
Proof.
  intros Hlen Hv Hrev.
  destruct run as [|t body _] using rev_ind; [cbn in Hlen; lia|].
  rewrite length_app in Hlen. cbn [length] in Hlen.
  pose proof (validTail_ascending f below body t Hv) as Hasc.
  apply ascending_ranks in Hasc. rewrite rev_unit in Hrev.
  destruct body as [|b body]; [cbn in Hlen; lia|].
  cbn [app] in Hrev. injection Hrev as <- _.
  cbn [rev] in Hasc. rewrite fmap_app, length_app in Hasc. cbn [fmap list_fmap length] in Hasc.
  replace (length (rev body) + 1)%nat with (S (length (rev body))) in Hasc by lia.
  rewrite seq_S, fmap_app in Hasc. cbn [fmap list_fmap] in Hasc.
  apply app_inj_2 in Hasc as [_ [= Hb]]; [lia | done].
Qed.

(** X13. Undoing a completed run does not put it back: when a face-up
    run of 13 cards (12 without Aces) on top of a column has been removed by
    [completeTopRun], the following [undo] restores the counter and the
    score, but it pushes the removed cards back in the order in which they
    were spliced out, top card first, so the run returns upside down and the
    column differs from what it was. *)
Theorem undo_completion_reverses (s : State) (c : nat) (col : list Card) (aces : bool)
    (n : nat) :
  n = (if aces then 13 else 12)%nat ->
  tableau s !! c = Some col ->
  (n <= length col)%nat ->
  validTail (faces s) col (length col - n) ->
  (aces = false -> exists t, top col = Some t /\ rank t = 2) ->
  exists s' s'',
    completeTopRun c aces s = Some (true, s')
    /\ undo s' = Some s''
    /\ tableau s'' = <[c := take (length col - n) col ++ rev (drop (length col - n) col)]>
                       (tableau s)
    /\ tableau s'' !! c <> Some col
    /\ foundations s'' = foundations s /\ score s'' = score s
    /\ history s'' = history s.
Proof.
  intros Hn Hcol Hlen Hv H2. unfold completeTopRun. rewrite Hcol. cbn [mbind option_bind].
  rewrite (tryComplete_top_run aces (faces s) col n) by done.
  eexists. eexists. split; [reflexivity|].
  unfold undo. cbn [history]. rewrite pop_snoc.
  cbn [tableau foundations score foundationsCards faces].
  rewrite list_lookup_insert_eq by (by eapply lookup_lt_Some).
  cbn [mbind option_bind]. split; [reflexivity|].
  cbn [tableau foundations score history]. rewrite list_insert_insert_eq.
  split_and!; [done| |lia|lia|done].
  rewrite list_lookup_insert_eq by (by eapply lookup_lt_Some).
  intros [= Heq].
  assert (take (length col - n) col ++ rev (drop (length col - n) col)
          = take (length col - n) col ++ drop (length col - n) col) as Heq'
    by (by rewrite take_drop).
  apply app_inv_head in Heq'. revert Heq'.
  apply (run_not_palindrome (faces s) (take (length col - n) col)).
  - rewrite length_drop. destruct aces; lia.
  - rewrite take_drop, length_take. by replace (_ `min` _)%nat with (length col - n)%nat by lia.
Qed.

Lemma undo_completion_reverses_witness :
  exists s' s'',
    completeTopRun 0 true fullRunState = Some (true, s')
    /\ undo s' = Some s''
    /\ tableau s'' !! 0%nat <> tableau fullRunState !! 0%nat.
Proof.
  destruct (undo_completion_reverses fullRunState 0
              ((fun k => mkCard k k Spade (13 - Z.of_nat k)) <$> seq 0 13) true 13)
    as (s' & s'' & H & Hu & _ & Hne & _).
  - reflexivity.
  - reflexivity.
  - vm_compute. lia.
  - apply tailOk_validTail; [vm_compute; lia | vm_compute; reflexivity].
  - discriminate.
  - exists s', s''. split_and!; [exact H | exact Hu | exact Hne].
Defined.

(** ** Undoing a full deal *)

Lemma setAll_back (f : list bool) (cards cards' : list Card) :
  Forall (fun c => faceUp f c = false) cards ->
  (forall c, c ∈ cards' -> c ∈ cards) ->
  setAll false cards (setAll true cards' f) = f.
Proof.
  intros Hdown Hsub. apply list_eq. intros i.
  rewrite !lookup_setAll, length_setAll.
  destruct (decide (i ∈ oid <$> cards /\ (i < length f)%nat)) as [[Hin Hlt]|Hn].
  - apply list_elem_of_fmap in Hin as (c & -> & Hc).
    pose proof (proj1 (Forall_forall _ _) Hdown c Hc) as Hf. unfold faceUp in Hf.
    destruct (lookup_lt_is_Some_2 f (oid c) Hlt) as [b Hb]. rewrite Hb in *.
    cbn in Hf. by subst b.
  - rewrite decide_False; [done|]. intros [Hin Hlt]. apply Hn. split; [|done].
    apply list_elem_of_fmap in Hin as (c & -> & Hc).
    by apply list_elem_of_fmap_2, Hsub.
Qed.

(** Ten cards dealt onto ten columns, and taken back. *)
Lemma deal_ten_explicit (t : list (list Card)) (stk : list Card) (f : list bool) :
  length t = 10%nat -> (10 <= length stk)%nat ->
  exists t1,
    dealLoop 10 0 (t, stk, f, [])
    = Some (t1, drop 10 stk, setAll true (rev (take 10 stk)) f, take 10 stk)
    /\ length t1 = 10%nat
    /\ forall f1, mfold undoDealOne (rev (seq 0 10)) (t1, drop 10 stk, f1)
                  = Some (t, stk, setAll false (take 10 stk) f1).
Proof.
  intros Ht Hs.
  do 10 (destruct t as [|? t]; [done|]). destruct t; [|done]. clear Ht.
  do 10 (destruct stk as [|? stk]; [cbn in Hs; lia|]). clear Hs.
  eexists. split; [reflexivity|]. split; [reflexivity|]. intros f1.
  unfold mfold. cbn [rev seq app foldl]. unfold undoDealOne.
  cbn [lookup list_lookup mbind option_bind insert list_insert drop].
  repeat (rewrite pop_snoc; cbn [mbind option_bind lookup list_lookup insert list_insert]).
  reflexivity.
Qed.

(** A full deal and its undo. *)
Lemma undo_full_deal_eq (s s' : State) (dealt : list Card) :
  length (tableau s) = 10%nat ->
  (10 <= length (stock s))%nat ->
  Forall (fun c => faceUp (faces s) c = false) (take 10 (stock s)) ->
  dealRow s = Some (true, s') ->
  history s' = history s ++ [EDeal dealt] ->
  dealt = take 10 (stock s)
  /\ stock s' = drop 10 (stock s)
  /\ exists s'',
       undo s' = Some s''
       /\ tableau s'' = tableau s /\ stock s'' = stock s /\ faces s'' = faces s
       /\ foundationsCards s'' = foundationsCards s
       /\ dealsRemaining s'' = dealsRemaining s
       /\ history s'' = history s
       /\ redoStack s'' = [EDeal dealt]
       /\ score s'' = Z.max 0 (score s - 1)
       /\ moves s'' = moves s + 2
       /\ foundations s'' = foundations s.
Proof.
  intros Ht Hs Hdown Hdeal Hhist. unfold dealRow in Hdeal.
  destruct (_ && _) in Hdeal; [done|].
  apply bind_Some in Hdeal as (e & _ & Hdeal). destruct e; [done|].
  assert ((length (stock s) <? 10)%nat = false) as Hge by (apply Nat.ltb_ge; lia).
  rewrite Hge, andb_false_r in Hdeal.
  replace (Nat.min (length (stock s)) 10) with 10%nat in Hdeal by lia.
  destruct (deal_ten_explicit (tableau s) (stock s) (faces s) Ht Hs)
    as (t1 & Hloop & Ht1 & Hundo).
  rewrite Hloop in Hdeal. cbn [mbind option_bind Nat.eqb] in Hdeal.
  apply bind_Some in Hdeal as (s1 & Hall & [= <-]).
  match type of Hall with completeAll ?s0 = _ =>
    destruct (completeAll_only s0) as (s1' & cs & Hall' & Hcs) end.
  { cbn [tableau]. lia. }
  rewrite Hall in Hall'. injection Hall' as <-.
  pose proof (co_history _ _ _ Hcs) as Hh. cbn [history] in Hh.
  rewrite Hhist, <- app_assoc in Hh. apply app_inv_head in Hh.
  injection Hh as -> <-.
  rewrite (co_none _ _ _ Hcs eq_refl) in *. cbn [stock].
  split; [done|]. split; [done|].
  unfold undo. cbn [history]. rewrite pop_snoc. cbn [tableau stock faces].
  rewrite Hundo. cbn [mbind option_bind]. eexists. split; [reflexivity|].
  cbn [tableau stock faces foundationsCards dealsRemaining history redoStack score moves
       foundations].
  split_and!; try done; try lia.
  apply setAll_back; [done|]. intros c Hc.
  apply list_elem_of_In, in_rev in Hc. by apply list_elem_of_In.
Qed.

(** X14. [undo] is the inverse of a full deal: when [dealRow] has dealt
    ten face-down stock cards onto ten columns and no run was completed,
    [undo] returns every card to its place and turns the ten cards face-down
    again, and it restores [dealsRemaining] and the history.  The point of
    score that the deal cost is not refunded, and the move counter counts
    both the deal and the undo. *)
Theorem undo_full_deal (s s' : State) (dealt : list Card) :
  length (tableau s) = 10%nat ->
  (10 <= length (stock s))%nat ->
  Forall (fun c => faceUp (faces s) c = false) (take 10 (stock s)) ->
  dealRow s = Some (true, s') ->
  history s' = history s ++ [EDeal dealt] ->
  dealt = take 10 (stock s)
  /\ stock s' = drop 10 (stock s)
  /\ exists s'',
       undo s' = Some s''
       /\ tableau s'' = tableau s /\ stock s'' = stock s /\ faces s'' = faces s
       /\ foundationsCards s'' = foundationsCards s
       /\ dealsRemaining s'' = dealsRemaining s
       /\ history s'' = history s
       /\ redoStack s'' = [EDeal dealt]
       /\ score s'' = Z.max 0 (score s - 1)
       /\ moves s'' = moves s + 2.
Proof.
  intros Ht Hs Hdown Hdeal Hhist.
  destruct (undo_full_deal_eq s s' dealt Ht Hs Hdown Hdeal Hhist)
    as (? & ? & s'' & ? & ? & ? & ? & ? & ? & ? & ? & ? & ? & _).
  split; [done|]. split; [done|]. exists s''. by split_and!.
Qed.

Lemma undo_full_deal_witness :
  exists s'', undo (default state0 (play [OpDeal] test1)) = Some s''
              /\ tableau s'' = tableau test1 /\ stock s'' = stock test1
              /\ faces s'' = faces test1.
Proof.
  destruct (undo_full_deal test1 (default state0 (play [OpDeal] test1))
              (take 10 (stock test1)))
    as (_ & _ & s'' & Hu & Ht & Hs & Hf & _).
  - vm_compute. reflexivity.
  - vm_compute. lia.
  - apply (bool_decide_unpack _). vm_compute. exact I.
  - vm_compute. reflexivity.
  - vm_compute. reflexivity.
  - exists s''. split_and!; [exact Hu | exact Ht | exact Hs | exact Hf].
Defined.

(** ** The stock in a game without undo *)

(** Ten columns, and ten stock cards for every remaining deal. *)
Definition tenPerDeal (s : State) : Prop :=
  length (tableau s) = 10%nat
  /\ Z.of_nat (length (stock s)) = 10 * dealsRemaining s
  /\ dealsRemaining s <= 5.

Lemma dealRow_tenPerDeal s r : tenPerDeal s -> dealRow s = Some r -> tenPerDeal r.2.
Proof.
  intros (Ht & Hs & Hd) Hdeal. unfold dealRow in Hdeal.
  destruct (_ && _) in Hdeal; [by injection Hdeal as <-|].
  apply bind_Some in Hdeal as (e & _ & Hdeal).
  destruct e; [by injection Hdeal as <-|].
  assert ((length (stock s) <? 10)%nat = false \/ length (stock s) = 0%nat) as Hcases
    by (destruct (Nat.ltb_spec (length (stock s)) 10); [right; lia | by left]).
  assert (exists t1 stk1 f1 dealt dr1,
    dealLoop (Nat.min (length (stock s)) 10) 0 (tableau s, stock s, faces s, [])
    = Some (t1, stk1, f1, dealt)
    /\ length t1 = 10%nat
    /\ dr1 = (if (Nat.min (length (stock s)) 10 =? 10)%nat then dealsRemaining s - 1
              else dealsRemaining s)
    /\ Z.of_nat (length stk1) = 10 * dr1 /\ dr1 <= 5) as Hloop.
  { destruct (Nat.le_gt_cases 10 (length (stock s))) as [Hge|Hlt].
    - destruct (deal_ten_explicit (tableau s) (stock s) (faces s) Ht Hge)
        as (t1 & Hl & Ht1 & _).
      replace (Nat.min (length (stock s)) 10) with 10%nat by lia.
      eexists _, _, _, _, _. split; [exact Hl|]. cbn [Nat.eqb].
      split_and!; [done|done| |lia]. rewrite length_drop. lia.
    - assert (length (stock s) = 0%nat) as H0 by lia. rewrite H0. cbn [Nat.min dealLoop Nat.eqb].
      eexists _, _, _, _, _. split; [reflexivity|]. split_and!; [done|done|lia|done]. }
  destruct Hloop as (t1 & stk1 & f1 & dealt & dr1 & Hl & Ht1 & Hdr1 & Hs1 & Hd1).
  assert ((dealsRemaining s =? 1) && (0 <? length (stock s))%nat
          && (length (stock s) <? 10)%nat = false) as Hfinal.
  { destruct Hcases as [-> | ->]; [apply andb_false_r | by rewrite andb_false_r]. }
  rewrite Hfinal, Hl in Hdeal. cbn [mbind option_bind] in Hdeal. rewrite <- Hdr1 in Hdeal.
  apply bind_Some in Hdeal as (s1 & Hall & [= <-]).
  match type of Hall with completeAll ?s0 = _ =>
    destruct (completeAll_only s0) as (s1' & cs & Hall' & Hcs) end.
  { cbn [tableau]. lia. }
  rewrite Hall in Hall'. injection Hall' as <-.
  unfold tenPerDeal. cbn [snd].
  rewrite (co_columns _ _ _ Hcs), (co_stock _ _ _ Hcs), (co_deals _ _ _ Hcs).
  cbn [tableau stock dealsRemaining]. done.
Qed.

Lemma checkWin_frame s :
  tableau (checkWin s) = tableau s /\ stock (checkWin s) = stock s
  /\ dealsRemaining (checkWin s) = dealsRemaining s.
Proof. unfold checkWin. by destruct (_ =? _). Qed.

Lemma doMove_tenPerDeal from startIndex to s r :
  tenPerDeal s -> doMove from startIndex to s = Some r -> tenPerDeal r.2.
Proof.
  intros (Ht & Hs & Hd) H. unfold doMove in H.
  destruct (from =? to)%nat; [by injection H as <-|].
  apply bind_Some in H as (src & Hsrc & H).
  destruct (_ || _); [by injection H as <-|].
  destruct (negb _); [by injection H as <-|].
  apply bind_Some in H as (dst & Hdst & H).
  apply bind_Some in H as (head & _ & H).
  destruct (negb _); [by injection H as <-|].
  destruct (structuredClone _ _) as [clones f'].
  apply bind_Some in H as (r1 & Hr1 & H).
  apply bind_Some in H as (r2 & Hr2 & [= <-]).
  apply completeTopRun_only in Hr1 as (cs1 & Hcs1 & _).
  apply completeTopRun_only in Hr2 as (cs2 & Hcs2 & _).
  unfold tenPerDeal. cbn [snd].
  destruct (checkWin_frame r2.2) as (-> & -> & ->).
  rewrite (co_columns _ _ _ Hcs2), (co_stock _ _ _ Hcs2), (co_deals _ _ _ Hcs2).
  rewrite (co_columns _ _ _ Hcs1), (co_stock _ _ _ Hcs1), (co_deals _ _ _ Hcs1).
  cbn [tableau stock dealsRemaining]. by rewrite !length_insert.
Qed.

Lemma newGame_tenPerDeal d sd aces s : tenPerDeal (newGame d sd aces s).
Proof.
  destruct (newGame_layout d sd aces s) as (_ & _ & Htab & _ & _ & Hdr & _).
  destruct (newGame_tops d sd aces s) as [Hstock _].
  unfold tenPerDeal. rewrite Hstock, Hdr. split_and!; [|done|done].
  destruct (shuffledDeck_facts (default (difficulty s) d) sd (default (includeAces s) aces))
    as (Hnd & Hoid & Hlen).
  assert (length (shuffledDeck (canonDiff (default (difficulty s) d)) sd
                    (default (includeAces s) aces)) = 104%nat
          \/ length (shuffledDeck (canonDiff (default (difficulty s) d)) sd
                    (default (includeAces s) aces)) = 96%nat) as Hsize.
  { rewrite Hlen. destruct (default (includeAces s) aces); auto. }
  pose proof (fresh_lengths _ (faces s) Hsize) as Hl.
  rewrite <- Htab in Hl. apply (f_equal length) in Hl.
  rewrite length_fmap in Hl. rewrite Hl. by destruct (decide _).
Qed.

(** X15. In a game played with deals and moves only, the stock always
    holds exactly ten cards for every remaining deal and the table has ten
    columns: [dealsRemaining] runs from 5 down to 0 as the stock goes from
    50 cards to none, every deal from a non-empty stock deals ten cards, and
    the branches of [dealRow] for a stock of fewer than ten cards are never
    taken. *)
Theorem forward_play_stock (d : option string) (sd : list Z) (aces : option bool)
    (s0 s : State) (ops : list Op) :
  Forall forwardOp ops ->
  play ops (newGame d sd aces s0) = Some s ->
  length (tableau s) = 10%nat
  /\ Z.of_nat (length (stock s)) = 10 * dealsRemaining s
  /\ 0 <= dealsRemaining s <= 5.
Proof.
  intros Hops Hplay.
  assert (tenPerDeal s) as (Ht & Hs & Hd); [|split_and!; [done|done|lia|done]].
  pose proof (newGame_tenPerDeal d sd aces s0) as Hinv.
  revert Hplay Hinv. generalize (newGame d sd aces s0). clear s0.
  induction Hops as [|op ops Hop Hops IH]; intros s0 Hplay Hinv.
  - cbn in Hplay. by injection Hplay as <-.
  - apply mfold_cons in Hplay as (s1 & Hstep & Hplay).
    apply (IH s1 Hplay).
    destruct op; try done; cbn [step] in Hstep;
      apply bind_Some in Hstep as (r & Hr & [= <-]).
    + by eapply dealRow_tenPerDeal.
    + by eapply doMove_tenPerDeal.
Qed.

Lemma forward_play_stock_witness :
  Z.of_nat (length (stock (default state0 (play [OpDeal; OpMove 1 4 4; OpDeal] test1)))) 
  = 10 * dealsRemaining (default state0 (play [OpDeal; OpMove 1 4 4; OpDeal] test1)).
Proof.
  apply (forward_play_stock (Some "1-suit"%string) (codes "test1") None state0
           (default state0 (play [OpDeal; OpMove 1 4 4; OpDeal] test1))
           [OpDeal; OpMove 1 4 4; OpDeal]).
  - repeat constructor.
  - vm_compute. reflexivity.
Defined.

(** ** Undoing a move *)

(** The object of card [c] exists in the store [f]. *)
Definition live (f : list bool) (c : Card) : Prop := (oid c < length f)%nat.

Lemma faceUp_app_live f ext c : live f c -> faceUp (f ++ ext) c = faceUp f c.
Proof. intros Hc. unfold faceUp. by rewrite lookup_app_l. Qed.

(** Cloning distinct objects: every card gets the next free address and
    the flag it has at that moment. *)
Lemma cloneCards_fresh (cards : list Card) :
  forall (seen : list (nat * nat)) (f : list bool),
    NoDup (oid <$> cards) ->
    Forall (live f) cards ->
    (forall c, c ∈ cards -> oid c ∉ seen.*1) ->
    cloneCards seen cards f
    = (imap (fun i c => mkCard (length f + i) (id c) (suit c) (rank c)) cards,
       f ++ (faceUp f <$> cards)).
Proof.
  induction cards as [|c cards IH]; intros seen f Hnd Hlive Hseen.
  - cbn. by rewrite app_nil_r.
  - rewrite fmap_cons in Hnd. apply NoDup_cons in Hnd as [Hc Hnd].
    apply Forall_cons in Hlive as [Hlc Hlive].
    cbn [cloneCards].
    assert (list_find (fun p : nat * nat => p.1 = oid c) seen = None) as ->.
    { apply list_find_None, Forall_forall. intros p Hp Heq.
      apply (Hseen c); [by left|]. rewrite <- Heq. by apply list_elem_of_fmap_2. }
    rewrite (IH ((oid c, length f) :: seen) (f ++ [faceUp f c])); [|done| |].
    + rewrite imap_cons, fmap_cons, length_app. cbn [length]. f_equal.
      * f_equal; [do 2 f_equal; lia|].
        apply imap_ext. intros i x _. cbn. f_equal. lia.
      * rewrite <- app_assoc. cbn [app]. do 2 f_equal.
        apply Forall_fmap_ext. eapply Forall_impl; [exact Hlive|].
        intros x Hx. by apply faceUp_app_live.
    + eapply Forall_impl; [exact Hlive|]. intros x Hx. unfold live in *.
      rewrite length_app. lia.
    + intros x Hx. rewrite fmap_cons. cbn [fst]. intros [Heq|Hin]%elem_of_cons.
      * apply Hc. rewrite <- Heq. by apply list_elem_of_fmap_2.
      * apply (Hseen x); [by right | done].
Qed.

Lemma findIndex_last (col : list Card) (t : Card) (rest : list Card) :
  NoDup (id <$> (col ++ [t])) ->
  findIndex (id t) ((col ++ [t]) ++ rest) = Some (length col).
Proof.
  induction col as [|c col IH]; intros Hnd.
  - cbn. by rewrite Nat.eqb_refl.
  - cbn [app findIndex] in *. rewrite fmap_cons in Hnd.
    apply NoDup_cons in Hnd as [Hc Hnd].
    destruct (Nat.eqb_spec (id c) (id t)) as [Heq|_].
    + exfalso. apply Hc. rewrite Heq, fmap_app. apply elem_of_app. right. by left.
    + by rewrite IH.
Qed.

Lemma viewCol_live (f f' : list bool) (col : list Card) :
  (forall c, live f c -> faceUp f' c = faceUp f c) ->
  Forall (live f) col -> viewCol f' col = viewCol f col.
Proof.
  intros Hf Hcol. unfold viewCol. apply Forall_fmap_ext.
  eapply Forall_impl; [exact Hcol|]. intros c Hc. unfold cardView. by rewrite Hf.
Qed.

Lemma Forall_concat_lookup {A} (P : A -> Prop) (t : list (list A)) i col :
  Forall P (concat t) -> t !! i = Some col -> Forall P col.
Proof.
  revert i. induction t as [|c t IH]; intros i Hall Hcol; [done|].
  cbn [concat] in Hall. apply Forall_app in Hall as [Hc Hall].
  destruct i as [|i]; cbn in Hcol; [by injection Hcol as <- | by eapply IH].
Qed.

Section UndoMove.
Variables (s : State) (w : bool) (from to start : nat) (src dst : list Card).
Hypothesis Hne : from <> to.
Hypothesis Hsrc : tableau s !! from = Some src.
Hypothesis Hdst : tableau s !! to = Some dst.
Hypothesis Hstart : (start < length src)%nat.
Hypothesis Hids : NoDup (id <$> src).
Hypothesis Hoids : NoDup (oid <$> src).
Hypothesis Hlive : Forall (live (faces s)) (allCards s).

Local Abbreviation moved := (drop start src).
Local Abbreviation src' := (take start src).
Local Abbreviation turned :=
  (match top src' with
   | Some c => if negb (faceUp (faces s) c) then Some c else None
   | None => None
   end).
Local Abbreviation f1 :=
  (match turned with Some c => setFaceUp c true (faces s) | None => faces s end).
Local Abbreviation clones := (structuredClone moved f1).1.
Local Abbreviation f2 := (structuredClone moved f1).2.

Lemma length_f1 : length f1 = length (faces s).
Proof. destruct turned; [apply length_insert | done]. Qed.

Lemma live_src : Forall (live (faces s)) src.
Proof.
  eapply Forall_concat_lookup; [|exact Hsrc].
  unfold allCards in Hlive. by apply Forall_app in Hlive as [? _].
Qed.

Lemma moved_unturned c : c ∈ moved -> faceUp f1 c = faceUp (faces s) c.
Proof.
  intros Hc. destruct (top src') as [t|] eqn:Ht; [|done].
  destruct (negb (faceUp (faces s) t)); [|done].
  rewrite faceUp_setFaceUp. destruct (decide (oid c = oid t)) as [Heq|]; [|done].
  exfalso. rewrite <- (take_drop start src), fmap_app in Hoids.
  apply NoDup_app in Hoids as (_ & Hdisj & _).
  apply (Hdisj (oid t)).
  - apply list_elem_of_fmap_2. unfold top in Ht. rewrite last_lookup in Ht.
    by eapply list_elem_of_lookup_2.
  - rewrite <- Heq. by apply list_elem_of_fmap_2.
Qed.

Lemma clone_spec :
  clones = imap (fun i c => mkCard (length (faces s) + i) (id c) (suit c) (rank c)) moved
  /\ f2 = f1 ++ (faceUp (faces s) <$> moved).
Proof.
  unfold structuredClone. rewrite cloneCards_fresh.
  - cbn [fst snd]. rewrite length_f1. split; [done|]. f_equal.
    apply Forall_fmap_ext, Forall_forall. intros c Hc. by apply moved_unturned.
  - eapply sublist_NoDup; [exact Hoids|]. rewrite fmap_drop. apply sublist_drop.
  - apply Forall_forall. intros c Hc. unfold live. rewrite length_f1.
    apply (proj1 (Forall_forall _ _) live_src).
    eapply elem_of_sublist; [exact Hc | apply sublist_drop].
  - intros c _ Hin. cbn in Hin. by apply elem_of_nil in Hin.
Qed.

(** The store after the undo: the old store, followed by the flags of the
    clones. *)
Lemma unturned :
  setTurned turned (src' ++ clones) false f2
  = faces s ++ (faceUp (faces s) <$> moved).
Proof.
  destruct clone_spec as [_ ->].
  destruct (top src') as [t|] eqn:Ht; [|done].
  destruct (faceUp (faces s) t) eqn:Hup; cbn [negb]; [done|].
  unfold top in Ht. apply last_Some in Ht as [body Hbody].
  unfold setTurned. rewrite Hbody.
  rewrite findIndex_last.
  - rewrite <- app_assoc, lookup_app_r by lia. rewrite Nat.sub_diag. cbn [app lookup list_lookup].
    assert (live (faces s) t) as Hlt.
    { apply (proj1 (Forall_forall _ _) live_src).
      eapply elem_of_sublist; [|apply (sublist_take _ start)].
      rewrite Hbody. apply elem_of_app. right. by left. }
    unfold setFaceUp, live in *.
    rewrite insert_app_l by (by rewrite length_insert).
    rewrite list_insert_insert_eq. f_equal. apply list_insert_id.
    unfold faceUp in Hup. destruct (lookup_lt_is_Some_2 _ _ Hlt) as [b Hb].
    rewrite Hb in *. cbn in Hup. by subst b.
  - rewrite <- Hbody. eapply sublist_NoDup; [exact Hids|].
    rewrite fmap_take. apply sublist_take.
Qed.

Lemma clones_view :
  viewCol (faces s ++ (faceUp (faces s) <$> moved)) clones = viewCol (faces s) moved.
Proof.
  destruct clone_spec as [-> _]. unfold viewCol. apply list_eq. intros i.
  rewrite !list_lookup_fmap, list_lookup_imap.
  destruct (moved !! i) as [c|] eqn:Hc; [|done]. cbn. f_equal.
  unfold cardView, faceUp. cbn [oid id suit rank]. f_equal.
  rewrite lookup_app_r by lia.
  replace (length (faces s) + i - length (faces s))%nat with i by lia.
  by rewrite list_lookup_fmap, Hc.
Qed.

Lemma undo_moved :
  exists s'',
    undo {| difficulty := difficulty s; seed := seed s; rng := rng s;
            includeAces := includeAces s;
            tableau := <[from := src']> (<[to := dst ++ moved]> (tableau s));
            stock := stock s;
            dealsRemaining := dealsRemaining s; foundations := foundations s;
            moves := moves s + 1; score := Z.max 0 (score s - 1);
            history := history s ++ [EMove from to clones turned];
            redoStack := []; message := message s; won := w;
            foundationsCards := foundationsCards s; faces := f2 |} = Some s''
    /\ layout s'' = layout s /\ history s'' = history s
    /\ dealsRemaining s'' = dealsRemaining s /\ foundations s'' = foundations s
    /\ score s'' = Z.max 0 (score s - 1) /\ moves s'' = moves s + 2
    /\ redoStack s'' = [EMove from to clones turned].
Proof.
  assert (from < length (tableau s))%nat as Hfl by (by eapply lookup_lt_Some).
  assert (to < length (tableau s))%nat as Htl by (by eapply lookup_lt_Some).
  assert (length clones = length moved) as Hlen.
  { destruct clone_spec as [-> _]. apply length_imap. }
  unfold undo. cbn [history]. rewrite pop_snoc. cbn [tableau].
  rewrite Hlen.
  repeat first
    [ rewrite list_lookup_insert_eq; [|rewrite ?length_insert; lia]
    | rewrite list_lookup_insert_ne; [|done]
    | rewrite splice_pushed
    | progress cbn [mbind option_bind] ].
  eexists. split; [reflexivity|].
  unfold layout.
  cbn [tableau stock foundationsCards faces score moves history redoStack
       dealsRemaining foundations].
  split_and!; try done; try lia.
  rewrite unturned.
  assert (forall c, live (faces s) c ->
            faceUp (faces s ++ (faceUp (faces s) <$> moved)) c = faceUp (faces s) c) as Hf
    by (intros c Hc; by apply faceUp_app_live).
  pose proof Hlive as Hl0. unfold allCards in Hl0. apply Forall_app in Hl0 as [Hlt Hl0].
  apply Forall_app in Hl0 as [Hls Hlf].
  f_equal; [f_equal|]; [|by apply viewCol_live..].
  apply list_eq. intros i. rewrite !list_lookup_fmap.
  destruct (decide (i = from)) as [->|Hifrom]; [|destruct (decide (i = to)) as [->|Hito]];
    repeat first
      [ rewrite list_lookup_insert_eq; [|rewrite ?length_insert; lia]
      | rewrite list_lookup_insert_ne; [|done] ].
  - rewrite Hsrc. cbn [fmap option_fmap option_map]. f_equal.
    unfold viewCol at 1. rewrite fmap_app.
    fold (viewCol (faces s ++ (faceUp (faces s) <$> moved)) clones).
    fold (viewCol (faces s ++ (faceUp (faces s) <$> moved)) src').
    rewrite clones_view.
    rewrite (viewCol_live (faces s) _ src' Hf).
    + unfold viewCol. by rewrite <- fmap_app, take_drop.
    + apply Forall_take, live_src.
  - rewrite Hdst. cbn [fmap option_fmap option_map]. f_equal.
    apply viewCol_live; [done|]. by eapply Forall_concat_lookup.
  - destruct (tableau s !! i) as [col|] eqn:Hcol; [|done].
    cbn [fmap option_fmap option_map]. f_equal.
    apply viewCol_live; [done|]. by eapply Forall_concat_lookup.
Qed.

End UndoMove.

(** A move without completion and its undo. *)
Lemma undo_plain_move_eq (s s' : State) (from to : nat) (startIndex : Z)
    (src clones : list Card) (turned : option Card) :
  tableau s !! from = Some src ->
  NoDup (id <$> src) -> NoDup (oid <$> src) ->
  Forall (live (faces s)) (allCards s) ->
  doMove from startIndex to s = Some (true, s') ->
  history s' = history s ++ [EMove from to clones turned] ->
  exists s'',
    undo s' = Some s''
    /\ layout s'' = layout s /\ history s'' = history s
    /\ dealsRemaining s'' = dealsRemaining s /\ foundations s'' = foundations s
    /\ score s'' = Z.max 0 (score s - 1) /\ moves s'' = moves s + 2
    /\ redoStack s'' = [EMove from to clones turned].
Proof.
  intros Hsrc Hids Hoids Hlive H Hhist. unfold doMove in H.
  destruct (Nat.eqb_spec from to) as [|Hne]; [done|].
  rewrite Hsrc in H. cbn [mbind option_bind] in H.
  destruct (Z.ltb_spec startIndex 0) as [|Hge]; [done|].
  destruct (Z.leb_spec (Z.of_nat (length src)) startIndex) as [|Hlt]; [done|].
  cbn [orb] in H. destruct (negb _) in H; [done|].
  apply bind_Some in H as (dst & Hdst & H).
  apply bind_Some in H as (head & _ & H).
  destruct (negb _) in H; [done|].
  pose proof (undo_moved s (won s) from to (Z.to_nat startIndex) src dst
                Hne Hsrc Hdst ltac:(lia) Hids Hoids Hlive) as Hu1.
  pose proof (undo_moved s true from to (Z.to_nat startIndex) src dst
                Hne Hsrc Hdst ltac:(lia) Hids Hoids Hlive) as Hu2.
  destruct (structuredClone _ _) as [clones0 f2] eqn:Hcl.
  cbn [fst snd] in Hu1, Hu2.
  apply bind_Some in H as (r1 & Hr1 & H).
  apply bind_Some in H as (r2 & Hr2 & [= <-]).
  apply completeTopRun_only in Hr1 as (cs1 & Hcs1 & _).
  apply completeTopRun_only in Hr2 as (cs2 & Hcs2 & _).
  assert (history (checkWin r2.2) = history r2.2) as Hcw
    by (unfold checkWin; by destruct (_ =? _)).
  rewrite Hcw, (co_history _ _ _ Hcs2), (co_history _ _ _ Hcs1) in Hhist.
  cbn [history] in Hhist. rewrite <- !app_assoc in Hhist.
  apply app_inv_head in Hhist. cbn [app] in Hhist.
  injection Hhist as <- <- Hcs.
  apply app_eq_nil in Hcs as [-> ->].
  rewrite (co_none _ _ _ Hcs2 eq_refl), (co_none _ _ _ Hcs1 eq_refl).
  unfold checkWin. cbn [foundations]. destruct (foundations s =? 8); [exact Hu2 | exact Hu1].
Qed.

(** X16. [undo] is the inverse of a move that completed no run: if the
    cards of the source column are distinct objects with distinct ids,
    [undo] right after an accepted [doMove] puts every card back in its
    column and position with its [faceUp] flag (the moved cards return as
    the clones kept in the history entry, and the card that the move turned
    is face-down again) and restores the history.  The point of score that
    the move cost is not refunded, and the move counter counts both the move
    and the undo. *)
Theorem undo_plain_move (s s' : State) (from to : nat) (startIndex : Z)
    (src clones : list Card) (turned : option Card) :
  tableau s !! from = Some src ->
  NoDup (id <$> src) -> NoDup (oid <$> src) ->
  Forall (live (faces s)) (allCards s) ->
  doMove from startIndex to s = Some (true, s') ->
  history s' = history s ++ [EMove from to clones turned] ->
  exists s'',
    undo s' = Some s''
    /\ layout s'' = layout s /\ history s'' = history s
    /\ dealsRemaining s'' = dealsRemaining s /\ foundations s'' = foundations s
    /\ score s'' = Z.max 0 (score s - 1) /\ moves s'' = moves s + 2
    /\ redoStack s'' = [EMove from to clones turned].
Proof. apply undo_plain_move_eq. Qed.

Lemma undo_plain_move_witness :
  exists s'', undo moved1 = Some s'' /\ layout s'' = layout test1.
Proof.
  destruct (undo_plain_move test1 moved1 1 4 4
              (default [] (tableau test1 !! 1%nat))
              (match last (history moved1) with
               | Some (EMove _ _ cl _) => cl | _ => [] end)
              (match last (history moved1) with
               | Some (EMove _ _ _ tu) => tu | _ => None end))
    as (s'' & Hu & Hl & _).
  - vm_compute. reflexivity.
  - apply (bool_decide_unpack _). vm_compute. exact I.
  - apply (bool_decide_unpack _). vm_compute. exact I.
  - apply Forall_forall. intros c Hc. unfold live.
    revert c Hc. apply Forall_forall. apply (bool_decide_unpack _). vm_compute. exact I.
  - vm_compute. reflexivity.
  - vm_compute. reflexivity.
  - exists s''. split; [exact Hu | exact Hl].
Defined.

(** ** Hints *)

(** A hint object of [computeHint]. *)
Record Hint := mkHint {
  hFrom : nat; hStart : nat; hTo : nat; hScore : Z; hCardCount : nat;
  hReasons : list string; hHeadRank : Z; hHeadSuit : Suit }.

(** The body of the innermost loop of [computeHint], for one destination. *)
Definition hintsTo (s : State) (from start : nat) (col : list Card) (head : Card)
    (to : nat) : option (list Hint) :=
  if (to =? from)%nat then Some []
  else
    dst ← tableau s !! to;
    let destTop := top dst in
    if canDrop head destTop then
      hidden ← (if (0 <? start)%nat
                then b ← col !! (start - 1)%nat; Some (negb (faceUp (faces s) b))
                else Some false);
      let builds :=
        match destTop with
        | Some d => bool_decide (suit d = suit head) && (rank d =? rank head + 1)
        | None => false
        end in
      let empties := (length col =? start + 1)%nat && (length dst =? 0)%nat in
      let score := (if hidden : bool then 3 else 0) + (if builds then 2 else 0)
                   + (if empties then 2 else 0) in
      let reasons := (if hidden : bool then ["Reveals a hidden card"%string] else [])
                     ++ (if builds then ["Builds same-suit sequence"%string] else [])
                     ++ (if empties then ["Creates an empty column"%string] else []) in
      Some [mkHint from start to score (length col - start)
                   (if (0 <? length reasons)%nat then reasons else ["Basic move"%string])
                   (rank head) (suit head)]
    else Some [].

(** The body of the loop over [start]. *)
Definition hintsStart (s : State) (from : nat) (col : list Card) (start : nat)
  : option (list Hint) :=
  head ← col !! start;
  if negb (faceUp (faces s) head) then Some []
  else if negb (tailOk (faces s) col start (length col - 1)) then Some []
  else @concat Hint <$> mapM (hintsTo s from start col head) (seq 0 10).

(** The body of the loop over [from]. *)
Definition hintsFrom (s : State) (from : nat) : option (list Hint) :=
  col ← tableau s !! from;
  if (length col =? 0)%nat then Some []
  else
    t ← top col;
    if negb (faceUp (faces s) t) then Some []
    else @concat Hint <$> mapM (hintsStart s from col) (seq 0 (length col)).

(** [b.score - a.score || a.cardCount - b.cardCount] *)
Definition hintCmp (a b : Hint) : Z :=
  if hScore b - hScore a =? 0 then Z.of_nat (hCardCount a) - Z.of_nat (hCardCount b)
  else hScore b - hScore a.

(** [computeHint()]; the sort is stable. *)
Definition computeHint (s : State) : option (list Hint) :=
  hints ← @concat Hint <$> mapM (hintsFrom s) (seq 0 10);
  Some (sortBy (fun a b => hintCmp a b <=? 0) hints).

(** Boolean form of the guards of [doMove]. *)
Lemma doMove_true_iff (s : State) (from : nat) (startIndex : Z) (to : nat) :
  (exists s', doMove from startIndex to s = Some (true, s'))
  <->
  from <> to /\
  exists src dst head,
    tableau s !! from = Some src /\ tableau s !! to = Some dst
    /\ 0 <= startIndex < Z.of_nat (length src)
    /\ src !! Z.to_nat startIndex = Some head
    /\ tailOk (faces s) src (Z.to_nat startIndex) (length src - 1) = true
    /\ canDrop head (top dst) = true.
Proof.
  unfold doMove. split.
  - intros [s' H].
    destruct (Nat.eqb_spec from to) as [|Hne]; [done|]. split; [done|].
    apply bind_Some in H as (src & Hsrc & H).
    destruct (Z.ltb_spec startIndex 0); [done|].
    destruct (Z.leb_spec (Z.of_nat (length src)) startIndex); [done|].
    cbn [orb] in H.
    destruct (tailOk _ _ _ _) eqn:Htail; [|done]. cbn [negb] in H.
    apply bind_Some in H as (dst & Hdst & H).
    apply bind_Some in H as (head & Hhead & H).
    destruct (canDrop head (top dst)) eqn:Hdrop; [|done].
    exists src, dst, head. rewrite lookup_drop, Nat.add_0_r in Hhead.
    split_and!; try done; try lia.
  - intros (Hne & src & dst & head & Hsrc & Hdst & Hidx & Hhead & Htail & Hacc).
    destruct (Nat.eqb_spec from to) as [|_]; [done|].
    rewrite Hsrc. cbn [mbind option_bind].
    destruct (Z.ltb_spec startIndex 0); [lia|].
    destruct (Z.leb_spec (Z.of_nat (length src)) startIndex); [lia|].
    cbn [orb]. rewrite Htail. cbn [negb].
    rewrite Hdst. cbn [mbind option_bind]. rewrite lookup_drop, Nat.add_0_r, Hhead.
    cbn [mbind option_bind]. rewrite Hacc. cbn [negb].
    destruct (structuredClone _ _) as [clones f'].
    match goal with |- context [completeTopRun to ?a ?s1] =>
      destruct (completeTopRun_total to a s1) as [r1 Hr1];
      [|rewrite Hr1] end.
    { cbn [tableau]. rewrite !length_insert. by eapply lookup_lt_Some. }
    cbn [mbind option_bind].
    destruct (completeTopRun_total from (includeAces r1.2) r1.2) as [r2 Hr2].
    { destruct (completeTopRun_only _ _ _ _ Hr1) as (cs & Hcs & _).
      rewrite (co_columns _ _ _ Hcs). cbn [tableau]. rewrite !length_insert.
      by eapply lookup_lt_Some. }
    rewrite Hr2. cbn [mbind option_bind]. eauto.
Qed.

(** Collecting the hints of a loop. *)
Lemma collect_spec {A B} (g : A -> option (list B)) (l : list A) :
  Forall (fun x => is_Some (g x)) l ->
  exists hs, @concat B <$> mapM g l = Some hs
             /\ forall h, h ∈ hs <-> exists x k, x ∈ l /\ g x = Some k /\ h ∈ k.
Proof.
  induction l as [|x l IH]; intros Hall.
  - exists []. split; [done|]. intros h. split; [by intros ?%elem_of_nil|].
    by intros (x & k & ?%elem_of_nil & _).
  - apply Forall_cons in Hall as [[k Hk] Hall].
    destruct (IH Hall) as (hs & Hhs & Hin).
    apply fmap_Some in Hhs as (ks & Hks & ->).
    exists (k ++ concat ks). split.
    + cbn [mapM]. rewrite Hk. cbn [mbind option_bind]. rewrite Hks. done.
    + intros h. rewrite elem_of_app, Hin. split.
      * intros [Hh | (y & k' & Hy & Hgy & Hh)].
        -- exists x, k. split_and!; [by left | done | done].
        -- exists y, k'. split_and!; [by right | done | done].
      * intros (y & k' & [->|Hy]%elem_of_cons & Hgy & Hh).
        -- left. congruence.
        -- right. by exists y, k'.
Qed.

(** The move [from], [start], [to] passes the tests of [computeHint]. *)
Definition hinted (s : State) (from start to : nat) : Prop :=
  (from < 10)%nat /\ (to < 10)%nat /\ to <> from /\
  exists src dst head t,
    tableau s !! from = Some src /\ tableau s !! to = Some dst
    /\ src !! start = Some head /\ top src = Some t
    /\ faceUp (faces s) t = true /\ faceUp (faces s) head = true
    /\ tailOk (faces s) src start (length src - 1) = true
    /\ canDrop head (top dst) = true.

Lemma hintsTo_spec (s : State) (from start to : nat) (col : list Card) (head : Card) :
  (to < length (tableau s))%nat -> (start < length col)%nat ->
  exists k, hintsTo s from start col head to = Some k
    /\ (forall h, h ∈ k ->
          hFrom h = from /\ hStart h = start /\ hTo h = to
          /\ 0 <= hScore h <= 7 /\ hCardCount h = (length col - start)%nat)
    /\ ((exists h, h ∈ k)
        <-> to <> from /\ exists dst, tableau s !! to = Some dst
                                      /\ canDrop head (top dst) = true).
Proof.
  intros Hto Hstart. unfold hintsTo.
  destruct (Nat.eqb_spec to from) as [->|Hne].
  { exists []. split; [done|]. split; [by intros h ?%elem_of_nil|].
    split; [by intros [h ?%elem_of_nil] | by intros [? _]]. }
  destruct (lookup_lt_is_Some_2 _ _ Hto) as [dst Hdst]. rewrite Hdst.
  cbn [mbind option_bind].
  destruct (canDrop head (top dst)) eqn:Hdrop.
  - assert (exists hidden : bool,
              (if (0 <? start)%nat
               then b ← col !! (start - 1)%nat; Some (negb (faceUp (faces s) b))
               else Some false) = Some hidden) as [hidden ->].
    { destruct (0 <? start)%nat; [|by eexists].
      destruct (lookup_lt_is_Some_2 col (start - 1)) as [b ->]; [lia|]. by eexists. }
    cbn [mbind option_bind]. eexists. split; [reflexivity|]. split.
    + intros h ->%list_elem_of_singleton. cbn [hFrom hStart hTo hScore hCardCount].
      split_and!; try done; destruct hidden, (top dst) as [d|];
        repeat (match goal with |- context [if ?b then _ else _] => destruct b end); lia.
    + split; [|intros _; eexists; by left].
      intros _. split; [done|]. by exists dst.
  - exists []. split; [done|]. split; [by intros h ?%elem_of_nil|].
    split; [by intros [h ?%elem_of_nil]|].
    intros (_ & dst' & Hdst' & Hd). congruence.
Qed.

Lemma hintsStart_spec (s : State) (from start : nat) (col : list Card) :
  length (tableau s) = 10%nat -> (start < length col)%nat ->
  exists k, hintsStart s from col start = Some k
    /\ (forall h, h ∈ k ->
          hFrom h = from /\ hStart h = start
          /\ 0 <= hScore h <= 7 /\ hCardCount h = (length col - start)%nat)
    /\ (forall to, (exists h, h ∈ k /\ hTo h = to)
        <-> (to < 10)%nat /\ to <> from /\
            exists dst head, tableau s !! to = Some dst /\ col !! start = Some head
              /\ faceUp (faces s) head = true
              /\ tailOk (faces s) col start (length col - 1) = true
              /\ canDrop head (top dst) = true).
Proof.
  intros Hten Hstart. unfold hintsStart.
  destruct (lookup_lt_is_Some_2 _ _ Hstart) as [head Hhead]. rewrite Hhead.
  cbn [mbind option_bind].
  destruct (faceUp (faces s) head) eqn:Hup; cbn [negb].
  2: { exists []. split; [done|]. split; [by intros h ?%elem_of_nil|].
       intros to. split; [by intros (h & ?%elem_of_nil & _)|].
       intros (_ & _ & dst & head' & _ & [= <-] & Hup' & _). congruence. }
  destruct (tailOk (faces s) col start (length col - 1)) eqn:Htail; cbn [negb].
  2: { exists []. split; [done|]. split; [by intros h ?%elem_of_nil|].
       intros to. split; [by intros (h & ?%elem_of_nil & _)|].
       by intros (_ & _ & dst & head' & _ & _ & _ & ? & _). }
  destruct (collect_spec (hintsTo s from start col head) (seq 0 10)) as (hs & -> & Hin).
  { apply Forall_forall. intros to [_ Hto]%elem_of_seq.
    destruct (hintsTo_spec s from start to col head) as (k & Hk & _); [lia|done|].
    by exists k. }
  exists hs. split; [done|]. split.
  - intros h (to & k & [_ Hto]%elem_of_seq & Hk & Hh)%Hin.
    destruct (hintsTo_spec s from start to col head) as (k' & Hk' & Hall & _); [lia|done|].
    rewrite Hk in Hk'. injection Hk' as <-.
    destruct (Hall h Hh) as (? & ? & ? & ? & ?). done.
  - intros to. split.
    + intros (h & (to' & k & [_ Hto]%elem_of_seq & Hk & Hh)%Hin & Heq).
      destruct (hintsTo_spec s from start to' col head) as (k' & Hk' & Hall & Hex);
        [lia|done|].
      rewrite Hk in Hk'. injection Hk' as <-.
      destruct (Hall h Hh) as (_ & _ & Hto' & _). rewrite Heq in Hto'. subst to'.
      destruct (proj1 Hex (ex_intro _ h Hh)) as (Hne & dst & Hdst & Hdrop).
      split_and!; [lia|done|]. by exists dst, head.
    + intros (Hto & Hne & dst & head' & Hdst & [= <-] & _ & _ & Hdrop).
      destruct (hintsTo_spec s from start to col head) as (k & Hk & Hall & Hex);
        [lia|done|].
      destruct (proj2 Hex) as [h Hh]; [split; [done|]; by exists dst|].
      exists h. split; [|by destruct (Hall h Hh) as (_ & _ & ? & _)].
      apply Hin. exists to, k. split_and!; [apply elem_of_seq; lia | done | done].
Qed.

Lemma hintsFrom_spec (s : State) (from : nat) :
  length (tableau s) = 10%nat -> (from < 10)%nat ->
  exists k, hintsFrom s from = Some k
    /\ (forall h, h ∈ k ->
          hFrom h = from /\ 0 <= hScore h <= 7 /\ (1 <= hCardCount h)%nat)
    /\ (forall start to, (exists h, h ∈ k /\ hStart h = start /\ hTo h = to)
                         <-> hinted s from start to).
Proof.
  intros Hten Hfrom. unfold hintsFrom, hinted.
  destruct (lookup_lt_is_Some_2 (tableau s) from) as [col Hcol]; [lia|]. rewrite Hcol.
  cbn [mbind option_bind].
  destruct (Nat.eqb_spec (length col) 0) as [Hnil|Hlen].
  { exists []. split; [done|]. split; [by intros h ?%elem_of_nil|].
    intros start to. split; [by intros (h & ?%elem_of_nil & _)|].
    intros (_ & _ & _ & src & dst & head & t & [= <-] & _ & Hhead & _).
    apply lookup_lt_Some in Hhead. lia. }
  destruct (top col) as [t|] eqn:Ht.
  2: { unfold top in Ht. apply last_None in Ht. subst col. done. }
  cbn [mbind option_bind].
  destruct (faceUp (faces s) t) eqn:Hup; cbn [negb].
  2: { exists []. split; [done|]. split; [by intros h ?%elem_of_nil|].
       intros start to. split; [by intros (h & ?%elem_of_nil & _)|].
       intros (_ & _ & _ & src & dst & head & t' & [= <-] & _ & _ & Ht' & Hup' & _).
       congruence. }
  destruct (collect_spec (hintsStart s from col) (seq 0 (length col))) as (hs & -> & Hin).
  { apply Forall_forall. intros start [_ Hstart]%elem_of_seq.
    destruct (hintsStart_spec s from start col) as (k & Hk & _); [done|lia|].
    by exists k. }
  exists hs. split; [done|]. split.
  - intros h (start & k & [_ Hstart]%elem_of_seq & Hk & Hh)%Hin.
    destruct (hintsStart_spec s from start col) as (k' & Hk' & Hall & _); [done|lia|].
    rewrite Hk in Hk'. injection Hk' as <-.
    destruct (Hall h Hh) as (? & ? & ? & ?). split_and!; try done; lia.
  - intros start to. split.
    + intros (h & (start' & k & [_ Hstart]%elem_of_seq & Hk & Hh)%Hin & Hs & Heq).
      destruct (hintsStart_spec s from start' col) as (k' & Hk' & Hall & Hex); [done|lia|].
      rewrite Hk in Hk'. injection Hk' as <-.
      destruct (Hall h Hh) as (_ & Hs' & _). rewrite Hs in Hs'. subst start'.
      destruct (proj1 (Hex to)) as (Hto & Hne & dst & head & Hdst & Hhead & Hhup & Htail & Hd).
      { by exists h. }
      split_and!; [done|done|done|]. by exists col, dst, head, t.
    + intros (_ & Hto & Hne & src & dst & head & t' & [= <-] & Hdst & Hhead & _ & _
              & Hhup & Htail & Hd).
      assert (start < length col)%nat as Hstart by (by eapply lookup_lt_Some).
      destruct (hintsStart_spec s from start col) as (k & Hk & Hall & Hex); [done|done|].
      destruct (proj2 (Hex to)) as (h & Hh & Hhto).
      { split_and!; [done|done|]. by exists dst, head. }
      exists h. split; [|split; [by destruct (Hall h Hh) as (_ & ? & _) | done]].
      apply Hin. exists start, k. split_and!; [apply elem_of_seq; lia | done | done].
Qed.

Lemma insertSorted_Permutation {A} (leb : A -> A -> bool) (x : A) (l : list A) :
  insertSorted leb x l ≡ₚ x :: l.
Proof.
  induction l as [|y l IH]; [done|]. cbn [insertSorted].
  destruct (leb x y); [done|]. rewrite IH. apply Permutation_swap.
Qed.

Lemma sortBy_Permutation {A} (leb : A -> A -> bool) (l : list A) : sortBy leb l ≡ₚ l.
Proof.
  induction l as [|x l IH]; [done|]. cbn [sortBy foldr].
  fold (sortBy leb l). by rewrite insertSorted_Permutation, IH.
Qed.

(** Every element is related to all later ones. *)
Fixpoint ordered {A} (R : A -> A -> Prop) (l : list A) : Prop :=
  match l with
  | [] => True
  | x :: l' => Forall (R x) l' /\ ordered R l'
  end.

Lemma ordered_lookup {A} (R : A -> A -> Prop) (l : list A) (i j : nat) (a b : A) :
  ordered R l -> (i < j)%nat -> l !! i = Some a -> l !! j = Some b -> R a b.
Proof.
  revert i j. induction l as [|x l IH]; intros i j Hord Hij Ha Hb; [done|].
  destruct Hord as [Hx Hl].
  destruct j as [|j]; [lia|]. destruct i as [|i]; cbn in Ha, Hb.
  - injection Ha as ->. apply (proj1 (Forall_forall _ _) Hx).
    by eapply list_elem_of_lookup_2.
  - apply (IH i j); [done | lia | done | done].
Qed.

Lemma sortBy_ordered {A} (leb : A -> A -> bool) (l : list A) :
  (forall a b, leb a b = false -> leb b a = true) ->
  (forall a b c, leb a b = true -> leb b c = true -> leb a c = true) ->
  ordered (fun a b => leb a b = true) (sortBy leb l).
Proof.
  intros Htotal Htrans.
  assert (forall x k, ordered (fun a b => leb a b = true) k ->
            ordered (fun a b => leb a b = true) (insertSorted leb x k)) as Hins.
  { intros x k. induction k as [|y k IH]; intros Hk.
    - by split.
    - destruct Hk as [Hy Hk]. cbn [insertSorted].
      destruct (leb x y) eqn:Hxy.
      + split; [|by split]. constructor; [done|].
        eapply Forall_impl; [exact Hy|]. intros z Hz. by eapply Htrans.
      + split; [|by apply IH].
        rewrite insertSorted_Permutation. constructor; [by apply Htotal | done]. }
  induction l as [|x l IH]; [done|]. cbn [sortBy foldr]. by apply Hins.
Qed.

(** X17. The hints are exactly the moves the engine accepts: on ten
    columns [computeHint] returns, and its list has a hint for the move
    ([from], [start], [to]) exactly if both columns exist, [doMove] accepts
    the move, and the card at [start] and the top card of the source column
    are face-up. *)
Theorem computeHint_moves (s : State) :
  length (tableau s) = 10%nat ->
  exists hs,
    computeHint s = Some hs
    /\ forall from start to,
         (exists h, h ∈ hs /\ hFrom h = from /\ hStart h = start /\ hTo h = to)
         <-> ((from < 10)%nat /\ (to < 10)%nat
              /\ (exists s', doMove from (Z.of_nat start) to s = Some (true, s'))
              /\ exists src head t,
                   tableau s !! from = Some src /\ src !! start = Some head
                   /\ top src = Some t /\ faceUp (faces s) head = true
                   /\ faceUp (faces s) t = true).
Proof.
  intros Hten. unfold computeHint.
  destruct (collect_spec (hintsFrom s) (seq 0 10)) as (hs & -> & Hin).
  { apply Forall_forall. intros from [_ Hfrom]%elem_of_seq.
    destruct (hintsFrom_spec s from) as (k & Hk & _); [done|lia|].
    by exists k. }
  cbn [mbind option_bind]. eexists. split; [reflexivity|].
  intros from start to.
  assert ((exists h, h ∈ hs /\ hFrom h = from /\ hStart h = start /\ hTo h = to)
          <-> hinted s from start to) as Hhs.
  { split.
    - intros (h & (from' & k & [_ Hfrom]%elem_of_seq & Hk & Hh)%Hin & Hf & Hs & Ht).
      destruct (hintsFrom_spec s from') as (k' & Hk' & Hall & Hex); [done|lia|].
      rewrite Hk in Hk'. injection Hk' as <-.
      destruct (Hall h Hh) as (Hf' & _). rewrite Hf in Hf'. subst from'.
      apply Hex. by exists h.
    - intros Hhint. pose proof Hhint as (Hfrom & _).
      destruct (hintsFrom_spec s from) as (k & Hk & Hall & Hex); [done|done|].
      apply Hex in Hhint as (h & Hh & Hs & Ht).
      exists h. split; [|split; [by destruct (Hall h Hh) as (? & _) | done]].
      apply Hin. exists from, k. split_and!; [apply elem_of_seq; lia | done | done]. }
  assert ((exists h, h ∈ sortBy (fun a b => hintCmp a b <=? 0) hs
                     /\ hFrom h = from /\ hStart h = start /\ hTo h = to)
          <-> hinted s from start to) as ->.
  { rewrite <- Hhs. split; intros (h & Hh & ?); exists h; (split; [|done]).
    - by rewrite sortBy_Permutation in Hh.
    - by rewrite sortBy_Permutation. }
  rewrite doMove_true_iff. rewrite Nat2Z.id. unfold hinted. split.
  - intros (Hfrom & Hto & Hne & src & dst & head & t & Hsrc & Hdst & Hhead & Ht & Hup & Hhup
            & Htail & Hd).
    split_and!; [done|done|done| |by exists src, head, t].
    exists src, dst, head. split_and!; try done; try lia.
    apply lookup_lt_Some in Hhead. lia.
  - intros (Hfrom & Hto & (Hne & src & dst & head & Hsrc & Hdst & _ & Hhead & Htail & Hd)
            & src' & head' & t & Hsrc' & Hhead' & Ht & Hhup & Hup).
    rewrite Hsrc in Hsrc'. injection Hsrc' as <-.
    rewrite Hhead in Hhead'. injection Hhead' as <-.
    split_and!; [done|done|done|]. by exists src, dst, head, t.
Qed.

Lemma computeHint_moves_witness :
  exists hs, computeHint test1 = Some hs /\ hs <> [].
Proof.
  destruct (computeHint_moves test1) as (hs & H & Hiff); [vm_compute; reflexivity|].
  exists hs. split; [exact H|].
  destruct (proj2 (Hiff 1%nat 4%nat 4%nat)) as (h & Hh & _).
  - split_and!; [lia | lia | | ].
    + eexists. vm_compute. reflexivity.
    + eexists _, _, _. split_and!; vm_compute; reflexivity.
  - intros ->. by apply elem_of_nil in Hh.
Defined.

(** X18. The order of the hints: [computeHint] returns them sorted by
    score, highest first, and among hints of equal score by the number of
    cards moved, fewest first; every score lies between 0 and 7 and every
    hint moves at least one card. *)
Theorem computeHint_sorted (s : State) (hs : list Hint) :
  length (tableau s) = 10%nat ->
  computeHint s = Some hs ->
  (forall i j a b, (i < j)%nat -> hs !! i = Some a -> hs !! j = Some b ->
     hScore b < hScore a
     \/ (hScore b = hScore a /\ (hCardCount a <= hCardCount b)%nat))
  /\ Forall (fun h => 0 <= hScore h <= 7 /\ (1 <= hCardCount h)%nat) hs.
Proof.
  intros Hten. unfold computeHint.
  destruct (collect_spec (hintsFrom s) (seq 0 10)) as (hs0 & -> & Hin).
  { apply Forall_forall. intros from [_ Hfrom]%elem_of_seq.
    destruct (hintsFrom_spec s from) as (k & Hk & _); [done|lia|].
    by exists k. }
  cbn [mbind option_bind]. intros [= <-]. split.
  - intros i j a b Hij Ha Hb.
    assert ((hintCmp a b <=? 0) = true) as Hab.
    { apply (ordered_lookup (fun x y => (hintCmp x y <=? 0) = true)
               (sortBy (fun x y => hintCmp x y <=? 0) hs0) i j a b); [|done..].
      apply (sortBy_ordered (fun x y => hintCmp x y <=? 0)).
      - intros x y. rewrite Z.leb_gt, Z.leb_le. unfold hintCmp.
        destruct (Z.eqb_spec (hScore y - hScore x) 0), (Z.eqb_spec (hScore x - hScore y) 0);
          lia.
      - intros x y z. rewrite !Z.leb_le. unfold hintCmp.
        destruct (Z.eqb_spec (hScore y - hScore x) 0), (Z.eqb_spec (hScore z - hScore y) 0),
          (Z.eqb_spec (hScore z - hScore x) 0); lia. }
    apply Z.leb_le in Hab. unfold hintCmp in Hab.
    destruct (Z.eqb_spec (hScore b - hScore a) 0); lia.
  - rewrite sortBy_Permutation. apply Forall_forall.
    intros h (from & k & [_ Hfrom]%elem_of_seq & Hk & Hh)%Hin.
    destruct (hintsFrom_spec s from) as (k' & Hk' & Hall & _); [done|lia|].
    rewrite Hk in Hk'. injection Hk' as <-.
    by destruct (Hall h Hh) as (_ & ? & ?).
Qed.

Lemma computeHint_sorted_witness :
  Forall (fun h => 0 <= hScore h <= 7 /\ (1 <= hCardCount h)%nat)
         (default [] (computeHint dealt5)).
Proof.
  apply (computeHint_sorted dealt5 (default [] (computeHint dealt5))).
  - vm_compute. reflexivity.
  - vm_compute. reflexivity.
Defined.

(** ** Saving and resuming a game *)

(** [x|0] on an integer. *)
Definition toInt32 (x : Z) : Z := (x + 2147483648) mod 4294967296 - 2147483648.

(** The object built by [serializeGameState] (its [waste] is always
    empty); a card is stored as its value [id], [suit], [rank], [faceUp]. *)
Record Snapshot := mkSnapshot {
  snSeed : list Z; snDifficulty : string; snMoves : Z; snScore : Z;
  snStock : list (nat * Suit * Z * bool); snTableaus : list (list (nat * Suit * Z * bool)); snFoundations : list (nat * Suit * Z * bool) }.

(** The [meta] argument of [loadSnapshot], as the history panel passes it. *)
Record Meta := mkMeta { mDifficulty : option string; mSeed : option (list Z) }.

(** [serializeGameState()] *)
Definition serializeGameState (s : State) : Snapshot :=
  {| snSeed := seed s; snDifficulty := difficulty s;
     snMoves := toInt32 (moves s); snScore := toInt32 (score s);
     snStock := viewCol (faces s) (stock s);
     snTableaus := viewCol (faces s) <$> tableau s;
     snFoundations := viewCol (faces s) (foundationsCards s) |}.

(** [p.map(cloneCard)]: every card value becomes a new object. *)
Definition clonePile (p : list (nat * Suit * Z * bool)) (f : list bool) : list Card * list bool :=
  foldl (fun '(cs, f) v => (cs ++ [mkCard (length f) v.1.1.1 v.1.1.2 v.1.2], f ++ [v.2]))
        ([], f) p.

(** [snap.tableaus.map(clonePile)] *)
Definition clonePiles (ps : list (list (nat * Suit * Z * bool))) (f : list bool)
  : list (list Card) * list bool :=
  foldl (fun '(t, f) p => let '(cs, f) := clonePile p f in (t ++ [cs], f)) ([], f) ps.

(** [window.Game.loadSnapshot(snap, meta)] for a snapshot built by
    [serializeGameState]. *)
Definition loadSnapshot (snap : Snapshot) (meta : option Meta) (s : State) : State :=
  let diff := canonDiff (default (snDifficulty snap) (meta ≫= mDifficulty)) in
  let sd := default (snSeed snap) (meta ≫= mSeed) in
  let '(t, f) := clonePiles (snTableaus snap) (faces s) in
  let '(stk, f) := clonePile (snStock snap) f in
  let '(fc, f) := clonePile (snFoundations snap) f in
  {| difficulty := diff; seed := sd;
     rng := Some (Prng.hashSeed (codes diff ++ [58] ++ sd));
     includeAces := includeAces s; tableau := t; stock := stk;
     dealsRemaining := Z.max 0 (5 - (50 - Z.of_nat (length stk)) / 10);
     foundations := Z.of_nat (length fc) / 13;
     moves := toInt32 (snMoves snap); score := toInt32 (snScore snap);
     history := []; redoStack := []; message := message s; won := false;
     foundationsCards := fc; faces := f |}.

Lemma clonePile_from (p : list (nat * Suit * Z * bool)) (cs : list Card) (f : list bool) :
  foldl (fun '(cs, f) v => (cs ++ [mkCard (length f) v.1.1.1 v.1.1.2 v.1.2], f ++ [v.2]))
        (cs, f) p
  = (cs ++ imap (fun i v => mkCard (length f + i) v.1.1.1 v.1.1.2 v.1.2) p,
     f ++ (snd <$> p)).
Proof.
  revert cs f. induction p as [|v p IH]; intros cs f.
  - cbn. by rewrite !app_nil_r.
  - cbn [foldl]. rewrite IH, imap_cons, fmap_cons, <- !app_assoc. cbn [app].
    rewrite Nat.add_0_r. do 3 f_equal.
    apply imap_ext. intros i x _. cbn. rewrite length_app. cbn [length]. f_equal. lia.
Qed.

Lemma clonePile_spec (p : list (nat * Suit * Z * bool)) (f : list bool) :
  clonePile p f
  = (imap (fun i v => mkCard (length f + i) v.1.1.1 v.1.1.2 v.1.2) p, f ++ (snd <$> p)).
Proof. unfold clonePile. by rewrite clonePile_from. Qed.

(** Cloned cards show the values they were made from, also after more
    objects have been allocated. *)
Lemma clonePile_view (p : list (nat * Suit * Z * bool)) (f ext : list bool) :
  viewCol ((clonePile p f).2 ++ ext) (clonePile p f).1 = p.
Proof.
  rewrite clonePile_spec. cbn [fst snd]. unfold viewCol. apply list_eq. intros i.
  rewrite list_lookup_fmap, list_lookup_imap.
  destruct (p !! i) as [[[[i0 st] r] b]|] eqn:Hi; [|done]. cbn. f_equal.
  unfold cardView, faceUp. cbn [oid id suit rank]. do 1 f_equal.
  rewrite <- app_assoc, lookup_app_r by lia.
  replace (length f + i - length f)%nat with i by lia.
  rewrite lookup_app_l by (rewrite length_fmap; by eapply lookup_lt_Some).
  by rewrite list_lookup_fmap, Hi.
Qed.

Lemma clonePile_grows (p : list (nat * Suit * Z * bool)) (f : list bool) :
  exists ext, (clonePile p f).2 = f ++ ext.
Proof. rewrite clonePile_spec. by eexists. Qed.

Lemma clonePile_eq (p : list (nat * Suit * Z * bool)) (f f1 : list bool) (cs : list Card) :
  clonePile p f = (cs, f1) ->
  (exists ext, f1 = f ++ ext) /\ length cs = length p
  /\ forall ext, viewCol (f1 ++ ext) cs = p.
Proof.
  intros H. split_and!.
  - destruct (clonePile_grows p f) as [ext Hext]. rewrite H in Hext. by exists ext.
  - rewrite clonePile_spec in H. injection H as <- _. apply length_imap.
  - intros ext. pose proof (clonePile_view p f ext) as Hv. by rewrite H in Hv.
Qed.

Lemma clonePiles_from (ps : list (list (nat * Suit * Z * bool))) :
  forall (t t1 : list (list Card)) (f f1 : list bool),
    foldl (fun '(t, f) p => let '(cs, f) := clonePile p f in (t ++ [cs], f)) (t, f) ps
    = (t1, f1) ->
    (exists ext, f1 = f ++ ext)
    /\ exists t', t1 = t ++ t' /\ forall ext, viewCol (f1 ++ ext) <$> t' = ps.
Proof.
  induction ps as [|p ps IH]; intros t t1 f f1 H.
  - cbn in H. injection H as <- <-. split; [exists []; by rewrite app_nil_r|].
    exists []. by rewrite app_nil_r.
  - cbn [foldl] in H. destruct (clonePile p f) as [cs f0] eqn:Hp.
    apply clonePile_eq in Hp as ([e0 ->] & _ & Hv).
    apply IH in H as ([e1 ->] & t' & -> & Hvs). split.
    + exists (e0 ++ e1). by rewrite app_assoc.
    + exists (cs :: t'). split; [by rewrite <- app_assoc|].
      intros ext. rewrite fmap_cons, Hvs. f_equal.
      rewrite <- (app_assoc (f ++ e0)). apply Hv.
Qed.

Lemma loadSnapshot_layout (snap : Snapshot) (meta : option Meta) (s : State) :
  layout (loadSnapshot snap meta s)
  = (snTableaus snap, snStock snap, snFoundations snap)
  /\ length (stock (loadSnapshot snap meta s)) = length (snStock snap)
  /\ length (foundationsCards (loadSnapshot snap meta s)) = length (snFoundations snap).
Proof.
  unfold loadSnapshot, clonePiles.
  destruct (foldl _ _ (snTableaus snap)) as [t f1] eqn:Ht.
  destruct (clonePile (snStock snap) f1) as [stk f2] eqn:Hs.
  destruct (clonePile (snFoundations snap) f2) as [fc f3] eqn:Hf.
  unfold layout. cbn [tableau stock foundationsCards faces].
  apply clonePiles_from in Ht as (_ & t' & -> & Hvt). rewrite app_nil_l.
  apply clonePile_eq in Hs as ([e2 ->] & Hls & Hvs).
  apply clonePile_eq in Hf as ([e3 ->] & Hlf & Hvf).
  split_and!; [|done|done].
  f_equal; [f_equal|].
  - rewrite <- app_assoc. apply Hvt.
  - apply Hvs.
  - rewrite <- (app_nil_r ((f1 ++ e2) ++ e3)). apply Hvf.
Qed.

Lemma toInt32_small (x : Z) : -2147483648 <= x < 2147483648 -> toInt32 x = x.
Proof. intros Hx. unfold toInt32. rewrite Z.mod_small; lia. Qed.

Lemma toInt32_idemp (x : Z) : toInt32 (toInt32 x) = toInt32 x.
Proof.
  apply toInt32_small. unfold toInt32.
  pose proof (Z.mod_pos_bound (x + 2147483648) 4294967296). lia.
Qed.

(** X19. A saved game resumes as it was saved: [loadSnapshot] applied
    to the result of [serializeGameState] lays out every column, the stock
    and the foundations list with the same cards (id, suit, rank, faceUp) in
    the same order, whatever game was on the table, and restores the seed,
    the difficulty label, the move counter and the score (as 32-bit
    integers).  The history and the redo stack are emptied, [won] is reset,
    the Ace setting is not part of the snapshot and stays as it is, and
    [foundations] and [dealsRemaining] are computed from the pile sizes. *)
Theorem snapshot_roundtrip (s s0 : State) :
  let g := loadSnapshot (serializeGameState s) None s0 in
  layout g = layout s
  /\ seed g = seed s /\ difficulty g = canonDiff (difficulty s)
  /\ moves g = toInt32 (moves s) /\ score g = toInt32 (score s)
  /\ history g = [] /\ redoStack g = [] /\ won g = false
  /\ includeAces g = includeAces s0
  /\ foundations g = Z.of_nat (length (foundationsCards s)) / 13
  /\ dealsRemaining g = Z.max 0 (5 - (50 - Z.of_nat (length (stock s))) / 10).
Proof.
  intros g.
  destruct (loadSnapshot_layout (serializeGameState s) None s0) as (Hl & Hs & Hf).
  fold g in Hl, Hs, Hf.
  assert (seed g = seed s /\ difficulty g = canonDiff (difficulty s)
          /\ moves g = toInt32 (moves s) /\ score g = toInt32 (score s)
          /\ history g = [] /\ redoStack g = [] /\ won g = false
          /\ includeAces g = includeAces s0
          /\ foundations g = Z.of_nat (length (foundationsCards g)) / 13
          /\ dealsRemaining g = Z.max 0 (5 - (50 - Z.of_nat (length (stock g))) / 10))
    as Hrest.
  { subst g. unfold loadSnapshot.
    destruct (clonePiles _ _) as [t f1].
    destruct (clonePile (snStock _) f1) as [stk f2].
    destruct (clonePile (snFoundations _) f2) as [fc f3].
    cbn [seed difficulty moves score history redoStack won includeAces foundations
         dealsRemaining foundationsCards stock serializeGameState snSeed snDifficulty
         snMoves snScore mbind option_bind default].
    rewrite !toInt32_idemp. split_and!; reflexivity. }
  destruct Hrest as (H1 & H2 & H3 & H4 & H5 & H6 & H7 & H8 & H9 & H10).
  rewrite Hf in H9. rewrite Hs in H10.
  cbn [serializeGameState snStock snFoundations snTableaus] in *.
  unfold viewCol in H9, H10. rewrite length_fmap in H9, H10.
  split_and!; done.
Qed.

(** X20. Resuming a game without Aces loses a completed run:
    [loadSnapshot] takes [foundations] to be the number of foundation cards
    divided by 13, while a run without Aces has 12 cards.  Whenever the
    current game is played without Aces and the snapshot's foundations list
    is not empty, [verifyInventory] of [validation.js] reports the loaded
    game as inconsistent. *)
Theorem loadSnapshot_without_aces (snap : Snapshot) (meta : option Meta) (s : State) :
  includeAces s = false ->
  snFoundations snap <> [] ->
  Validation.ok (Validation.verifyInventory (loadSnapshot snap meta s)) = false.
Proof.
  intros Ha Hne.
  destruct (Validation.ok _) eqn:Hok; [|done]. exfalso.
  assert (Validation.issues (Validation.verifyInventory (loadSnapshot snap meta s)) = [])
    as Hnil.
  { unfold Validation.verifyInventory in *. cbv zeta in *.
    cbn [Validation.ok Validation.issues] in *.
    apply Nat.eqb_eq in Hok. by apply nil_length_inv. }
  apply verifyInventory_issues in Hnil as (_ & _ & _ & _ & _ & Hfc & _).
  destruct (loadSnapshot_layout snap meta s) as (_ & _ & Hlen).
  assert (includeAces (loadSnapshot snap meta s) = false
          /\ foundations (loadSnapshot snap meta s)
             = Z.of_nat (length (foundationsCards (loadSnapshot snap meta s))) / 13)
    as [Ha' Hf'].
  { unfold loadSnapshot.
    destruct (clonePiles _ _) as [t f1].
    destruct (clonePile (snStock _) f1) as [stk f2].
    destruct (clonePile (snFoundations _) f2) as [fc f3].
    cbn [includeAces foundations foundationsCards]. by rewrite Ha. }
  rewrite Ha', Hf', Hlen in Hfc.
  assert (length (snFoundations snap) <> 0%nat) as Hpos by (by destruct (snFoundations snap)).
  pose proof (Z.mul_div_le (Z.of_nat (length (snFoundations snap))) 13 ltac:(done)).
  lia.
Qed.

Lemma loadSnapshot_without_aces_witness :
  Validation.ok (Validation.verifyInventory
    (loadSnapshot (serializeGameState
                     (default state0 (snd <$> completeTopRun 0 false hiddenState)))
                  None hiddenState)) = false.
Proof.
  apply loadSnapshot_without_aces.
  - reflexivity.
  - vm_compute. discriminate.
Defined.

(** ** The accounting of a move and of a deal *)

Lemma completeTopRun_won c aces s r : completeTopRun c aces s = Some r -> won r.2 = won s.
Proof.
  unfold completeTopRun. intros H. apply bind_Some in H as (col & _ & H).
  destruct (tryComplete col aces (faces s)) as [[rem rest]|]; by simplify_eq/=.
Qed.

Lemma completeAll_won_from cols s s' :
  foldl (fun os c => s ← os; r ← completeTopRun c (includeAces s) s; Some r.2)
        (Some s) cols = Some s' ->
  won s' = won s.
Proof.
  revert s. induction cols as [|c cols IH]; intros s H.
  - cbn in H. by injection H as ->.
  - cbn [foldl mbind option_bind] in H.
    destruct (completeTopRun c (includeAces s) s) as [r|] eqn:Hr.
    + cbn in H. apply IH in H. apply completeTopRun_won in Hr. congruence.
    + cbn in H. by rewrite mfold_None in H.
Qed.

(** The entries and counters after an accepted move. *)
Lemma doMove_accounting_eq (s s' : State) (from : nat) (startIndex : Z) (to : nat) :
  doMove from startIndex to s = Some (true, s') ->
  exists clones turned cs,
    history s' = history s ++ [EMove from to clones turned] ++ cs
    /\ Forall isComplete cs /\ (length cs <= 2)%nat
    /\ moves s' = moves s + 1
    /\ score s' = Z.max 0 (score s - 1) + 100 * Z.of_nat (length cs)
    /\ foundations s' = foundations s + Z.of_nat (length cs)
    /\ redoStack s' = []
    /\ stock s' = stock s /\ dealsRemaining s' = dealsRemaining s
    /\ won s' = (won s || (foundations s' =? 8)).
Proof.
  unfold doMove. intros H.
  destruct (from =? to)%nat; [done|].
  apply bind_Some in H as (src & Hsrc & H).
  destruct (_ || _); [done|]. destruct (negb _); [done|].
  apply bind_Some in H as (dst & Hdst & H).
  apply bind_Some in H as (head & _ & H).
  destruct (negb _); [done|].
  destruct (structuredClone _ _) as [clones f'].
  apply bind_Some in H as (r1 & Hr1 & H).
  apply bind_Some in H as (r2 & Hr2 & [= <-]).
  pose proof (completeTopRun_won _ _ _ _ Hr1) as Hw1.
  pose proof (completeTopRun_won _ _ _ _ Hr2) as Hw2.
  apply completeTopRun_only in Hr1 as (cs1 & Hcs1 & Hl1).
  apply completeTopRun_only in Hr2 as (cs2 & Hcs2 & Hl2).
  pose proof (completionsOnly_trans _ _ _ _ _ Hcs1 Hcs2) as [Hh He Hsc Hf Hm Hst Hr Hd _ _ _].
  cbn [history score foundations moves stock redoStack dealsRemaining won] in *.
  eexists clones, _, (cs1 ++ cs2).
  assert (length (cs1 ++ cs2) <= 2)%nat as Hlen by (rewrite length_app; lia).
  unfold checkWin. destruct (Z.eqb_spec (foundations r2.2) 8) as [H8|H8];
    cbn [history score foundations moves stock redoStack dealsRemaining won];
    rewrite ?(proj2 (Z.eqb_eq _ _) H8), ?(proj2 (Z.eqb_neq _ _) H8), ?orb_true_r, ?orb_false_r;
    split_and!; try done; try congruence.
  all: by rewrite Hh, <- app_assoc.
Qed.

(** X21. What an accepted move records: [doMove] pushes one [move]
    entry, followed only by the [complete] entries of the runs it completed
    in the destination and the source column (at most two), counts one move,
    charges one point (never below zero) and adds 100 points and one
    foundation per completed run, empties the redo stack, leaves the stock
    and [dealsRemaining] alone, and sets [won] exactly if the foundations
    counter then is 8. *)
Theorem doMove_accounting (s s' : State) (from : nat) (startIndex : Z) (to : nat) :
  doMove from startIndex to s = Some (true, s') ->
  exists clones turned cs,
    history s' = history s ++ [EMove from to clones turned] ++ cs
    /\ Forall isComplete cs /\ (length cs <= 2)%nat
    /\ moves s' = moves s + 1
    /\ score s' = Z.max 0 (score s - 1) + 100 * Z.of_nat (length cs)
    /\ foundations s' = foundations s + Z.of_nat (length cs)
    /\ redoStack s' = []
    /\ stock s' = stock s /\ dealsRemaining s' = dealsRemaining s
    /\ won s' = (won s || (foundations s' =? 8)).
Proof. apply doMove_accounting_eq. Qed.

Lemma doMove_accounting_witness :
  exists clones turned cs,
    history moved1 = history test1 ++ [EMove 1 4 clones turned] ++ cs
    /\ moves moved1 = moves test1 + 1.
Proof.
  destruct (doMove_accounting test1 moved1 1 4 4) as (clones & turned & cs & Hh & _ & _ & Hm & _).
  - vm_compute. reflexivity.
  - exists clones, turned, cs. split; [exact Hh | exact Hm].
Defined.

Lemma dealOne_dealt c acc acc' :
  dealOne c acc = Some acc' ->
  acc'.2 ++ acc'.1.1.2 = acc.2 ++ acc.1.1.2
  /\ (length acc'.2 <= length acc.2 + 1)%nat.
Proof.
  destruct acc as [[[t stk] f] dealt]. unfold dealOne.
  destruct stk as [|card stk]; cbn [shift].
  - intros [= <-]. cbn [fst snd]. split; [done | lia].
  - intros H. apply bind_Some in H as (col & Hcol & [= <-]). cbn [fst snd].
    rewrite <- app_assoc, length_app. cbn [length app]. split; [done | lia].
Qed.

Lemma dealLoop_dealt n c acc acc' :
  dealLoop n c acc = Some acc' ->
  acc'.2 ++ acc'.1.1.2 = acc.2 ++ acc.1.1.2
  /\ (length acc'.2 <= length acc.2 + n)%nat.
Proof.
  revert c acc. induction n as [|n IH]; intros c acc H.
  - cbn in H. injection H as ->. split; [done | lia].
  - cbn [dealLoop] in H. apply bind_Some in H as (acc1 & H1 & H).
    apply IH in H as [He Hl]. apply dealOne_dealt in H1 as [He1 Hl1].
    split; [congruence | lia].
Qed.

Lemma dealLoop_dealt_full n c acc acc' :
  dealLoop n c acc = Some acc' -> (n <= length acc.1.1.2)%nat ->
  length acc'.2 = (length acc.2 + n)%nat.
Proof.
  revert c acc. induction n as [|n IH]; intros c acc H Hn.
  - cbn in H. injection H as ->. lia.
  - cbn [dealLoop] in H. apply bind_Some in H as (acc1 & H1 & H).
    destruct acc as [[[t stk] f] dealt]. cbn [fst snd] in *.
    destruct stk as [|card stk]; [cbn in Hn; lia|].
    unfold dealOne in H1. cbn [shift] in H1.
    apply bind_Some in H1 as (col & _ & [= <-]).
    apply IH in H; cbn [fst snd length] in *; [|lia].
    rewrite H, length_app. cbn [length]. lia.
Qed.

Lemma dealFinal_dealt fuel c acc acc' :
  dealFinal fuel c acc = Some acc' ->
  acc'.2 ++ acc'.1.1.2 = acc.2 ++ acc.1.1.2
  /\ (length acc'.2 <= length acc.2 + fuel)%nat.
Proof.
  revert c acc. induction fuel as [|n IH]; intros c acc H.
  - cbn in H. injection H as ->. split; [done | lia].
  - cbn [dealFinal] in H. destruct acc as [[[t stk] f] dealt] eqn:Hacc.
    destruct (c <? length stk)%nat; [|injection H as <-; split; [done | lia]].
    rewrite <- Hacc in *.
    apply bind_Some in H as (acc1 & H1 & H).
    apply IH in H as [He Hl]. apply dealOne_dealt in H1 as [He1 Hl1].
    split; [congruence | lia].
Qed.

Lemma completeAll_only_eq cols s s' :
  foldl (fun os c => s ← os; r ← completeTopRun c (includeAces s) s; Some r.2)
        (Some s) cols = Some s' ->
  exists cs, completionsOnly s s' cs.
Proof.
  revert s. induction cols as [|c cols IH]; intros s H.
  - cbn in H. injection H as ->. exists []. apply completionsOnly_refl.
  - cbn [foldl mbind option_bind] in H.
    destruct (completeTopRun c (includeAces s) s) as [r|] eqn:Hr.
    + cbn in H. apply IH in H as [cs' Hcs'].
      apply completeTopRun_only in Hr as (cs & Hcs & _).
      exists (cs ++ cs'). by eapply completionsOnly_trans.
    + cbn in H. by rewrite mfold_None in H.
Qed.

(** The entries and counters after an accepted deal. *)
Lemma dealRow_accounting_eq (s s' : State) :
  dealRow s = Some (true, s') ->
  exists dealt cs,
    history s' = history s ++ [EDeal dealt] ++ cs
    /\ Forall isComplete cs
    /\ stock s = dealt ++ stock s' /\ (length dealt <= 10)%nat
    /\ ((10 <= length (stock s))%nat ->
        length dealt = 10%nat /\ dealsRemaining s' = dealsRemaining s - 1)
    /\ moves s' = moves s + 1
    /\ score s' = Z.max 0 (score s - 1) + 100 * Z.of_nat (length cs)
    /\ foundations s' = foundations s + Z.of_nat (length cs)
    /\ redoStack s' = []
    /\ won s' = won s.
Proof.
  unfold dealRow. intros H.
  destruct (_ && _); [done|].
  apply bind_Some in H as (e & He & H). destruct e; [done|].
  apply bind_Some in H as ([[[[t stk] f] dealt] dr] & Hdeal & H).
  apply bind_Some in H as (s1 & Hall & [= <-]).
  pose proof (completeAll_won_from _ _ _ Hall) as Hwon.
  apply completeAll_only_eq in Hall as [cs [Hh Hc Hsc Hf Hm Hst Hr Hd _ _ _]].
  cbn [history score foundations moves stock redoStack dealsRemaining won] in *.
  assert (dealt ++ stk = stock s /\ (length dealt <= 10)%nat
          /\ ((10 <= length (stock s))%nat -> length dealt = 10%nat /\ dr = dealsRemaining s - 1))
    as (Hdl & Hl & Hdr).
  { destruct (_ && _ && _) eqn:Hfinal.
    - apply bind_Some in Hdeal as (acc & Hacc & [= -> <-]).
      apply andb_true_iff in Hfinal as [_ Hlt%Nat.ltb_lt].
      pose proof (dealFinal_dealt _ _ _ _ Hacc) as [Hdl Hl]. cbn [fst snd length app] in *.
      split_and!; [done | lia | lia].
    - apply bind_Some in Hdeal as (acc & Hacc & [= -> <-]).
      pose proof (dealLoop_dealt _ _ _ _ Hacc) as [Hdl Hl]. cbn [fst snd length app] in *.
      split_and!; [done | lia |].
      intros Hge. replace (Nat.min (length (stock s)) 10) with 10%nat in * by lia.
      split; [|done].
      by apply dealLoop_dealt_full in Hacc. }
  exists dealt, cs. rewrite Hst.
  split_and!; try done; try congruence.
  - by rewrite Hh, <- app_assoc.
  - intros Hge. destruct (Hdr Hge) as [? ->]. done.
Qed.

(** X22. What an accepted deal records: [dealRow] takes the dealt cards
    off the front of the stock (ten of them, and one deal less remaining,
    whenever the stock holds at least ten), pushes one [deal] entry with
    these cards, followed only by the [complete] entries of the runs the
    deal completed, counts one move, charges one point (never below zero),
    adds 100 points and one foundation per completed run and empties the
    redo stack.  It never sets [won]. *)
Theorem dealRow_accounting (s s' : State) :
  dealRow s = Some (true, s') ->
  exists dealt cs,
    history s' = history s ++ [EDeal dealt] ++ cs
    /\ Forall isComplete cs
    /\ stock s = dealt ++ stock s' /\ (length dealt <= 10)%nat
    /\ ((10 <= length (stock s))%nat ->
        length dealt = 10%nat /\ dealsRemaining s' = dealsRemaining s - 1)
    /\ moves s' = moves s + 1
    /\ score s' = Z.max 0 (score s - 1) + 100 * Z.of_nat (length cs)
    /\ foundations s' = foundations s + Z.of_nat (length cs)
    /\ redoStack s' = []
    /\ won s' = won s.
Proof. apply dealRow_accounting_eq. Qed.

Lemma dealRow_accounting_witness :
  exists dealt cs,
    history dealt5 = history (default state0 (play (replicate 4 OpDeal) test1))
                     ++ [EDeal dealt] ++ cs
    /\ length dealt = 10%nat.
Proof.
  destruct (dealRow_accounting (default state0 (play (replicate 4 OpDeal) test1)) dealt5)
    as (dealt & cs & Hh & _ & _ & _ & Hten & _).
  - vm_compute. reflexivity.
  - exists dealt, cs. split; [exact Hh|]. apply Hten. vm_compute. lia.
Defined.

(** ** The last deal from a short stock *)

(** The loop [for (c = 0; c < state.stock.length; c++)] shifts a card off
    the stock in every round, so it stops half-way. *)
Lemma dealFinal_half (fuel : nat) :
  forall (c : nat) (t : list (list Card)) (stk : list Card) (f : list bool)
         (dealt : list Card),
    (c + fuel <= length t)%nat -> (length stk <= c + 2 * fuel)%nat ->
    exists t' f' k,
      dealFinal fuel c (t, stk, f, dealt) = Some (t', drop k stk, f', dealt ++ take k stk)
      /\ length t' = length t
      /\ ((c < length stk)%nat -> (length stk - c <= 2 * k <= length stk - c + 1)%nat)
      /\ ((length stk <= c)%nat -> k = 0%nat).
Proof.
  induction fuel as [|fuel IH]; intros c t stk f dealt Ht Hs.
  - exists t, f, 0%nat. cbn [dealFinal drop take]. rewrite app_nil_r.
    split; [done|]. split; [done|]. split; [lia | done].
  - cbn [dealFinal]. destruct (Nat.ltb_spec c (length stk)) as [Hlt|Hge].
    + destruct stk as [|card stk]; [cbn in Hlt; lia|]. cbn [length] in *.
      unfold dealOne. cbn [shift].
      destruct (lookup_lt_is_Some_2 t c) as [col Hcol]; [lia|]. rewrite Hcol.
      cbn [mbind option_bind].
      destruct (IH (S c) (<[c := col ++ [card]]> t) stk (setFaceUp card true f)
                   (dealt ++ [card])) as (t' & f' & k & Hk & Hl & Hb1 & Hb2).
      { rewrite length_insert. lia. }
      { lia. }
      exists t', f', (S k). rewrite Hk. cbn [drop take]. rewrite <- app_assoc.
      split; [done|]. split; [by rewrite Hl, length_insert|]. split; [|lia].
      intros _. destruct (Nat.lt_ge_cases (S c) (length stk)) as [Hlt'|Hge'].
      * specialize (Hb1 Hlt'). lia.
      * specialize (Hb2 Hge'). lia.
    + exists t, f, 0%nat. cbn [drop take]. rewrite app_nil_r.
      split; [done|]. split; [done|]. split; [lia | done].
Qed.

(** X23. The final deal from a stock of fewer than ten cards deals only
    half of it: with one deal remaining and [m] cards in the stock
    ([0 < m < 10]), [dealRow] deals the first [ceil(m/2)] cards, leaves
    [floor(m/2)] cards in the stock and sets [dealsRemaining] to 0, because
    the loop bound [state.stock.length] shrinks while the loop runs.  If
    cards are left ([m >= 2]) every further [dealRow] is rejected, so they
    can never be dealt. *)
Theorem final_deal_deals_half (s : State) :
  length (tableau s) = 10%nat ->
  Forall (fun col => col <> []) (tableau s) ->
  dealsRemaining s = 1 ->
  (0 < length (stock s) < 10)%nat ->
  exists s',
    dealRow s = Some (true, s')
    /\ stock s' = drop ((length (stock s) + 1) / 2) (stock s)
    /\ length (stock s') = (length (stock s) / 2)%nat
    /\ dealsRemaining s' = 0
    /\ ((2 <= length (stock s))%nat -> dealRow s' = Some (false, s')).
Proof.
  intros Ht Hne Hdr Hm.
  assert (anyEmpty (tableau s) (seq 0 10) = Some false) as Hempty.
  { apply anyEmpty_false. intros c [_ Hc]%elem_of_seq.
    destruct (lookup_lt_is_Some_2 (tableau s) c) as [col Hcol]; [lia|].
    exists col. split; [done|]. by eapply (Forall_lookup_1 _ _ _ _ Hne). }
  unfold dealRow at 1. rewrite Hempty, Hdr. cbn [Z.leb Z.compare andb mbind option_bind].
  assert ((1 =? 1) && (0 <? length (stock s))%nat && (length (stock s) <? 10)%nat = true)
    as ->.
  { rewrite !andb_true_iff, !Nat.ltb_lt. split_and!; [done | lia | lia]. }
  destruct (dealFinal_half (length (stock s)) 0 (tableau s) (stock s) (faces s) [])
    as (t' & f' & k & -> & Hlt' & Hk & _); [lia | lia |].
  cbn [mbind option_bind]. specialize (Hk ltac:(lia)).
  assert (k = ((length (stock s) + 1) / 2)%nat) as Hkdiv.
  { apply (Nat.div_unique _ 2 k (length (stock s) + 1 - 2 * k)); lia. }
  match goal with |- context [completeAll ?s1] =>
    destruct (completeAll_only s1) as (s' & cs & Hall & Hcs) end.
  { cbn [tableau]. lia. }
  rewrite Hall. cbn [mbind option_bind]. exists s'. split; [done|].
  rewrite (co_stock _ _ _ Hcs), (co_deals _ _ _ Hcs). cbn [stock dealsRemaining].
  assert (length (drop k (stock s)) = (length (stock s) / 2)%nat) as Hlen.
  { rewrite length_drop.
    apply (Nat.div_unique _ 2 _ (length (stock s) - 2 * (length (stock s) - k))); lia. }
  split_and!; [by rewrite Hkdiv | done | done |].
  intros H2. unfold dealRow.
  rewrite (co_stock _ _ _ Hcs), (co_deals _ _ _ Hcs). cbn [stock dealsRemaining].
  rewrite Hlen.
  assert ((0 <? length (stock s) / 2)%nat = true) as ->; [|done].
  apply Nat.ltb_lt. apply Nat.div_str_pos. lia.
Qed.

Lemma final_deal_deals_half_witness :
  exists s', dealRow partialState = Some (true, s') /\ length (stock s') = 2%nat.
Proof.
  destruct (final_deal_deals_half partialState) as (s' & H & _ & Hl & _).
  - reflexivity.
  - apply (bool_decide_unpack _). vm_compute. exact I.
  - reflexivity.
  - vm_compute. lia.
  - exists s'. split; [exact H | exact Hl].
Defined.

(** ** Redoing a completed run, undoing an empty deal *)

Lemma length_concat_insert {A} (l : list (list A)) (i : nat) (y x : list A) :
  l !! i = Some y ->
  (length (concat (<[i := x]> l)) + length y = length (concat l) + length x)%nat.
Proof.
  revert i. induction l as [|z l IH]; intros [|i] Hi; try done.
  - cbn in Hi. injection Hi as ->. cbn [concat insert list_insert].
    rewrite !length_app. lia.
  - cbn in Hi. change (<[S i := x]> (z :: l)) with (z :: <[i := x]> l).
    cbn [concat]. rewrite !length_app. specialize (IH i Hi). lia.
Qed.

(** X24. [redo] of a completed run always takes 13 cards off the
    column, whatever the length of the run.  In a game without Aces a run
    has 12 cards: when such a completion is redone on a column of at least
    13 cards, the card beneath the run is removed with it and is in no pile
    afterwards, so the piles hold one card less than before. *)
Theorem redo_completion_without_aces (s : State) (rest : list Entry) (c : nat)
    (cards col : list Card) (turned : option Card) :
  redoStack s = rest ++ [EComplete c cards turned] ->
  tableau s !! c = Some col ->
  length cards = 12%nat ->
  (13 <= length col)%nat ->
  exists s',
    redo s = Some s'
    /\ tableau s' !! c = Some (take (length col - 13) col)
    /\ foundationsCards s' = foundationsCards s ++ cards
    /\ stock s' = stock s
    /\ (length (allCards s') + 1 = length (allCards s))%nat.
Proof.
  intros Hredo Hcol Hcards Hlen.
  assert (c < length (tableau s))%nat as Hc by (by eapply lookup_lt_Some).
  unfold redo. rewrite Hredo, pop_snoc, Hcol. cbn [mbind option_bind].
  change 13 with (Z.of_nat 13). rewrite splice_tail by done.
  eexists. split; [reflexivity|].
  cbn [tableau foundationsCards stock]. rewrite list_lookup_insert_eq by done.
  split_and!; try done.
  unfold allCards. cbn [tableau foundationsCards stock].
  pose proof (length_concat_insert (tableau s) c col (take (length col - 13) col) Hcol) as Hl.
  rewrite length_take in Hl. rewrite !length_app, Hcards. lia.
Qed.

(** A game without Aces: a face-up 9 of hearts under the run from King
    to 2 of spades; and the same game after the run was completed and the
    completion undone. *)
Definition underRun : State :=
  {| difficulty := "4-suit"; seed := []; rng := None; includeAces := false;
     tableau := (mkCard 13 13 Heart 9
                   :: ((fun k => mkCard k k Spade (13 - Z.of_nat k)) <$> seq 0 12))
                  :: replicate 9 [];
     stock := []; dealsRemaining := 0;
     foundations := 0; moves := 0; score := 500; history := [];
     redoStack := []; message := ""; won := false; foundationsCards := [];
     faces := replicate 14 true |}.

Definition undoneRun : State :=
  default state0 (play [OpUndo] (default state0 (snd <$> completeTopRun 0 false underRun))).

Lemma redo_completion_without_aces_witness :
  exists s', redo undoneRun = Some s' /\ tableau s' !! 0%nat = Some []
             /\ (length (allCards s') + 1 = length (allCards undoneRun))%nat.
Proof.
  destruct (redo_completion_without_aces undoneRun [] 0
              (rev ((fun k => mkCard k k Spade (13 - Z.of_nat k)) <$> seq 0 12))
              (mkCard 13 13 Heart 9
                 :: rev ((fun k => mkCard k k Spade (13 - Z.of_nat k)) <$> seq 0 12))
              None)
    as (s' & H & Ht & _ & _ & Hl).
  - vm_compute. reflexivity.
  - vm_compute. reflexivity.
  - vm_compute. reflexivity.
  - vm_compute. lia.
  - exists s'. split_and!; [exact H | exact Ht | exact Hl].
Defined.

Lemma undo_deal_pops (t : list (list Card)) (stk : list Card) (f : list bool) :
  length t = 10%nat ->
  Forall (fun col => col <> []) t ->
  exists bodies tops,
    t = zip_with (fun b c => b ++ [c]) bodies tops
    /\ length bodies = 10%nat /\ length tops = 10%nat
    /\ mfold undoDealOne (rev (seq 0 10)) (t, stk, f)
       = Some (bodies, tops ++ stk, setAll false tops f).
Proof.
  intros Hlen Hall.
  do 10 (destruct t as [|? t]; [done|]). destruct t; [|done]. clear Hlen.
  repeat match goal with
         | H : Forall _ (_ :: _) |- _ =>
             let c := fresh "c" in let Ht := fresh "Ht" in
             let b := fresh "b" in
             apply Forall_cons in H as [Ht H];
             apply (proj2 (last_is_Some _)) in Ht as [c Ht];
             apply last_Some in Ht as [b ->]
         end.
  exists [b; b0; b1; b2; b3; b4; b5; b6; b7; b8], [c; c0; c1; c2; c3; c4; c5; c6; c7; c8].
  split; [reflexivity|]. split; [done|]. split; [done|].
  unfold mfold. cbn [rev seq app foldl]. unfold undoDealOne.
  cbn [lookup list_lookup mbind option_bind].
  repeat (rewrite pop_snoc; cbn [mbind option_bind lookup list_lookup insert list_insert]).
  reflexivity.
Qed.

(** X25. [undo] is not the inverse of a deal from an empty stock: such
    a deal moves no card, but its undo takes the top card off each of the
    ten columns, puts these ten cards into the stock and adds a deal to
    [dealsRemaining], as it does for every [deal] entry whatever it holds. *)
Theorem empty_deal_undone (s s' : State) (dealt : list Card) :
  stock s = [] ->
  length (tableau s) = 10%nat ->
  dealRow s = Some (true, s') ->
  history s' = history s ++ [EDeal dealt] ->
  dealt = [] /\ tableau s' = tableau s /\ stock s' = []
  /\ exists s'',
       undo s' = Some s''
       /\ length (stock s'') = 10%nat
       /\ tableau s = zip_with (fun b c => b ++ [c]) (tableau s'') (stock s'')
       /\ length (tableau s'') = 10%nat
       /\ dealsRemaining s'' = dealsRemaining s + 1
       /\ history s'' = history s.
Proof.
  intros Hstock Ht Hdeal Hhist. unfold dealRow in Hdeal.
  rewrite Hstock in Hdeal. cbn [length] in Hdeal.
  rewrite !andb_false_r in Hdeal.
  apply bind_Some in Hdeal as (e & He & Hdeal). destruct e; [done|].
  cbn in Hdeal.
  apply bind_Some in Hdeal as (s1 & Hall & [= <-]).
  match type of Hall with completeAll ?s0 = _ =>
    destruct (completeAll_only s0) as (s1' & cs & Hall' & Hcs) end.
  { cbn [tableau]. lia. }
  rewrite Hall in Hall'. injection Hall' as <-.
  pose proof (co_history _ _ _ Hcs) as Hh. cbn [history] in Hh.
  rewrite Hhist, <- app_assoc in Hh. apply app_inv_head in Hh.
  injection Hh as -> <-.
  rewrite (co_none _ _ _ Hcs eq_refl) in *. cbn [tableau stock].
  split_and!; try done.
  assert (Forall (fun col => col <> []) (tableau s)) as Hne.
  { destruct (anyEmpty_spec (tableau s) (seq 0 10)) as (b & Hb & Hiff).
    { intros c [_ Hc]%elem_of_seq. lia. }
    rewrite He in Hb. injection Hb as <-.
    apply Forall_lookup. intros c col Hcol ->.
    assert (false = true); [|done]. apply Hiff. exists c. split; [|done].
    apply elem_of_seq. apply lookup_lt_Some in Hcol. lia. }
  destruct (undo_deal_pops (tableau s) [] (faces s) Ht Hne)
    as (bodies & tops & Hzip & Hb & Htops & Hundo).
  unfold undo. cbn [history]. rewrite pop_snoc. cbn [tableau stock faces].
  rewrite Hundo. cbn [mbind option_bind]. eexists. split; [reflexivity|].
  cbn [tableau stock dealsRemaining history]. rewrite app_nil_r.
  split_and!; done.
Qed.

Lemma empty_deal_undone_witness :
  exists s'', undo (default state0 (play [OpDeal] dealt5)) = Some s''
              /\ length (stock s'') = 10%nat.
Proof.
  destruct (empty_deal_undone dealt5 (default state0 (play [OpDeal] dealt5)) [])
    as (_ & _ & _ & s'' & Hu & Hl & _).
  - vm_compute. reflexivity.
  - vm_compute. reflexivity.
  - vm_compute. reflexivity.
  - vm_compute. reflexivity.
  - exists s''. split; [exact Hu | exact Hl].
Defined.

(** X26. The top card of a column can be moved without being face-up:
    for a tail of one card [doMove] checks only that the destination is
    another existing column that is empty or whose top card is one rank
    higher; the [faceUp] test of the validation loop applies to pairs of
    cards, and a single card has none. *)
Theorem doMove_single_card (s : State) (from to : nat) (body dst : list Card) (c : Card) :
  from <> to ->
  tableau s !! from = Some (body ++ [c]) ->
  tableau s !! to = Some dst ->
  canDrop c (top dst) = true ->
  exists s', doMove from (Z.of_nat (length body)) to s = Some (true, s').
Proof.
  intros Hne Hsrc Hdst Hdrop. apply doMove_true_iff. split; [done|].
  exists (body ++ [c]), dst, c. rewrite Nat2Z.id, length_app. cbn [length].
  split_and!; try done; try lia.
  - rewrite lookup_app_r by lia. by rewrite Nat.sub_diag.
  - replace (length body + 1 - 1)%nat with (length body) by lia.
    destruct (length body) as [|n]; [done|]. cbn [tailOk].
    by rewrite (proj2 (Nat.ltb_ge _ _)) by lia.
Qed.

(** A face-down 5 of spades in column 1 and a face-up 6 of hearts in
    column 2. *)
Definition faceDownTop : State :=
  {| difficulty := "4-suit"; seed := []; rng := None; includeAces := true;
     tableau := [mkCard 0 0 Spade 5] :: [mkCard 1 1 Heart 6] :: replicate 8 [];
     stock := []; dealsRemaining := 0;
     foundations := 0; moves := 0; score := 500; history := [];
     redoStack := []; message := ""; won := false; foundationsCards := [];
     faces := [false; true] |}.

Lemma doMove_single_card_witness :
  faceUp (faces faceDownTop) (mkCard 0 0 Spade 5) = false
  /\ exists s', doMove 0 0 1 faceDownTop = Some (true, s').
Proof.
  split; [reflexivity|].
  apply (doMove_single_card faceDownTop 0 1 [] [mkCard 1 1 Heart 6] (mkCard 0 0 Spade 5));
    [done | reflexivity | reflexivity | reflexivity].
Defined.

(** ** The inventory check during a game without undo *)

(** No face-down card lies on a face-up card. *)
Definition closed (f : list bool) (col : list Card) : Prop :=
  forall i j a b, (i <= j)%nat -> col !! i = Some a -> col !! j = Some b ->
    faceUp f a = true -> faceUp f b = true.

(** A column as play leaves it: face-down cards below, face-up cards
    above, and the top card face-up. *)
Definition tidy (f : list bool) (col : list Card) : Prop :=
  closed f col /\ forall t, top col = Some t -> faceUp f t = true.

Lemma tidy_ext (f f' : list bool) (col : list Card) :
  (forall c, c ∈ col -> faceUp f' c = faceUp f c) -> tidy f col -> tidy f' col.
Proof.
  intros Hf [Hcl Htop]. split.
  - intros i j a b Hij Ha Hb. rewrite !Hf by (by eapply list_elem_of_lookup_2).
    by apply (Hcl i j).
  - intros t Ht. rewrite Hf; [by apply Htop|].
    unfold top in Ht. rewrite last_lookup in Ht. by eapply list_elem_of_lookup_2.
Qed.

Lemma tidy_push (f : list bool) (col pushed : list Card) :
  tidy f col -> Forall (fun c => faceUp f c = true) pushed -> tidy f (col ++ pushed).
Proof.
  intros [Hcl Htop] Hup. split.
  - intros i j a b Hij Ha Hb Hfa.
    destruct (decide (j < length col)%nat) as [Hj|Hj].
    + rewrite lookup_app_l in Ha, Hb by lia.
      apply (Hcl i j a b); [lia | done | done | done].
    + rewrite lookup_app_r in Hb by lia.
      apply (proj1 (Forall_forall _ _) Hup). by eapply list_elem_of_lookup_2.
  - intros t Ht. unfold top in *. destruct pushed as [|p pushed _] using rev_ind.
    + rewrite app_nil_r in Ht. by apply Htop.
    + rewrite app_assoc, last_snoc in Ht. injection Ht as <-.
      apply Forall_app in Hup as [_ Hp]. exact (Forall_inv Hp).
Qed.

Lemma sublist_lookup_order {A} (l1 l2 : list A) (i j : nat) (a b : A) :
  sublist l1 l2 -> (i <= j)%nat -> l1 !! i = Some a -> l1 !! j = Some b ->
  exists i' j', (i' <= j')%nat /\ l2 !! i' = Some a /\ l2 !! j' = Some b.
Proof.
  intros Hsub. revert i j a b. induction Hsub as [|x l1 l2 Hsub IH|x l1 l2 Hsub IH];
    intros i j a b Hij Ha Hb.
  - done.
  - destruct i as [|i], j as [|j]; cbn in Ha, Hb; try lia.
    + exists 0%nat, 0%nat. by split_and!.
    + assert (exists j', l2 !! j' = Some b) as [j' Hj'].
      { destruct (IH j j b b) as (? & j' & _ & _ & ?); [lia | done | done | by exists j']. }
      exists 0%nat, (S j'). split_and!; [lia | done | done].
    + destruct (IH i j a b) as (i' & j' & ? & ? & ?); [lia | done | done |].
      exists (S i'), (S j'). split_and!; [lia | done | done].
  - destruct (IH i j a b) as (i' & j' & ? & ? & ?); [lia | done | done |].
    exists (S i'), (S j'). split_and!; [lia | done | done].
Qed.

Lemma closed_sublist (f : list bool) (rest col : list Card) :
  sublist rest col -> closed f col -> closed f rest.
Proof.
  intros Hsub Hcl i j a b Hij Ha Hb.
  destruct (sublist_lookup_order _ _ i j a b Hsub Hij Ha Hb) as (i' & j' & ? & ? & ?).
  by apply (Hcl i' j').
Qed.

(** [if (col.length && !top(col).faceUp) { turned = top(col); turned.faceUp = true }],
    as [completeTopRun] and [doMove] do it. *)
Definition reveal (f : list bool) (rest : list Card) : list bool :=
  match match top rest with
        | Some t => if negb (faceUp f t) then Some t else None
        | None => None
        end with
  | Some t => setFaceUp t true f
  | None => f
  end.

Lemma length_reveal f rest : length (reveal f rest) = length f.
Proof.
  unfold reveal. destruct (top rest) as [t|]; [|done].
  destruct (negb _); [apply length_insert | done].
Qed.

Lemma reveal_other f rest c :
  (forall t, top rest = Some t -> oid c <> oid t) ->
  faceUp (reveal f rest) c = faceUp f c.
Proof.
  intros Hc. unfold reveal. destruct (top rest) as [t|]; [|done].
  destruct (negb _); [|done]. rewrite faceUp_setFaceUp.
  rewrite decide_False; [done|]. by apply Hc.
Qed.

Lemma reveal_mono f rest c : faceUp f c = true -> faceUp (reveal f rest) c = true.
Proof.
  intros Hc. unfold reveal. destruct (top rest) as [t|]; [|done].
  destruct (negb _) eqn:Hn; [|done]. rewrite faceUp_setFaceUp.
  destruct (decide (oid c = oid t)) as [Heq|]; [|done].
  apply negb_true_iff in Hn. unfold faceUp in *. rewrite Heq in Hc. congruence.
Qed.

Lemma reveal_top f rest t :
  top rest = Some t -> live f t -> faceUp (reveal f rest) t = true.
Proof.
  intros Ht Hl. unfold reveal. rewrite Ht.
  destruct (faceUp f t) eqn:Hup; cbn [negb]; [done|].
  rewrite faceUp_setFaceUp, decide_True by done.
  by rewrite bool_decide_eq_true_2.
Qed.

Lemma tidy_reveal f rest :
  closed f rest -> NoDup (oid <$> rest) -> Forall (live f) rest ->
  tidy (reveal f rest) rest.
Proof.
  intros Hcl Hnd Hlive. split.
  - intros i j a b Hij Ha Hb Hfa.
    destruct (decide (S j = length rest)) as [Hj|Hj].
    + apply reveal_top.
      * unfold top. rewrite last_lookup. by replace (Nat.pred (length rest)) with j by lia.
      * apply (proj1 (Forall_forall _ _) Hlive). by eapply list_elem_of_lookup_2.
    + apply reveal_mono. apply (Hcl i j a b); [lia | done | done |].
      rewrite reveal_other in Hfa; [done|].
      intros t Ht Heq. unfold top in Ht. rewrite last_lookup in Ht.
      apply lookup_lt_Some in Hb.
      assert (i = Nat.pred (length rest)); [|lia].
      apply (NoDup_lookup (oid <$> rest) _ _ (oid a)); [done| |].
      * by rewrite list_lookup_fmap, Ha.
      * by rewrite list_lookup_fmap, Ht, Heq.
  - intros t Ht. apply reveal_top; [done|].
    apply (proj1 (Forall_forall _ _) Hlive).
    unfold top in Ht. rewrite last_lookup in Ht. by eapply list_elem_of_lookup_2.
Qed.

(** What forward play maintains: distinct live objects, tidy columns, and
    as many foundation cards as completed runs account for. *)
Definition sound (s : State) : Prop :=
  NoDup (oid <$> allCards s)
  /\ Forall (live (faces s)) (allCards s)
  /\ Forall (tidy (faces s)) (tableau s)
  /\ Z.of_nat (length (foundationsCards s))
     = foundations s * (if includeAces s then 13 else 12).

Lemma concat_delete_Permutation {A} (t : list (list A)) (c : nat) (col : list A) :
  t !! c = Some col -> concat t ≡ₚ col ++ concat (delete c t).
Proof.
  revert c. induction t as [|z t IH]; intros [|c] Hc; try done.
  - cbn in Hc. by injection Hc as ->.
  - cbn in Hc. cbn [concat]. change (delete (S c) (z :: t)) with (z :: delete c t).
    cbn [concat]. rewrite (IH c Hc), !app_assoc.
    apply Permutation_app; [apply Permutation_app_comm | done].
Qed.

Lemma elem_of_concat {A} (t : list (list A)) (i : nat) (col : list A) (x : A) :
  t !! i = Some col -> x ∈ col -> x ∈ concat t.
Proof.
  intros Hi Hx. apply list_elem_of_In, in_concat. exists col.
  split; apply list_elem_of_In; [by eapply list_elem_of_lookup_2 | done].
Qed.

Lemma oid_disjoint_columns (t : list (list Card)) (rest : list Card) (c i : nat)
    (col col' : list Card) (x y : Card) :
  NoDup (oid <$> (concat t ++ rest)) ->
  t !! c = Some col -> t !! i = Some col' -> i <> c ->
  x ∈ col -> y ∈ col' -> oid x <> oid y.
Proof.
  intros Hnd Hc Hi Hne Hx Hy.
  rewrite fmap_app in Hnd. apply NoDup_app in Hnd as (Hnd & _ & _).
  rewrite (concat_delete_Permutation t c col Hc), fmap_app in Hnd.
  apply NoDup_app in Hnd as (_ & Hdisj & _). intros Heq.
  apply (Hdisj (oid x)); [by apply list_elem_of_fmap_2|].
  rewrite Heq. apply list_elem_of_fmap_2.
  destruct (decide (i < c)%nat) as [Hlt|Hge].
  - apply (elem_of_concat _ i col'); [|done]. by rewrite list_lookup_delete_lt.
  - apply (elem_of_concat _ (i - 1) col'); [|done].
    rewrite list_lookup_delete_ge by lia. by replace (S (i - 1)) with i by lia.
Qed.

Lemma oid_disjoint_rest (t : list (list Card)) (rest : list Card) (i : nat)
    (col : list Card) (x y : Card) :
  NoDup (oid <$> (concat t ++ rest)) ->
  t !! i = Some col -> x ∈ rest -> y ∈ col -> oid x <> oid y.
Proof.
  intros Hnd Hi Hx Hy Heq. rewrite fmap_app in Hnd.
  apply NoDup_app in Hnd as (_ & Hdisj & _).
  apply (Hdisj (oid y)).
  - apply list_elem_of_fmap_2. by eapply elem_of_concat.
  - rewrite <- Heq. by apply list_elem_of_fmap_2.
Qed.

Lemma NoDup_column (t : list (list Card)) (rest : list Card) (i : nat) (col : list Card) :
  NoDup (oid <$> (concat t ++ rest)) -> t !! i = Some col -> NoDup (oid <$> col).
Proof.
  intros Hnd Hi. rewrite fmap_app in Hnd. apply NoDup_app in Hnd as (Hnd & _ & _).
  rewrite (concat_delete_Permutation t i col Hi), fmap_app in Hnd.
  by apply NoDup_app in Hnd as (? & _ & _).
Qed.

(** Replacing column [c] and changing flags of cards of that column only
    keeps the other columns tidy. *)
Lemma tidy_insert (t : list (list Card)) (f f' : list bool) (c : nat)
    (col new : list Card) :
  t !! c = Some col ->
  Forall (tidy f) t ->
  tidy f' new ->
  (forall i col' y, i <> c -> t !! i = Some col' -> y ∈ col' -> faceUp f' y = faceUp f y) ->
  Forall (tidy f') (<[c := new]> t).
Proof.
  intros Hc Ht Hnew Hother. apply Forall_lookup. intros i col' Hi.
  destruct (decide (i = c)) as [->|Hne].
  - rewrite list_lookup_insert_eq in Hi by (by eapply lookup_lt_Some). by injection Hi as <-.
  - rewrite list_lookup_insert_ne in Hi by done.
    apply (tidy_ext f); [intros y Hy; by apply (Hother i col')|].
    by eapply (Forall_lookup_1 _ _ _ _ Ht).
Qed.

Lemma block_faceUp (f : list bool) (pre rem post : list Card) (bottom : Card) :
  closed f (pre ++ rev rem ++ post) ->
  last rem = Some bottom -> faceUp f bottom = true ->
  Forall (fun c => faceUp f c = true) rem.
Proof.
  intros Hcl Hlast Hup. apply last_Some in Hlast as [l' ->].
  apply Forall_forall. intros c Hc. apply list_elem_of_In, in_rev, list_elem_of_In in Hc.
  apply list_elem_of_lookup in Hc as [k Hk]. rewrite rev_unit in *.
  apply (Hcl (length pre) (length pre + k)%nat bottom c); [lia | | | done].
  - rewrite lookup_app_r by lia. by rewrite Nat.sub_diag.
  - rewrite lookup_app_r by lia.
    replace (length pre + k - length pre)%nat with k by lia.
    by apply lookup_app_l_Some.
Qed.

Lemma filter_all {A} (P : A -> Prop) `{!forall x, Decision (P x)} (l : list A) :
  Forall P l -> filter P l = l.
Proof.
  induction 1 as [|x l Hx Hl IH]; [done|]. by rewrite filter_cons_True, IH.
Qed.

Lemma Forall_sublist_1 {A} (P : A -> Prop) (l1 l2 : list A) :
  sublist l1 l2 -> Forall P l2 -> Forall P l1.
Proof.
  intros Hsub Hall. apply Forall_forall. intros x Hx.
  apply (proj1 (Forall_forall _ _) Hall). by eapply elem_of_sublist.
Qed.

Lemma top_elem_of (col : list Card) (t : Card) : top col = Some t -> t ∈ col.
Proof.
  unfold top. rewrite last_lookup. intros Ht. by eapply list_elem_of_lookup_2.
Qed.

Lemma completeTopRun_sound (c : nat) (s : State) (r : bool * State) :
  sound s -> completeTopRun c (includeAces s) s = Some r -> sound r.2.
Proof.
  intros Hs H. pose proof (completeTopRun_allCards _ _ _ _ H) as [HP Ha].
  destruct Hs as (Hnd & Hlive & Htidy & Hruns).
  unfold completeTopRun in H. apply bind_Some in H as (col & Hcol & H).
  destruct (tryComplete col (includeAces s) (faces s)) as [[rem rest]|] eqn:Htry.
  2: { injection H as <-. done. }
  injection H as <-. cbn [snd] in *.
  apply tryComplete_block in Htry
    as (pre & post & start & bottom & tl & Hc & Hrest & _ & Hlast & Hbup & Hshown & _ & Hlen & _).
  assert (tidy (faces s) col) as [Hcl Htop] by (by eapply (Forall_lookup_1 _ _ _ _ Htidy)).
  assert (Forall (fun x => faceUp (faces s) x = true) rem) as Hup.
  { rewrite Hc in Hcl. by eapply block_faceUp. }
  assert (length rem = if includeAces s then 13 else 12)%nat as Hrem.
  { rewrite <- Hlen, <- Hshown. unfold shown. by rewrite filter_all. }
  assert (sublist rest col) as Hsub.
  { rewrite Hc, Hrest. apply sublist_app; [done|]. by apply sublist_inserts_l. }
  unfold allCards in Hnd, Hlive.
  change (match match top rest with
                | Some t => if negb (faceUp (faces s) t) then Some t else None
                | None => None
                end with
          | Some t => setFaceUp t true (faces s)
          | None => faces s
          end) with (reveal (faces s) rest) in *.
  unfold sound. cbn [tableau stock foundationsCards faces foundations includeAces] in *.
  split_and!.
  - by rewrite HP.
  - rewrite HP. eapply Forall_impl; [exact Hlive|]. intros x Hx. unfold live in *.
    by rewrite length_reveal.
  - eapply (tidy_insert _ (faces s)); [done | done | |].
    + apply tidy_reveal.
      * by eapply closed_sublist.
      * eapply sublist_NoDup; [by eapply NoDup_column | by apply fmap_sublist].
      * eapply Forall_sublist_1; [exact Hsub|].
        apply Forall_app in Hlive as [Hlt _]. by eapply Forall_concat_lookup.
    + intros i col' y Hne Hi Hy. apply reveal_other. intros t0 Ht0 Heq.
      apply (oid_disjoint_columns _ _ c i col col' t0 y Hnd Hcol Hi Hne); [|done|done].
      eapply elem_of_sublist; [by apply top_elem_of | done].
  - rewrite length_app, Hrem. destruct (includeAces s); lia.
Qed.

(** The invariant on the state of the dealing loops; [fc] is the
    foundations list. *)
Definition accSound (fc : list Card) (acc : DealAcc) : Prop :=
  NoDup (oid <$> (concat acc.1.1.1 ++ acc.1.1.2 ++ fc))
  /\ Forall (live acc.1.2) (concat acc.1.1.1 ++ acc.1.1.2 ++ fc)
  /\ Forall (tidy acc.1.2) acc.1.1.1.

Lemma dealOne_sound fc c acc acc' :
  accSound fc acc -> dealOne c acc = Some acc' -> accSound fc acc'.
Proof.
  destruct acc as [[[t stk] f] dealt]. unfold dealOne, accSound. cbn [fst snd].
  intros (Hnd & Hlive & Htidy) H.
  destruct stk as [|card stk]; cbn [shift] in H; [by injection H as <-|].
  apply bind_Some in H as (col & Hcol & [= <-]). cbn [fst snd].
  assert (concat (<[c := col ++ [card]]> t) ++ stk ++ fc ≡ₚ concat t ++ (card :: stk) ++ fc)
    as HP.
  { rewrite (concat_insert_more t c col [card] Hcol), <- app_assoc. done. }
  assert (live f card) as Hlc.
  { apply Forall_app in Hlive as [_ Hl]. apply Forall_app in Hl as [Hl _].
    by apply Forall_cons in Hl as [? _]. }
  assert (forall i col' y, t !! i = Some col' -> y ∈ col' ->
            faceUp (setFaceUp card true f) y = faceUp f y) as Hsame.
  { intros i col' y Hi Hy. rewrite faceUp_setFaceUp, decide_False; [done|].
    intros Heq. symmetry in Heq. revert Heq.
    apply (oid_disjoint_rest t (card :: stk ++ fc) i col' card y Hnd Hi); [by left | done]. }
  split_and!.
  - by rewrite HP.
  - rewrite HP. eapply Forall_impl; [exact Hlive|]. intros x Hx. unfold live, setFaceUp in *.
    by rewrite length_insert.
  - eapply (tidy_insert _ f); [done | done | |].
    + apply tidy_push.
      * apply (tidy_ext f); [intros y Hy; by apply (Hsame c col)|].
        by eapply (Forall_lookup_1 _ _ _ _ Htidy).
      * apply Forall_singleton. rewrite faceUp_setFaceUp, decide_True by done.
        by rewrite bool_decide_eq_true_2.
    + intros i col' y _ Hi Hy. by apply (Hsame i col').
Qed.

Lemma dealLoop_sound fc n c acc acc' :
  accSound fc acc -> dealLoop n c acc = Some acc' -> accSound fc acc'.
Proof.
  revert c acc. induction n as [|n IH]; intros c acc Hs H.
  - cbn in H. by injection H as <-.
  - cbn [dealLoop] in H. apply bind_Some in H as (acc1 & H1 & H).
    apply (IH (S c) acc1); [|done]. by eapply dealOne_sound.
Qed.

Lemma dealFinal_sound fc fuel c acc acc' :
  accSound fc acc -> dealFinal fuel c acc = Some acc' -> accSound fc acc'.
Proof.
  revert c acc. induction fuel as [|n IH]; intros c acc Hs H.
  - cbn in H. by injection H as <-.
  - cbn [dealFinal] in H. destruct acc as [[[t stk] f] dealt] eqn:Hacc.
    destruct (c <? length stk)%nat; [|by injection H as <-].
    rewrite <- Hacc in *.
    apply bind_Some in H as (acc1 & H1 & H).
    apply (IH (S c) acc1); [|done]. by eapply dealOne_sound.
Qed.

Lemma cloneCards_grows (cards : list Card) :
  forall (seen : list (nat * nat)) (f : list bool),
    exists ext, (cloneCards seen cards f).2 = f ++ ext.
Proof.
  induction cards as [|c cards IH]; intros seen f.
  - exists []. cbn. by rewrite app_nil_r.
  - cbn [cloneCards]. destruct (list_find _ seen) as [[? [? o]]|].
    + destruct (IH seen f) as [ext Hext].
      destruct (cloneCards seen cards f) as [cs f']. cbn [snd] in *. by exists ext.
    + destruct (IH ((oid c, length f) :: seen) (f ++ [faceUp f c])) as [ext Hext].
      destruct (cloneCards _ cards _) as [cs f']. cbn [snd] in *.
      exists ([faceUp f c] ++ ext). by rewrite app_assoc.
Qed.

Lemma move_concat_Permutation {A} (t : list (list A)) (from to start : nat)
    (src dst : list A) :
  from <> to -> t !! from = Some src -> t !! to = Some dst ->
  concat (<[from := take start src]> (<[to := dst ++ drop start src]> t)) ≡ₚ concat t.
Proof.
  intros Hne Hsrc Hdst.
  pose proof (concat_insert_more t to dst (drop start src) Hdst) as Hmore.
  pose proof (concat_insert_less (<[to := dst ++ drop start src]> t)
                from src (take start src) (drop start src)) as Hless.
  rewrite list_lookup_insert_ne in Hless by done.
  specialize (Hless Hsrc). rewrite take_drop in Hless. specialize (Hless (reflexivity _)).
  rewrite Hmore in Hless. by apply Permutation_app_inv_r in Hless.
Qed.

Lemma tail_faceUp (f : list bool) (src : list Card) (start : nat) :
  tidy f src -> (start < length src)%nat ->
  tailOk f src start (length src - 1) = true ->
  Forall (fun c => faceUp f c = true) (drop start src).
Proof.
  intros [Hcl Htop] Hstart Htail.
  destruct (lookup_lt_is_Some_2 src start Hstart) as [head Hhead].
  assert (faceUp f head = true) as Hup.
  { destruct (decide (S start = length src)) as [Heq|Hlt].
    - apply Htop. unfold top. rewrite last_lookup.
      by replace (Nat.pred (length src)) with start by lia.
    - destruct (lookup_lt_is_Some_2 src (S start)) as [a Ha]; [lia|].
      pose proof (proj1 (tailOk_iff f src start (length src - 1) ltac:(lia)) Htail) as Hall.
      destruct (Hall start a head) as (_ & ? & _); [lia | done | done | done]. }
  apply Forall_forall. intros c [k Hk]%list_elem_of_lookup.
  rewrite lookup_drop in Hk.
  apply (Hcl start (start + k)%nat head c); [lia | done | done | done].
Qed.

(** The state right after the cards of a move have changed columns, the
    card beneath them has been revealed and the clones have been made. *)
Lemma move_sound (s s1 : State) (from to start : nat) (src dst : list Card)
    (ext : list bool) :
  sound s ->
  from <> to -> tableau s !! from = Some src -> tableau s !! to = Some dst ->
  (start < length src)%nat ->
  tailOk (faces s) src start (length src - 1) = true ->
  tableau s1 = <[from := take start src]> (<[to := dst ++ drop start src]> (tableau s)) ->
  stock s1 = stock s -> foundationsCards s1 = foundationsCards s ->
  faces s1 = reveal (faces s) (take start src) ++ ext ->
  foundations s1 = foundations s -> includeAces s1 = includeAces s ->
  sound s1
  /\ forall y, y ∈ stock s -> faceUp (faces s1) y = faceUp (faces s) y.
Proof.
  intros Hs Hne Hsrc Hdst Hstart Htail Ht1 Hs1 Hfc1 Hf1 Hfo1 Hia1.
  destruct Hs as (Hnd & Hlive & Htidy & Hruns).
  unfold sound, allCards in *. rewrite Ht1, Hs1, Hfc1, Hf1, Hfo1, Hia1.
  pose proof (move_concat_Permutation (tableau s) from to start src dst Hne Hsrc Hdst) as HP.
  assert (Forall (live (faces s)) (concat (tableau s))) as Hlc
    by (by apply Forall_app in Hlive as [? _]).
  assert (forall i col y, tableau s !! i = Some col -> y ∈ col -> live (faces s) y) as Hcl.
  { intros i col y Hi Hy.
    apply (proj1 (Forall_forall _ _) (Forall_concat_lookup _ _ _ _ Hlc Hi)). done. }
  assert (forall y, live (faces s) y ->
            faceUp (reveal (faces s) (take start src) ++ ext) y
            = faceUp (reveal (faces s) (take start src)) y) as Happ.
  { intros y Hy. apply faceUp_app_live. unfold live. by rewrite length_reveal. }
  assert (forall i col y, i <> from -> tableau s !! i = Some col -> y ∈ col ->
            faceUp (reveal (faces s) (take start src) ++ ext) y = faceUp (faces s) y)
    as Hother.
  { intros i col y Hi Hcol Hy. rewrite Happ by (by eapply Hcl).
    apply reveal_other. intros t0 Ht0 Heq.
    apply (oid_disjoint_columns _ _ from i src col t0 y Hnd Hsrc Hcol Hi); [|done|done].
    eapply elem_of_sublist; [by apply top_elem_of | apply sublist_take]. }
  split; [split_and!|].
  - by rewrite HP.
  - rewrite HP. eapply Forall_impl; [exact Hlive|]. intros x Hx. unfold live in *.
    rewrite length_app, length_reveal. lia.
  - apply Forall_lookup. intros i col Hi.
    destruct (decide (i = from)) as [->|Hifrom]; [|destruct (decide (i = to)) as [->|Hito]].
    + rewrite list_lookup_insert_eq in Hi
        by (rewrite length_insert; by eapply lookup_lt_Some).
      injection Hi as <-.
      apply (tidy_ext (reveal (faces s) (take start src))).
      { intros y Hy. apply Happ. apply (Hcl from src); [done|].
        eapply elem_of_sublist; [exact Hy | apply sublist_take]. }
      apply tidy_reveal.
      * eapply closed_sublist; [apply sublist_take|].
        by destruct (Forall_lookup_1 _ _ _ _ Htidy Hsrc).
      * eapply sublist_NoDup; [exact (NoDup_column _ _ from src Hnd Hsrc)|].
        apply fmap_sublist, sublist_take.
      * apply Forall_take. exact (Forall_concat_lookup _ _ from src Hlc Hsrc).
    + rewrite list_lookup_insert_ne in Hi by done.
      rewrite list_lookup_insert_eq in Hi by (by eapply lookup_lt_Some).
      injection Hi as <-. apply tidy_push.
      * apply (tidy_ext (faces s)); [intros y Hy; by apply (Hother to dst)|].
        by eapply (Forall_lookup_1 _ _ _ _ Htidy).
      * pose proof (tail_faceUp (faces s) src start
                      (Forall_lookup_1 _ _ _ _ Htidy Hsrc) Hstart Htail) as Hup.
        apply Forall_forall. intros y Hy.
        rewrite Happ.
        -- apply reveal_mono. by apply (proj1 (Forall_forall _ _) Hup).
        -- apply (Hcl from src); [done|].
           eapply elem_of_sublist; [exact Hy | apply sublist_drop].
    + rewrite !list_lookup_insert_ne in Hi by done.
      apply (tidy_ext (faces s)); [intros y Hy; by apply (Hother i col)|].
      by eapply (Forall_lookup_1 _ _ _ _ Htidy).
  - done.
  - intros y Hy. rewrite Happ.
    + apply reveal_other. intros t0 Ht0.
      apply (oid_disjoint_rest (tableau s) _ from src y t0 Hnd Hsrc).
      * apply elem_of_app. by left.
      * eapply elem_of_sublist; [by apply top_elem_of | apply sublist_take].
    + apply (proj1 (Forall_forall _ _) Hlive). rewrite !elem_of_app. auto.
Qed.

(** The invariant of forward play, with a face-down stock. *)
Definition settled (s : State) : Prop :=
  sound s /\ Forall (fun c => faceUp (faces s) c = false) (stock s).

Lemma completeTopRun_settled (c : nat) (s : State) (r : bool * State) :
  settled s -> completeTopRun c (includeAces s) s = Some r -> settled r.2.
Proof.
  intros [Hs Hdown] H. split; [by eapply completeTopRun_sound|].
  destruct Hs as (Hnd & _). unfold completeTopRun in H.
  apply bind_Some in H as (col & Hcol & H).
  destruct (tryComplete col (includeAces s) (faces s)) as [[rem rest]|] eqn:Htry.
  2: { by injection H as <-. }
  injection H as <-. cbn [snd stock faces].
  apply tryComplete_block in Htry as (pre & post & ? & ? & ? & Hc & Hrest & _).
  change (match match top rest with
                | Some t => if negb (faceUp (faces s) t) then Some t else None
                | None => None
                end with
          | Some t => setFaceUp t true (faces s)
          | None => faces s
          end) with (reveal (faces s) rest).
  apply Forall_forall. intros y Hy. rewrite reveal_other.
  - by apply (proj1 (Forall_forall _ _) Hdown).
  - intros t0 Ht0. unfold allCards in Hnd.
    apply (oid_disjoint_rest (tableau s) _ c col y t0 Hnd Hcol).
    + apply elem_of_app. by left.
    + apply top_elem_of in Ht0. rewrite Hrest in Ht0. rewrite Hc.
      apply elem_of_app in Ht0 as [?|?]; rewrite !elem_of_app; auto.
Qed.

Lemma checkWin_settled s : settled s -> settled (checkWin s).
Proof. unfold checkWin. by destruct (_ =? _). Qed.

Lemma doMove_settled from startIndex to s r :
  settled s -> doMove from startIndex to s = Some r -> settled r.2.
Proof.
  intros [Hs Hdown] H. unfold doMove in H.
  destruct (Nat.eqb_spec from to) as [|Hne]; [by injection H as <-|].
  apply bind_Some in H as (src & Hsrc & H).
  destruct (Z.ltb_spec startIndex 0) as [|Hge]; [by injection H as <-|].
  destruct (Z.leb_spec (Z.of_nat (length src)) startIndex) as [|Hlt]; [by injection H as <-|].
  cbn [orb] in H.
  destruct (tailOk _ _ _ _) eqn:Htail; cbn [negb] in H; [|by injection H as <-].
  apply bind_Some in H as (dst & Hdst & H).
  apply bind_Some in H as (head & _ & H).
  destruct (negb _); [by injection H as <-|].
  set (start := Z.to_nat startIndex) in *.
  change (match match top (take start src) with
                | Some c => if negb (faceUp (faces s) c) then Some c else None
                | None => None
                end with
          | Some c => setFaceUp c true (faces s)
          | None => faces s
          end) with (reveal (faces s) (take start src)) in H.
  destruct (cloneCards_grows (drop start src) [] (reveal (faces s) (take start src)))
    as [ext Hext].
  unfold structuredClone in H.
  destruct (cloneCards [] (drop start src) (reveal (faces s) (take start src)))
    as [clones f2]. cbn [snd] in Hext. subst f2.
  apply bind_Some in H as (r1 & Hr1 & H).
  apply bind_Some in H as (r2 & Hr2 & [= <-]). cbn [snd].
  apply checkWin_settled.
  eapply completeTopRun_settled; [|exact Hr2].
  eapply completeTopRun_settled; [|exact Hr1].
  match goal with |- settled ?s1 =>
    destruct (move_sound s s1 from to start src dst ext Hs Hne Hsrc Hdst ltac:(lia) Htail)
      as [Hs1 Hst]; try reflexivity end.
  split; [done|]. cbn [stock faces] in *.
  apply Forall_forall. intros y Hy. rewrite Hst by done.
  by apply (proj1 (Forall_forall _ _) Hdown).
Qed.

Lemma completeAll_settled_from cols s s' :
  settled s ->
  foldl (fun os c => s ← os; r ← completeTopRun c (includeAces s) s; Some r.2)
        (Some s) cols = Some s' ->
  settled s'.
Proof.
  revert s. induction cols as [|c cols IH]; intros s Hs H.
  - cbn in H. by injection H as <-.
  - cbn [foldl mbind option_bind] in H.
    destruct (completeTopRun c (includeAces s) s) as [r|] eqn:Hr.
    + cbn in H. apply (IH r.2); [|done]. by eapply completeTopRun_settled.
    + cbn in H. by rewrite mfold_None in H.
Qed.

Lemma dealOne_down fc c acc acc' :
  accSound fc acc ->
  Forall (fun x => faceUp acc.1.2 x = false) acc.1.1.2 ->
  dealOne c acc = Some acc' ->
  Forall (fun x => faceUp acc'.1.2 x = false) acc'.1.1.2.
Proof.
  destruct acc as [[[t stk] f] dealt]. unfold dealOne, accSound. cbn [fst snd].
  intros (Hnd & _) Hdown H.
  destruct stk as [|card stk]; cbn [shift] in H; [by injection H as <-|].
  apply bind_Some in H as (col & Hcol & [= <-]). cbn [fst snd].
  apply Forall_cons in Hdown as [_ Hdown].
  apply Forall_forall. intros y Hy.
  rewrite faceUp_setFaceUp, decide_False; [by apply (proj1 (Forall_forall _ _) Hdown)|].
  intros Heq. rewrite fmap_app in Hnd. apply NoDup_app in Hnd as (_ & _ & Hnd).
  rewrite fmap_app in Hnd. apply NoDup_app in Hnd as (Hnd & _ & _).
  rewrite fmap_cons in Hnd. apply NoDup_cons in Hnd as [Hnin _].
  apply Hnin. rewrite <- Heq. by apply list_elem_of_fmap_2.
Qed.

Lemma dealLoop_down fc n c acc acc' :
  accSound fc acc ->
  Forall (fun x => faceUp acc.1.2 x = false) acc.1.1.2 ->
  dealLoop n c acc = Some acc' ->
  Forall (fun x => faceUp acc'.1.2 x = false) acc'.1.1.2.
Proof.
  revert c acc. induction n as [|n IH]; intros c acc Hs Hd H.
  - cbn in H. by injection H as <-.
  - cbn [dealLoop] in H. apply bind_Some in H as (acc1 & H1 & H).
    apply (IH (S c) acc1); [by eapply dealOne_sound | by eapply dealOne_down | done].
Qed.

Lemma dealFinal_down fc fuel c acc acc' :
  accSound fc acc ->
  Forall (fun x => faceUp acc.1.2 x = false) acc.1.1.2 ->
  dealFinal fuel c acc = Some acc' ->
  Forall (fun x => faceUp acc'.1.2 x = false) acc'.1.1.2.
Proof.
  revert c acc. induction fuel as [|n IH]; intros c acc Hs Hd H.
  - cbn in H. by injection H as <-.
  - cbn [dealFinal] in H. destruct acc as [[[t stk] f] dealt] eqn:Hacc.
    destruct (c <? length stk)%nat; [|by injection H as <-].
    rewrite <- Hacc in *.
    apply bind_Some in H as (acc1 & H1 & H).
    apply (IH (S c) acc1); [by eapply dealOne_sound | by eapply dealOne_down | done].
Qed.

Lemma dealRow_settled s r : settled s -> dealRow s = Some r -> settled r.2.
Proof.
  intros [Hs Hdown] H. unfold dealRow in H.
  destruct (_ && _); [by injection H as <-|].
  apply bind_Some in H as (empty & _ & H).
  destruct empty; [by injection H as <-|].
  apply bind_Some in H as ([[[[t stk] f] dealt] dr] & Hdeal & H).
  apply bind_Some in H as (s1 & Hall & [= <-]).
  apply completeAll_settled_from in Hall; [done|].
  destruct Hs as (Hnd & Hlive & Htidy & Hruns).
  assert (accSound (foundationsCards s) (tableau s, stock s, faces s, [])) as Hacc0
    by (by split_and!).
  assert (accSound (foundationsCards s) (t, stk, f, dealt)
          /\ Forall (fun x => faceUp f x = false) stk) as [(Hnd' & Hlive' & Htidy') Hdown'].
  { destruct (_ && _ && _).
    - apply bind_Some in Hdeal as (acc & Hacc & [= -> _]).
      split; [by eapply dealFinal_sound|].
      by apply (dealFinal_down _ _ _ _ _ Hacc0 Hdown Hacc).
    - apply bind_Some in Hdeal as (acc & Hacc & [= -> _]).
      split; [by eapply dealLoop_sound|].
      by apply (dealLoop_down _ _ _ _ _ Hacc0 Hdown Hacc). }
  unfold settled, sound, allCards.
  cbn [tableau stock foundationsCards faces foundations includeAces fst snd] in *.
  by split_and!.
Qed.


Lemma length_flipTops (cols : list (list Card)) (f : list bool) :
  length (foldl (fun f col => flipTop col f) f cols) = length f.
Proof.
  revert f. induction cols as [|col cols IH]; intros f; [done|].
  cbn [foldl]. by rewrite IH, length_flipTop.
Qed.

Lemma newGame_faceUp d sd aces s ci col i c :
  tableau (newGame d sd aces s) !! ci = Some col -> col !! i = Some c ->
  faceUp (faces (newGame d sd aces s)) c = bool_decide (S i = length col).
Proof.
  destruct (newGame_layout d sd aces s) as (_ & _ & Htab & _ & Hfaces & _).
  destruct (shuffledDeck_facts (default (difficulty s) d) sd (default (includeAces s) aces))
    as (Hnd & Hoid & Hlen).
  assert (length (shuffledDeck (canonDiff (default (difficulty s) d)) sd
                    (default (includeAces s) aces)) = 104%nat
          \/ length (shuffledDeck (canonDiff (default (difficulty s) d)) sd
                    (default (includeAces s) aces)) = 96%nat) as Hsize.
  { rewrite Hlen. destruct (default (includeAces s) aces); auto. }
  rewrite Hfaces, Htab. intros Hcol Hc.
  by apply (fresh_tableau_faces _ _ Hnd Hoid Hsize ci col i c).
Qed.

Lemma newGame_sound d sd aces s :
  foundationsCards s = [] -> sound (newGame d sd aces s).
Proof.
  intros Hfc. pose proof (newGame_allCards d sd aces s Hfc) as HP.
  destruct (newGame_layout d sd aces s) as (_ & _ & _ & _ & Hfaces & _).
  destruct (newGame_foundations d sd aces s) as [Hfc' Hf'].
  destruct (createDeck_facts (canonDiff (default (difficulty s) d))
              (default (includeAces s) aces) (canonDiff_cases _)) as (_ & Hnd & Hoid).
  assert (length (faces (newGame d sd aces s)) = (length (faces s) + 104)%nat) as Hlen.
  { rewrite Hfaces, length_flipTops, length_app, length_replicate. done. }
  unfold sound. split_and!.
  - rewrite HP, <- list_fmap_compose.
    change (oid ∘ rebase (length (faces s)))
      with ((fun k => length (faces s) + k)%nat ∘ oid).
    rewrite list_fmap_compose. apply NoDup_fmap_2; [|done]. intros x y. lia.
  - rewrite HP. apply Forall_fmap. eapply Forall_impl; [exact Hoid|].
    intros c Hc. unfold live, compose. cbn [rebase oid] in *. cbv beta in Hc.
    rewrite Hlen. lia.
  - apply Forall_lookup. intros ci col Hcol. split.
    + intros i j a b Hij Ha Hb.
      rewrite (newGame_faceUp d sd aces s ci col i a Hcol Ha),
              (newGame_faceUp d sd aces s ci col j b Hcol Hb).
      intros Hi%bool_decide_eq_true. apply bool_decide_eq_true.
      apply lookup_lt_Some in Hb. lia.
    + intros t Ht. unfold top in Ht. rewrite last_lookup in Ht.
      rewrite (newGame_faceUp d sd aces s ci col _ t Hcol Ht).
      apply bool_decide_eq_true. apply lookup_lt_Some in Ht. lia.
  - rewrite Hfc', Hf', Hfc. done.
Qed.

Lemma newGame_settled d sd aces s :
  foundationsCards s = [] -> settled (newGame d sd aces s).
Proof.
  intros Hfc. split; [by apply newGame_sound|].
  destruct (newGame_layout d sd aces s) as (_ & _ & Htab & Hstock & Hfaces & _).
  destruct (shuffledDeck_facts (default (difficulty s) d) sd (default (includeAces s) aces))
    as (Hnd & Hoid & Hlen).
  assert (length (shuffledDeck (canonDiff (default (difficulty s) d)) sd
                    (default (includeAces s) aces)) = 104%nat
          \/ length (shuffledDeck (canonDiff (default (difficulty s) d)) sd
                    (default (includeAces s) aces)) = 96%nat) as Hsize.
  { rewrite Hlen. destruct (default (includeAces s) aces); auto. }
  rewrite Hfaces, Htab, Hstock. apply Forall_forall. intros c Hc.
  by eapply fresh_stock_faces.
Qed.

(** Induction over a game of deals and moves. *)
Lemma play_forward_ind (P : State -> Prop) (ops : list Op) (s s' : State) :
  (forall s r, P s -> dealRow s = Some r -> P r.2) ->
  (forall from startIndex to s r, P s -> doMove from startIndex to s = Some r -> P r.2) ->
  Forall forwardOp ops -> play ops s = Some s' -> P s -> P s'.
Proof.
  intros Hdeal Hmove Hops. revert s.
  induction Hops as [|op ops Hop Hops IH]; intros s Hplay Hs.
  - cbn in Hplay. by injection Hplay as <-.
  - apply mfold_cons in Hplay as (s1 & Hstep & Hplay).
    apply (IH s1 Hplay).
    destruct op; try done; cbn [step] in Hstep;
      apply bind_Some in Hstep as (r & Hr & [= <-]).
    + by eapply Hdeal.
    + by eapply Hmove.
Qed.

Lemma completeTopRun_difficulty c aces s r :
  completeTopRun c aces s = Some r -> difficulty r.2 = difficulty s.
Proof.
  unfold completeTopRun. intros H. apply bind_Some in H as (col & _ & H).
  destruct (tryComplete col aces (faces s)) as [[rem rest]|]; by simplify_eq/=.
Qed.

Lemma completeAll_difficulty_from cols s s' :
  foldl (fun os c => s ← os; r ← completeTopRun c (includeAces s) s; Some r.2)
        (Some s) cols = Some s' ->
  difficulty s' = difficulty s.
Proof.
  revert s. induction cols as [|c cols IH]; intros s H.
  - cbn in H. by injection H as ->.
  - cbn [foldl mbind option_bind] in H.
    destruct (completeTopRun c (includeAces s) s) as [r|] eqn:Hr.
    + cbn in H. apply IH in H. apply completeTopRun_difficulty in Hr. congruence.
    + cbn in H. by rewrite mfold_None in H.
Qed.

Lemma dealRow_difficulty s r : dealRow s = Some r -> difficulty r.2 = difficulty s.
Proof.
  unfold dealRow. intros H.
  destruct (_ && _); [by injection H as <-|].
  apply bind_Some in H as (empty & _ & H).
  destruct empty; [by injection H as <-|].
  apply bind_Some in H as ([[[[t stk] f] dealt] dr] & _ & H).
  apply bind_Some in H as (s1 & Hall & [= <-]).
  by apply completeAll_difficulty_from in Hall.
Qed.

Lemma doMove_difficulty from startIndex to s r :
  doMove from startIndex to s = Some r -> difficulty r.2 = difficulty s.
Proof.
  unfold doMove. intros H.
  destruct (from =? to)%nat; [by injection H as <-|].
  apply bind_Some in H as (src & Hsrc & H).
  destruct (_ || _); [by injection H as <-|].
  destruct (negb _); [by injection H as <-|].
  apply bind_Some in H as (dst & Hdst & H).
  apply bind_Some in H as (head & _ & H).
  destruct (negb _); [by injection H as <-|].
  destruct (structuredClone _ _) as [clones f'].
  apply bind_Some in H as (r1 & Hr1 & H).
  apply bind_Some in H as (r2 & Hr2 & [= <-]).
  apply completeTopRun_difficulty in Hr1, Hr2. cbn [snd difficulty] in *.
  unfold checkWin. destruct (_ =? _); cbn [difficulty]; congruence.
Qed.

(** X27. The inventory check passes throughout a game without undo:
    in every state reached from a first new game (any difficulty, seed and
    Ace setting) by deals and moves, with all the runs they complete,
    [verifyInventory] of [validation.js] returns [ok = true]: the piles hold
    the deck, [dealsRemaining] matches the stock, the foundations list holds
    13 (or 12) cards per completed run, and every column shows its top card.
    In such a game face-down cards lie only beneath face-up ones, so no
    completed run ever takes a face-down card along. *)
Theorem validation_accepts_forward_play (d : option string) (sd : list Z)
    (aces : option bool) (s0 s : State) (ops : list Op) :
  foundationsCards s0 = [] ->
  Forall forwardOp ops ->
  play ops (newGame d sd aces s0) = Some s ->
  Validation.ok (Validation.verifyInventory s) = true.
Proof.
  intros Hfc Hops Hplay. set (g := newGame d sd aces s0) in *.
  assert (settled s) as [(_ & _ & Htidy & Hruns) _].
  { apply (play_forward_ind settled ops g s); [| |done|done|by apply newGame_settled].
    - intros ? ?. apply dealRow_settled.
    - intros ? ? ? ? ?. apply doMove_settled. }
  assert (tenPerDeal s) as (_ & Hstock & _).
  { apply (play_forward_ind tenPerDeal ops g s); [| |done|done|apply newGame_tenPerDeal].
    - intros ? ?. apply dealRow_tenPerDeal.
    - intros ? ? ? ? ?. apply doMove_tenPerDeal. }
  assert (difficulty s = difficulty g) as Hdiff.
  { apply (play_forward_ind (fun x => difficulty x = difficulty g) ops g s); [| |done..].
    - intros x r Hx Hr. apply dealRow_difficulty in Hr. congruence.
    - intros ? ? ? x r Hx Hr. apply doMove_difficulty in Hr. congruence. }
  destruct (play_forward_allCards ops g s Hops Hplay) as [HP Ha].
  pose proof (newGame_allCards d sd aces s0 Hfc) as HPg. fold g in HPg.
  destruct (newGame_layout d sd aces s0) as (Hdg & Hig & _). fold g in Hdg, Hig.
  destruct (createDeck_facts (canonDiff (default (difficulty s0) d))
              (default (includeAces s0) aces) (canonDiff_cases _)) as (Hlen & _).
  destruct (createDeck_valid (canonDiff (default (difficulty s0) d))
              (default (includeAces s0) aces) (canonDiff_cases _)) as (Hnd & Hsuit & Hrank).
  assert (Validation.issues (Validation.verifyInventory s) = []) as Hnil.
  { apply verifyInventory_issues. unfold deckSize.
    rewrite Hdiff, Ha, Hdg, Hig. split_and!.
    - by rewrite HP, HPg, length_fmap.
    - by rewrite HP, HPg, <- list_fmap_compose.
    - rewrite <- Hsuit. apply suitIssues_Permutation.
      by rewrite HP, HPg, <- list_fmap_compose.
    - rewrite <- Hrank. apply rankIssues_Permutation.
      by rewrite HP, HPg, <- list_fmap_compose.
    - rewrite Hstock. apply (Z.div_unique _ 10 _ 9); lia.
    - by rewrite Hruns, Ha, Hig.
    - eapply Forall_impl; [exact Htidy|]. by intros col [_ ?]. }
  unfold Validation.verifyInventory in *. cbv zeta in *.
  cbn [Validation.ok Validation.issues] in *. by rewrite Hnil.
Qed.

Lemma validation_accepts_forward_play_witness :
  Validation.ok (Validation.verifyInventory
                   (default state0 (play [OpMove 1 4 4; OpDeal; OpDeal] test1))) = true.
Proof.
  apply (validation_accepts_forward_play (Some "1-suit"%string) (codes "test1") None state0
           (default state0 (play [OpMove 1 4 4; OpDeal; OpDeal] test1))
           [OpMove 1 4 4; OpDeal; OpDeal]).
  - reflexivity.
  - repeat constructor.
  - vm_compute. reflexivity.
Defined.

(** ** Undo during a game without earlier undo *)

Lemma NoDup_column_id (t : list (list Card)) (rest : list Card) (i : nat) (col : list Card) :
  NoDup (id <$> (concat t ++ rest)) -> t !! i = Some col -> NoDup (id <$> col).
Proof.
  intros Hnd Hi. rewrite fmap_app in Hnd. apply NoDup_app in Hnd as (Hnd & _ & _).
  rewrite (concat_delete_Permutation t i col Hi), fmap_app in Hnd.
  by apply NoDup_app in Hnd as (? & _ & _).
Qed.

(** X28. The undo inverse law, where it holds: in a game played from a
    first new game with deals and moves only, [undo] right after an accepted
    move or an accepted deal from a non-empty stock that completed no run
    puts every card back in its pile and position with its [faceUp] flag
    and restores [dealsRemaining], the foundations counter and the history.
    The point of score that the operation cost is not refunded, and the
    move counter ends two higher. *)
Theorem undo_inverts_forward_step (d : option string) (sd : list Z) (aces : option bool)
    (s0 s s' : State) (ops : list Op) (op : Op) (h : Entry) :
  foundationsCards s0 = [] ->
  Forall forwardOp ops ->
  play ops (newGame d sd aces s0) = Some s ->
  forwardOp op ->
  step op s = Some s' ->
  history s' = history s ++ [h] ->
  (op = OpDeal -> stock s <> []) ->
  exists s'',
    undo s' = Some s''
    /\ layout s'' = layout s
    /\ dealsRemaining s'' = dealsRemaining s /\ foundations s'' = foundations s
    /\ history s'' = history s
    /\ score s'' = Z.max 0 (score s - 1) /\ moves s'' = moves s + 2.
Proof.
  intros Hfc Hops Hplay Hop Hstep Hhist Hstock. set (g := newGame d sd aces s0) in *.
  assert (settled s) as [(Hnd & Hlive & Htidy & Hruns) Hdown].
  { apply (play_forward_ind settled ops g s); [| |done|done|by apply newGame_settled].
    - intros ? ?. apply dealRow_settled.
    - intros ? ? ? ? ?. apply doMove_settled. }
  assert (tenPerDeal s) as (Hten & Hst & Hdr).
  { apply (play_forward_ind tenPerDeal ops g s); [| |done|done|apply newGame_tenPerDeal].
    - intros ? ?. apply dealRow_tenPerDeal.
    - intros ? ? ? ? ?. apply doMove_tenPerDeal. }
  assert (NoDup (id <$> allCards s)) as Hids.
  { destruct (play_forward_allCards ops g s Hops Hplay) as [HP _].
    pose proof (newGame_allCards d sd aces s0 Hfc) as HPg. fold g in HPg.
    destruct (createDeck_valid (canonDiff (default (difficulty s0) d))
                (default (includeAces s0) aces) (canonDiff_cases _)) as (Hnd' & _).
    by rewrite HP, HPg, <- list_fmap_compose. }
  assert (history s <> history s ++ [h]) as Hneq.
  { intros Heq. apply (f_equal length) in Heq. rewrite length_app in Heq. cbn in Heq. lia. }
  destruct op as [|from startIndex to| |]; try done; cbn [step] in Hstep;
    apply bind_Some in Hstep as ([b r] & Hr & [= <-]); cbn [snd] in *.
  - destruct b; [|apply dealRow_false in Hr; by subst r].
    destruct (dealRow_accounting_eq s r Hr) as (dealt & cs & Hh & _).
    rewrite Hhist in Hh. apply app_inv_head in Hh. injection Hh as -> Hcs.
    assert (10 <= length (stock s))%nat as Hlen.
    { specialize (Hstock eq_refl). destruct (stock s); [done|]. cbn [length] in *. lia. }
    destruct (undo_full_deal_eq s r dealt Hten Hlen (Forall_take _ _ _ Hdown) Hr Hhist)
      as (_ & _ & s'' & Hu & Ht & Hs & Hf & Hfcs & Hd & Hhs & _ & Hsc & Hm & Hfo).
    exists s''. split; [done|]. unfold layout. rewrite Ht, Hs, Hf, Hfcs.
    by split_and!.
  - destruct b; [|apply doMove_false in Hr; by subst r].
    destruct (doMove_accounting_eq s r from startIndex to Hr)
      as (clones & turned & cs & Hh & _).
    rewrite Hhist in Hh. apply app_inv_head in Hh. injection Hh as -> Hcs.
    destruct (proj1 (doMove_true_iff s from startIndex to) (ex_intro _ r Hr))
      as (_ & src & _ & _ & Hsrc & _).
    unfold allCards in Hnd, Hids.
    destruct (undo_plain_move_eq s r from to startIndex src clones turned Hsrc
                (NoDup_column_id _ _ _ _ Hids Hsrc) (NoDup_column _ _ _ _ Hnd Hsrc)
                Hlive Hr Hhist)
      as (s'' & Hu & Hl & Hhs & Hd & Hf & Hsc & Hm & _).
    exists s''. by split_and!.
Qed.

Lemma undo_inverts_forward_step_witness :
  exists s'',
    undo (default state0 (play [OpMove 1 4 4; OpDeal; OpDeal] test1)) = Some s''
    /\ layout s'' = layout (default state0 (play [OpMove 1 4 4; OpDeal] test1)).
Proof.
  destruct (undo_inverts_forward_step (Some "1-suit"%string) (codes "test1") None state0
              (default state0 (play [OpMove 1 4 4; OpDeal] test1))
              (default state0 (play [OpMove 1 4 4; OpDeal; OpDeal] test1))
              [OpMove 1 4 4; OpDeal] OpDeal
              (EDeal (take 10 (stock (default state0 (play [OpMove 1 4 4; OpDeal] test1))))))
    as (s'' & Hu & Hl & _).
  - reflexivity.
  - repeat constructor.
  - vm_compute. reflexivity.
  - exact I.
  - vm_compute. reflexivity.
  - vm_compute. reflexivity.
  - intros _. vm_compute. discriminate.
  - exists s''. split; [exact Hu | exact Hl].
Defined.
